(** * Battlesnake turn planners: a shallow embedding and its properties

    The repository holds four independent planners (main.py and
    examples/safe.py, examples/greedy.py, examples/aggressive.py).  Each maps
    a snapshot of the board to one of the four direction tokens.

    Conventions of the embedding:
    - Python integers are [Z]; a coordinate dict with keys x and y and the
      tuple (x, y) used as a set key are both the pair [(x, y) : Coord];
    - Python sets of cells are [gset Coord], dicts are [gmap];
    - the scores are Python floats; they are embedded as exact rationals [Q];
    - [random.random()] is an input: the stream [rnd : nat -> Q] gives the
      draw used for the i-th candidate;
    - an operation that can raise (indexing an empty list, a missing dict
      key) returns [option]. *)

From Stdlib Require Import ZArith QArith Qabs String Lia Lqa.
From stdpp Require Import base option gmap sets strings functions list.
Local Open Scope string_scope.
Local Open Scope list_scope.
Local Open Scope Z_scope.

(** ** Data model *)

Abbreviation Coord := (Z * Z)%type (only parsing).

Record Snake := mkSnake {
  snake_id : string;
  snake_head : Coord;
  snake_body : list Coord;
  snake_length : Z;
  snake_health : Z
}.

Record Board := mkBoard {
  width : Z;
  height : Z;
  snakes : list Snake;
  food : list Coord
}.

Record GameState := mkGameState {
  board : Board;
  you : Snake;
  turn : Z
}.

(** ** Helpers shared by safe.py, greedy.py and aggressive.py *)

(** The dict DIRECTIONS, in insertion order. *)
Definition DIRECTIONS : list (string * (Z * Z)) :=
  [("up", (0, 1)); ("down", (0, -1)); ("left", (-1, 0)); ("right", (1, 0))].

(** DIRECTIONS.values() *)
Definition deltas : list (Z * Z) := DIRECTIONS.*2.

Definition add (a : Coord) (b : Z * Z) : Coord := (a.1 + b.1, a.2 + b.2).

Definition in_bounds (pt : Coord) (w h : Z) : bool :=
  (0 <=? pt.1) && (pt.1 <? w) && (0 <=? pt.2) && (pt.2 <? h).

Definition manhattan (a b : Coord) : Z := Z.abs (a.1 - b.1) + Z.abs (a.2 - b.2).

(** board_occupied_cells in safe.py, all_body_cells in the other two. *)
Definition all_body_cells (gs : GameState) : gset Coord :=
  list_to_set (s ← snakes (board gs); snake_body s).

(** next_heads_of_opponents in safe.py, next_heads_set in the other two: the
    loop runs over every entry of the snake list. *)
Definition next_heads_set (gs : GameState) : gset Coord :=
  list_to_set
    (filter (λ k, in_bounds k (width (board gs)) (height (board gs)) = true)
            (s ← snakes (board gs); d ← deltas; [add (snake_head s) d])).

(** One pass of the inner for loop of flood_fill_size on the cell [cur]. *)
Definition ff_visit (blocked : gset Coord) (w h : Z) (cur : Coord)
    (st : gset Coord * list Coord) (d : Z * Z) : gset Coord * list Coord :=
  let k := add cur d in
  if in_bounds k w h && negb (bool_decide (k ∈ blocked))
     && negb (bool_decide (k ∈ st.1))
  then (st.1 ∪ {[k]}, st.2 ++ [k])
  else st.

(** The while loop of flood_fill_size.  [budget] is [limit - count]: the
    loop body runs while the queue is non-empty and the budget is positive. *)
Fixpoint ff_loop (budget : nat) (blocked : gset Coord) (w h : Z)
    (seen : gset Coord) (q : list Coord) (count : Z) : Z :=
  match budget, q with
  | S b, cur :: q' =>
      let st := fold_left (ff_visit blocked w h cur) deltas (seen, q') in
      ff_loop b blocked w h st.1 st.2 (count + 1)
  | _, _ => count
  end.

Definition flood_fill_size (start : Coord) (blocked : gset Coord)
    (w h limit : Z) : Z :=
  if bool_decide (start ∈ blocked) || negb (in_bounds start w h) then 0
  else ff_loop (Z.to_nat limit) blocked w h {[start]} [start] 0.

(** min(points, key=...) of a list: the first element with the least key. *)
Definition min_by {A} (key : A → Z) (l : list A) : option A :=
  match l with
  | [] => None
  | a :: l' =>
      Some (fold_left (λ best c, if key c <? key best then c else best) l' a)
  end.

(** min(..., default=d) and max(..., default=d) over a generator. *)
Definition min_default (l : list Z) (d : Z) : Z :=
  match l with [] => d | z :: l' => fold_left Z.min l' z end.

Definition max_default (l : list Z) (d : Z) : Z :=
  match l with [] => d | z :: l' => fold_left Z.max l' z end.

(** nearest_food in safe.py and greedy.py, nearest in aggressive.py. *)
Definition nearest (centre : Coord) (points : list Coord) : option Coord :=
  min_by (manhattan centre) points.

(** The dict is_move_safe after the neck check: every direction starts True
    and the neck comparisons clear entries. *)
Definition is_move_safe (my_head : Coord) (my_body : list Coord)
    : string → bool :=
  let s0 : string → bool := λ _, true in
  match my_body !! 1%nat with
  | Some neck =>
      let s1 := if neck.1 <? my_head.1 then <["left" := false]> s0 else s0 in
      let s2 := if my_head.1 <? neck.1 then <["right" := false]> s1 else s1 in
      let s3 := if neck.2 <? my_head.2 then <["down" := false]> s2 else s2 in
      if my_head.2 <? neck.2 then <["up" := false]> s3 else s3
  | None => s0
  end.

(** blocked: every body cell, with [tail] discarded. *)
Definition blocked_cells (gs : GameState) (tail : Coord) : gset Coord :=
  all_body_cells gs ∖ {[tail]}.

(** opponents = [s for s in board["snakes"] if s["id"] != you["id"]] *)
Definition opponents (gs : GameState) : list Snake :=
  filter (λ s, snake_id s ≠ snake_id (you gs)) (snakes (board gs)).

(** The candidate loop, the same in the three files. *)
Definition candidate_list (w h : Z) (my_head : Coord) (safe : string → bool)
    (blocked avoid : gset Coord) : list (string * Coord) :=
  omap (λ e : string * (Z * Z),
          let nxt := add my_head e.2 in
          if safe e.1 && in_bounds nxt w h
             && negb (bool_decide (nxt ∈ blocked))
             && negb (bool_decide (nxt ∈ avoid))
          then Some (e.1, nxt) else None)
       DIRECTIONS.

(** Comparison of (score, move) tuples, as Python compares tuples. *)
Definition tuple_lt (a b : Q * string) : bool :=
  match (a.1 ?= b.1)%Q with
  | Lt => true
  | Gt => false
  | Eq => String.ltb a.2 b.2
  end.

(** scored.sort(reverse=True): a stable sort into descending order. *)
Fixpoint insert_desc (x : Q * string) (l : list (Q * string))
    : list (Q * string) :=
  match l with
  | [] => [x]
  | y :: l' => if tuple_lt x y then y :: insert_desc x l' else x :: l
  end.

Definition sort_desc (l : list (Q * string)) : list (Q * string) :=
  foldr insert_desc [] l.

(** scored[0][1] after the sort. *)
Definition best_move (scored : list (Q * string)) : option string :=
  match sort_desc scored with
  | e :: _ => Some e.2
  | [] => None
  end.

(** ** examples/safe.py *)

Module Safe.

Definition board_occupied_cells := all_body_cells.
Definition next_heads_of_opponents := next_heads_set.
Definition nearest_food := nearest.

Definition largest_opp (gs : GameState) : Z :=
  fold_left (λ acc s, if bool_decide (snake_id s ≠ snake_id (you gs))
                      then Z.max acc (snake_length s) else acc)
            (snakes (board gs)) 0.

Definition avoid_head_cells (gs : GameState) : gset Coord :=
  if snake_length (you gs) <=? largest_opp gs
  then next_heads_of_opponents gs else ∅.

Definition candidates (gs : GameState) (my_tail : Coord)
    : list (string * Coord) :=
  candidate_list (width (board gs)) (height (board gs))
    (snake_head (you gs))
    (is_move_safe (snake_head (you gs)) (snake_body (you gs)))
    (blocked_cells gs my_tail) (avoid_head_cells gs).

Definition food_target (gs : GameState) : option Coord :=
  let foods := food (board gs) in
  if (snake_health (you gs) <=? 50) && (0 <? Z.of_nat (length foods))
  then nearest_food (snake_head (you gs)) foods else None.

Definition score (gs : GameState) (my_tail : Coord) (r : Q)
    (c : string * Coord) : Q :=
  let space := flood_fill_size c.2 (blocked_cells gs my_tail)
                 (width (board gs)) (height (board gs)) 96 in
  let toward :=
    match food_target gs with
    | Some t => manhattan (snake_head (you gs)) t - manhattan c.2 t
    | None => 0
    end in
  (inject_Z space * 1 + inject_Z toward * 3 + r * (1 # 100))%Q.

Definition move (gs : GameState) (rnd : nat → Q) : option string :=
  match last (snake_body (you gs)) with
  | None => None
  | Some my_tail =>
      match candidates gs my_tail with
      | [] => Some "down"
      | cs => best_move (imap (λ i c, (score gs my_tail (rnd i) c, c.1)) cs)
      end
  end.

End Safe.

(** ** examples/greedy.py *)

Module Greedy.

Definition SPACE_LIMIT : Z := 120.
Definition FOOD_WEIGHT : Q := 8.
Definition WINNABLE_FOOD_BONUS : Q := 10.
Definition SPACE_WEIGHT : Q := 8 # 10.
Definition HEAD_TIE_AVOID : bool := true.

Definition nearest_food := nearest.

(** One pass of the inner for loop of bfs_distance on [(cur, dist)]:
    [inl d] is the early return of [d], [inr] carries on with the updated
    seen set and queue. *)
Definition bfs_visit (target : Coord) (blocked : gset Coord) (w h : Z)
    (cur : Coord) (dist : Z)
    (st : Z + gset Coord * list (Coord * Z)) (d : Z * Z)
    : Z + gset Coord * list (Coord * Z) :=
  match st with
  | inl r => inl r
  | inr (seen, q) =>
      let k := add cur d in
      if negb (in_bounds k w h) then inr (seen, q)
      else if bool_decide (k ∈ blocked) || bool_decide (k ∈ seen)
      then inr (seen, q)
      else if (k.1 =? target.1) && (k.2 =? target.2) then inl (dist + 1)
      else inr (seen ∪ {[k]}, q ++ [(k, dist + 1)])
  end.

(** The while loop of bfs_distance; [budget] is [limit - steps]. *)
Fixpoint bfs_loop (budget : nat) (target : Coord) (blocked : gset Coord)
    (w h : Z) (seen : gset Coord) (q : list (Coord * Z)) : option Z :=
  match budget, q with
  | S b, (cur, dist) :: q' =>
      match fold_left (bfs_visit target blocked w h cur dist) deltas
                      (inr (seen, q')) with
      | inl r => Some r
      | inr (seen', q'') => bfs_loop b target blocked w h seen' q''
      end
  | _, _ => None
  end.

Definition bfs_distance (start target : Coord) (blocked : gset Coord)
    (w h limit : Z) : option Z :=
  if bool_decide (start ∈ blocked) || bool_decide (target ∈ blocked)
  then None
  else if bool_decide (start = target) then Some 0
  else bfs_loop (Z.to_nat limit) target blocked w h {[start]} [(start, 0)].

Definition largest_opp (gs : GameState) : Z :=
  max_default (snake_length <$> opponents gs) 0.

Definition opp_heads (gs : GameState) : list Coord :=
  snake_head <$> opponents gs.

Definition avoid_head (gs : GameState) : gset Coord :=
  if HEAD_TIE_AVOID && (snake_length (you gs) <=? largest_opp gs)
  then next_heads_set gs else ∅.

Definition candidates (gs : GameState) (tail : Coord)
    : list (string * Coord) :=
  candidate_list (width (board gs)) (height (board gs))
    (snake_head (you gs))
    (is_move_safe (snake_head (you gs)) (snake_body (you gs)))
    (blocked_cells gs tail) (avoid_head gs).

(** min((manhattan(oh, f) for oh in opp_heads), default=1_000_000) *)
Definition d_opp_min (heads : list Coord) (f : Coord) : Z :=
  min_default ((λ oh, manhattan oh f) <$> heads) 1000000.

(** The loop over the foods: the state is (best_winnable,
    best_winnable_dist), both None before the first winnable food. *)
Definition best_winnable (head : Coord) (heads foods : list Coord)
    : option (Coord * Z) :=
  fold_left
    (λ best f,
       let d_me := manhattan head f in
       if d_me <? d_opp_min heads f then
         match best with
         | None => Some (f, d_me)
         | Some (_, bd) => if d_me <? bd then Some (f, d_me) else best
         end
       else best)
    foods None.

(** The variable target after the selection block. *)
Definition select_target (head : Coord) (heads foods : list Coord)
    : option Coord :=
  match foods with
  | [] => None
  | _ =>
      match best_winnable head heads foods with
      | Some (f, _) => Some f
      | None => nearest_food head foods
      end
  end.

Definition score (gs : GameState) (tail : Coord) (r : Q)
    (c : string * Coord) : Q :=
  let w := width (board gs) in
  let h := height (board gs) in
  let head := snake_head (you gs) in
  let blocked := blocked_cells gs tail in
  let space := flood_fill_size c.2 blocked w h SPACE_LIMIT in
  let '(food_score, bonus) :=
    match select_target head (opp_heads gs) (food (board gs)) with
    | Some target =>
        let d_now := bfs_distance head target blocked w h SPACE_LIMIT in
        let d_next := bfs_distance c.2 target blocked w h SPACE_LIMIT in
        let food_score :=
          match d_now, d_next with
          | Some a, Some b => (inject_Z (a - b) * FOOD_WEIGHT)%Q
          | None, Some _ => ((15 # 10) * FOOD_WEIGHT)%Q
          | _, None => 0%Q
          end in
        let bonus :=
          if manhattan c.2 target <? d_opp_min (opp_heads gs) target
          then (0 + WINNABLE_FOOD_BONUS)%Q else 0%Q in
        (food_score, bonus)
    | None => (0%Q, 0%Q)
    end in
  let space_penalty :=
    if space <? 10 then (inject_Z (10 - space) * SPACE_WEIGHT)%Q
    else 0%Q in
  (food_score + bonus - space_penalty + r * (1 # 100))%Q.

Definition move (gs : GameState) (rnd : nat → Q) : option string :=
  match last (snake_body (you gs)) with
  | None => None
  | Some tail =>
      match candidates gs tail with
      | [] => Some "down"
      | cs => best_move (imap (λ i c, (score gs tail (rnd i) c, c.1)) cs)
      end
  end.

End Greedy.

(** ** examples/aggressive.py *)

Module Aggressive.

Definition HUNGER_THRESHOLD : Z := 35.
Definition AGGRESSION : Q := 125 # 100.
Definition TRAP_RADIUS : Z := 4.
Definition TRAP_SPACE_THRESH : Z := 10.
Definition SPACE_LIMIT : Z := 96.
Definition HEAD_BUFFER_IF_SMALLER : bool := true.

Definition largest_opp (gs : GameState) : Z :=
  max_default (snake_length <$> opponents gs) 0.

Definition opp_heads (gs : GameState) : list Coord :=
  snake_head <$> opponents gs.

Definition avoid_head_cells (gs : GameState) : gset Coord :=
  if HEAD_BUFFER_IF_SMALLER && (snake_length (you gs) <=? largest_opp gs)
  then next_heads_set gs else ∅.

Definition candidates (gs : GameState) (my_tail : Coord)
    : list (string * Coord) :=
  candidate_list (width (board gs)) (height (board gs))
    (snake_head (you gs))
    (is_move_safe (snake_head (you gs)) (snake_body (you gs)))
    (blocked_cells gs my_tail) (avoid_head_cells gs).

Definition food_target (gs : GameState) : option Coord :=
  let foods := food (board gs) in
  if (snake_health (you gs) <=? HUNGER_THRESHOLD)
     && (0 <? Z.of_nat (length foods))
  then nearest (snake_head (you gs)) foods else None.

Definition target_head (gs : GameState) : option Coord :=
  match opp_heads gs with
  | [] => None
  | hs => nearest (snake_head (you gs)) hs
  end.

Definition food_score (gs : GameState) (nxt : Coord) : Q :=
  match food_target gs with
  | Some t =>
      (inject_Z (manhattan (snake_head (you gs)) t - manhattan nxt t)
       * (25 # 10))%Q
  | None => 0%Q
  end.

(** The block under "if target_head:". *)
Definition head_attack (gs : GameState) (nxt : Coord) (attack : Q) : Q :=
  match target_head gs with
  | Some th =>
      let d_head_now := manhattan (snake_head (you gs)) th in
      let d_head_next := manhattan nxt th in
      let attack1 :=
        (attack + inject_Z (d_head_now - d_head_next) * (15 # 10)
                  * AGGRESSION)%Q in
      if d_head_next =? 1 then
        fold_left
          (λ a s, if bool_decide (snake_head s = th)
                     && (snake_length s <? snake_length (you gs))
                  then (a + 8 * AGGRESSION)%Q else a)
          (opponents gs) attack1
      else attack1
  | None => attack
  end.

(** min_space for one opponent head [oh]: the loop over the directions. *)
Definition min_space (sim_blocked : gset Coord) (w h : Z) (oh : Coord)
    : option Z :=
  fold_left
    (λ ms d,
       let cand := add oh d in
       if negb (in_bounds cand w h) then ms
       else if bool_decide (cand ∈ sim_blocked) then ms
       else
         let ssz := flood_fill_size cand sim_blocked w h SPACE_LIMIT in
         match ms with
         | None => Some ssz
         | Some m => if ssz <? m then Some ssz else ms
         end)
    deltas None.

(** The block under "if opponents:". *)
Definition trap_attack (gs : GameState) (my_tail nxt : Coord) (attack : Q)
    : Q :=
  match opponents gs with
  | [] => attack
  | opps =>
      let sim_blocked := blocked_cells gs my_tail ∪ {[nxt]} in
      fold_left
        (λ a opp,
           let oh := snake_head opp in
           if manhattan oh nxt <=? TRAP_RADIUS then
             match min_space sim_blocked (width (board gs))
                             (height (board gs)) oh with
             | Some m =>
                 if m <? TRAP_SPACE_THRESH then
                   let size_diff :=
                     snake_length (you gs) - snake_length opp in
                   (a + (6 + inject_Z (Z.max 0 size_diff) * (5 # 10))
                        * AGGRESSION)%Q
                 else a
             | None => a
             end
           else a)
        opps attack
  end.

Definition center_bias (gs : GameState) (nxt : Coord) : Q :=
  let my_head := snake_head (you gs) in
  let cx := (inject_Z (width (board gs) - 1) / 2)%Q in
  let cy := (inject_Z (height (board gs) - 1) / 2)%Q in
  let dist_center_now :=
    (Qabs (inject_Z my_head.1 - cx) + Qabs (inject_Z my_head.2 - cy))%Q in
  let dist_center_next :=
    (Qabs (inject_Z nxt.1 - cx) + Qabs (inject_Z nxt.2 - cy))%Q in
  ((dist_center_now - dist_center_next) * (2 # 10))%Q.

Definition score (gs : GameState) (my_tail : Coord) (r : Q)
    (c : string * Coord) : Q :=
  let space_score :=
    flood_fill_size c.2 (blocked_cells gs my_tail)
      (width (board gs)) (height (board gs)) SPACE_LIMIT in
  let attack_score :=
    trap_attack gs my_tail c.2 (head_attack gs c.2 0%Q) in
  (inject_Z space_score * 1 + food_score gs c.2 + attack_score
   + center_bias gs c.2 + r * (1 # 100))%Q.

Definition move (gs : GameState) (rnd : nat → Q) : option string :=
  match last (snake_body (you gs)) with
  | None => None
  | Some my_tail =>
      match candidates gs my_tail with
      | [] => Some "down"
      | cs =>
          best_move (imap (λ i c, (score gs my_tail (rnd i) c, c.1)) cs)
      end
  end.

End Aggressive.

(** ** main.py *)

Module Main.

(** The list the inner loop of dijkstra and the fallback loop of move
    iterate over. *)
Definition STEPS : list (string * (Z * Z)) :=
  [("up", (0, 1)); ("down", (0, -1)); ("left", (-1, 0)); ("right", (1, 0))].

(** Python's order on the heap entries (dist, (x, y)). *)
Definition entry_lt (a b : Z * Coord) : bool :=
  (a.1 <? b.1)
  || ((a.1 =? b.1)
      && ((a.2.1 <? b.2.1) || ((a.2.1 =? b.2.1) && (a.2.2 <? b.2.2)))).

Fixpoint remove_first (e : Z * Coord) (q : list (Z * Coord))
    : list (Z * Coord) :=
  match q with
  | [] => []
  | x :: q' => if bool_decide (x = e) then q' else x :: remove_first e q'
  end.

(** The heap is embedded as the bag of its entries: heappush adds an
    entry, heappop takes the least one out. *)
Definition heappush (q : list (Z * Coord)) (e : Z * Coord)
    : list (Z * Coord) := e :: q.

Definition heappop (q : list (Z * Coord))
    : option ((Z * Coord) * list (Z * Coord)) :=
  match q with
  | [] => None
  | e :: l =>
      let m := fold_left (λ m x, if entry_lt x m then x else m) l e in
      Some (m, remove_first m q)
  end.

(** The loop state of dijkstra: distances, queue, came_from. *)
Abbreviation dstate :=
  (gmap Coord Z * list (Z * Coord) * gmap Coord Coord)%type (only parsing).

(** One pass of the inner for loop of dijkstra. *)
Definition relax (w h : Z) (dangers : gset Coord) (current_dist : Z)
    (current : Coord) (st : dstate) (e : string * (Z * Z)) : dstate :=
  let '(distances, queue, came_from) := st in
  let neighbor := add current e.2 in
  if in_bounds neighbor w h && negb (bool_decide (neighbor ∈ dangers)) then
    let new_dist := current_dist + 1 in
    if match distances !! neighbor with
       | None => true
       | Some dn => new_dist <? dn
       end
    then (<[neighbor := new_dist]> distances,
          heappush queue (new_dist, neighbor),
          <[neighbor := current]> came_from)
    else st
  else st.

(** The loop "while current != start" that collects the path, before the
    reverse.  A missing came_from key is [None]. *)
Fixpoint build_path (fuel : nat) (came_from : gmap Coord Coord)
    (start current : Coord) (path : list Coord) : option (list Coord) :=
  if bool_decide (current = start) then Some path
  else
    match fuel with
    | O => None
    | S f =>
        match came_from !! current with
        | None => None
        | Some p => build_path f came_from start p (path ++ [current])
        end
    end.

(** The while loop of dijkstra; [None] when the fuel runs out or a
    came_from lookup fails. *)
Fixpoint dijkstra_loop (fuel pfuel : nat) (w h : Z) (start : Coord)
    (dangers : gset Coord) (food : list Coord) (st : dstate)
    : option (list Coord) :=
  match fuel with
  | O => None
  | S f =>
      match heappop st.1.2 with
      | None => Some []
      | Some ((current_dist, current), queue') =>
          if bool_decide (current ∈ food) then
            reverse <$> build_path pfuel st.2 start current []
          else
            dijkstra_loop f pfuel w h start dangers food
              (fold_left (relax w h dangers current_dist current) STEPS
                         (st.1.1, queue', st.2))
      end
  end.

(** Every in-bounds cell of the board. *)
Definition board_cells (w h : Z) : gset Coord :=
  list_to_set (x ← seqZ 0 w; y ← seqZ 0 h; [(x, y)]).

Definition dijkstra_fuel (w h : Z) : nat :=
  (2 * size (board_cells w h) + 2)%nat.

Definition dijkstra (board_width board_height : Z) (start : Coord)
    (dangers : gset Coord) (food : list Coord) : option (list Coord) :=
  let n := dijkstra_fuel board_width board_height in
  dijkstra_loop n n board_width board_height start dangers food
    ({[start := 0]}, [(0, start)], ∅).

Definition move_map : gmap (Z * Z) string :=
  list_to_map [((0, 1), "up"); ((0, -1), "down");
               ((-1, 0), "left"); ((1, 0), "right")].

Definition safe_moves (w h : Z) (head_pos : Coord) (dangers : gset Coord)
    : list string :=
  omap (λ e : string * (Z * Z),
          let n := add head_pos e.2 in
          if in_bounds n w h && negb (bool_decide (n ∈ dangers))
          then Some e.1 else None)
       STEPS.

Definition move (gs : GameState) : option string :=
  match snake_body (you gs) !! 0%nat with
  | None => None
  | Some head_pos =>
      let dangers := all_body_cells gs in
      let w := width (board gs) in
      let h := height (board gs) in
      match dijkstra w h head_pos dangers (food (board gs)) with
      | None => None
      | Some (next_pos :: _) =>
          move_map !! (next_pos.1 - head_pos.1, next_pos.2 - head_pos.2)
      | Some [] =>
          match safe_moves w h head_pos dangers with
          | m :: _ => Some m
          | [] => Some "up"
          end
      end
  end.

End Main.

(** ** Concrete snapshots used below *)

Definition lone (w h : Z) (body : list Coord) (health : Z) (fd : list Coord)
    : GameState :=
  let me := mkSnake "me" (default (0, 0) (body !! 0%nat)) body
                    (Z.of_nat (length body)) health in
  mkGameState (mkBoard w h [me] fd) me 0.

Definition duel (w h : Z) (body obody : list Coord) (health : Z)
    (fd : list Coord) : GameState :=
  let me := mkSnake "me" (default (0, 0) (body !! 0%nat)) body
                    (Z.of_nat (length body)) health in
  let opp := mkSnake "opp" (default (0, 0) (obody !! 0%nat)) obody
                     (Z.of_nat (length obody)) 100 in
  mkGameState (mkBoard w h [me; opp] fd) me 0.

Definition no_jitter : nat → Q := λ _, 0%Q.


(** Two snakes of equal length on an 11x11 board, far from each other and
    with free cells all around the planner's head. *)
Definition gs_free_board : GameState :=
  duel 11 11 [(5, 5); (5, 4); (5, 3)] [(0, 0); (0, 1); (0, 2)] 100 [].

(** A snake that has coiled itself into the corner of an 11x11 board: every
    cell next to its head (0,1) is a wall or its own body, and its neck
    (0,0) lies below the head. *)
Definition gs_trapped : GameState :=
  lone 11 11 [(0, 1); (0, 0); (1, 0); (1, 1); (1, 2); (0, 2); (0, 3)] 100 [].

(** A snake whose tail cell lies next to its head, on a 4x2 board: the free
    cell (0,0) is to the left of the head (1,0), the tail (2,0) to the
    right. *)
Definition gs_tail : GameState :=
  lone 4 2 [(1, 0); (1, 1); (2, 1); (2, 0)] 100 [].

(** ** Specification-side definitions *)

(** A cell the flood fill may enter. *)
Definition free_cell (blocked : gset Coord) (w h : Z) (c : Coord) : Prop :=
  in_bounds c w h = true ∧ c ∉ blocked.

(** 4-connected reachability from [start] over free cells. *)
Inductive reachable (blocked : gset Coord) (w h : Z) (start : Coord)
    : Coord → Prop :=
  | reach_start :
      free_cell blocked w h start → reachable blocked w h start start
  | reach_step c d :
      reachable blocked w h start c → d ∈ deltas →
      free_cell blocked w h (add c d) →
      reachable blocked w h start (add c d).

(** Invariant of the while loop of flood_fill_size; [popped] is the set of
    cells already counted. *)
Record ff_inv (blocked : gset Coord) (w h : Z) (start : Coord)
    (popped seen : gset Coord) (q : list Coord) : Prop := {
  ffi_nodup : NoDup q;
  ffi_seen : ∀ c, c ∈ seen ↔ c ∈ popped ∨ c ∈ q;
  ffi_disj : ∀ c, c ∈ popped → c ∉ q;
  ffi_reach : ∀ c, c ∈ seen → reachable blocked w h start c;
  ffi_closed : ∀ c d, c ∈ popped → d ∈ deltas →
      free_cell blocked w h (add c d) → add c d ∈ seen;
  ffi_start : start ∈ seen
}.

(** The first cell of a path returned by dijkstra, if any, is one step away
    from [start], in bounds and not a danger cell. *)
Definition first_step_ok (w h : Z) (start : Coord) (dangers : gset Coord)
    (path : list Coord) : Prop :=
  match path with
  | [] => True
  | p :: _ =>
      ∃ e, e ∈ Main.STEPS ∧ p = add start e.2
           ∧ in_bounds p w h = true ∧ p ∉ dangers
  end.

(** Invariant of the while loop of dijkstra.  [lo] bounds the queued
    distances from below and [hi] every recorded distance from above. *)
Record dj_inv (w h : Z) (start : Coord) (dangers : gset Coord) (lo hi : Z)
    (D : gmap Coord Z) (Qu : list (Z * Coord)) (CF : gmap Coord Coord)
    : Prop := {
  dji_start : D !! start = Some 0;
  dji_queue : ∀ d c, (d, c) ∈ Qu → lo ≤ d ∧ D !! c = Some d;
  dji_range : ∀ c d, D !! c = Some d → 0 ≤ d ∧ d ≤ lo + 1 ∧ d ≤ hi;
  dji_parent : ∀ c d, D !! c = Some d →
      (c = start ∧ d = 0)
      ∨ ∃ p e, CF !! c = Some p ∧ e ∈ Main.STEPS ∧ c = add p e.2
               ∧ D !! p = Some (d - 1)
               ∧ in_bounds c w h = true ∧ c ∉ dangers
}.

(** The measure that decreases along the loop of dijkstra. *)
Definition dj_measure (w h : Z) (D : gmap Coord Z) (Qu : list (Z * Coord))
    : nat :=
  (2 * size (Main.board_cells w h ∖ dom D) + length Qu)%nat.

(** A food cell is winnable when the planner is strictly closer to it, by
    Manhattan distance, than every opposing head. *)
Definition winnable (head : Coord) (heads : list Coord) (f : Coord) : Prop :=
  ∀ oh, oh ∈ heads → manhattan head f < manhattan oh f.

(** The draws of random.random() lie in [0, 1). *)
Definition valid_draws (rnd : nat → Q) : Prop :=
  ∀ i, (0 <= rnd i)%Q ∧ (rnd i < 1)%Q.

(** The jitter-free scores of the three example planners are multiples of
    1/40; the jitter term is below 1/100. *)
Definition on_grid (q : Q) : Prop := ∃ z : Z, (q == z # 40)%Q.


(** Invariant of the while loop of bfs_distance on a board without blocked
    cells.  [P] is the set of cells already popped, the queue is [q1 ++ q2]
    where [q1] holds the cells at distance [L] and [q2] those at distance
    [L + 1]. *)
Record bfs_inv (w h : Z) (start target : Coord) (L : Z)
    (P seen : gset Coord) (q1 q2 : list (Coord * Z)) : Prop := {
  bi_nodup : NoDup ((q1 ++ q2).*1);
  bi_seen : ∀ c, c ∈ seen ↔ c ∈ P ∨ c ∈ (q1 ++ q2).*1;
  bi_disj : ∀ c, c ∈ P → c ∉ (q1 ++ q2).*1;
  bi_q1 : ∀ c d, (c, d) ∈ q1 → d = L ∧ manhattan start c = L;
  bi_q2 : ∀ c d, (c, d) ∈ q2 → d = L + 1 ∧ manhattan start c = L + 1;
  bi_ok : ∀ c, c ∈ seen → in_bounds c w h = true ∧ c ≠ target;
  bi_popped : ∀ c, c ∈ P → manhattan start c ≤ L;
  bi_closed : ∀ c d, c ∈ P → d ∈ deltas →
      in_bounds (add c d) w h = true → add c d ∈ seen;
  bi_below : ∀ c, in_bounds c w h = true → manhattan start c ≤ L → c ∈ seen;
  bi_L : 0 ≤ L
}.

(** The cells of the board strictly closer to [start] than [target] is. *)
Definition closer_cells (w h : Z) (start target : Coord) : gset Coord :=
  filter (λ c, manhattan start c < manhattan start target)
         (Main.board_cells w h).

(** ** Further functions of the sources *)

(** move_towards in safe.py, move_preferences_towards in aggressive.py; the
    destination is None or a coordinate. *)
Definition move_towards (src : Coord) (dst : option Coord) : list string :=
  match dst with
  | None => []
  | Some dst =>
      let dx := dst.1 - src.1 in
      let dy := dst.2 - src.2 in
      let along_x := (if 0 <? dx then ["right"] else [])
                     ++ (if dx <? 0 then ["left"] else []) in
      let along_y := (if 0 <? dy then ["up"] else [])
                     ++ (if dy <? 0 then ["down"] else []) in
      if Z.abs dy <=? Z.abs dx then along_x ++ along_y
      else along_y ++ along_x
  end.

(** The snapshot [gs] with its food list replaced by [fd]. *)
Definition with_food (gs : GameState) (fd : list Coord) : GameState :=
  mkGameState
    (mkBoard (width (board gs)) (height (board gs)) (snakes (board gs)) fd)
    (you gs) (turn gs).

(** A walk of [n] steps from [start] whose cells after [start] are in
    bounds and not blocked. *)
Inductive walk (blocked : gset Coord) (w h : Z) (start : Coord)
    : Coord → nat → Prop :=
  | walk_here : walk blocked w h start start 0
  | walk_step c d n :
      walk blocked w h start c n → d ∈ deltas →
      free_cell blocked w h (add c d) →
      walk blocked w h start (add c d) (S n).

(** [path] continues from [prev] by single steps over in-bounds cells that
    are not danger cells. *)
Fixpoint is_path (dangers : gset Coord) (w h : Z) (prev : Coord)
    (path : list Coord) : Prop :=
  match path with
  | [] => True
  | p :: rest =>
      (∃ d, d ∈ deltas ∧ p = add prev d) ∧ free_cell dangers w h p
      ∧ is_path dangers w h p rest
  end.

(** The cell a path from [start] ends in. *)
Definition path_end (start : Coord) (path : list Coord) : Coord :=
  default start (last path).

(** Second invariant of the while loop of dijkstra: the recorded distances
    are lengths of shortest walks.  [P] is the set of cells popped so far,
    [C] the popped cells whose neighbours have all been relaxed. *)
Record dj_opt (w h : Z) (start : Coord) (dangers : gset Coord)
    (food : list Coord) (lo : Z) (P C : gset Coord)
    (D : gmap Coord Z) (Qu : list (Z * Coord)) : Prop := {
  o_nodup : NoDup Qu;
  o_dom : ∀ c, is_Some (D !! c) ↔ c ∈ P ∨ ∃ d, (d, c) ∈ Qu;
  o_disj : ∀ c d, c ∈ P → (d, c) ∉ Qu;
  o_walk : ∀ c d, D !! c = Some d →
      ∃ n, d = Z.of_nat n ∧ walk dangers w h start c n;
  o_lower : ∀ c d n, D !! c = Some d → walk dangers w h start c n →
      d ≤ Z.of_nat n;
  o_below : ∀ c n, walk dangers w h start c n → Z.of_nat n ≤ lo →
      is_Some (D !! c);
  o_closed : ∀ p d, p ∈ C → d ∈ deltas →
      free_cell dangers w h (add p d) → is_Some (D !! add p d);
  o_nofood : ∀ c, c ∈ P → c ∉ food;
  o_Plo : ∀ c d, c ∈ P → D !! c = Some d → d ≤ lo
}.

(** What dijkstra returns: the empty path when the start is a food cell or
    no food cell can be reached, otherwise a shortest walk to a food
    cell. *)
Definition shortest_food_path (w h : Z) (start : Coord)
    (dangers : gset Coord) (food : list Coord) (path : list Coord) : Prop :=
  (path = []
   ∧ (start ∈ food ∨ ∀ f n, f ∈ food → ¬ walk dangers w h start f n))
  ∨ (path ≠ [] ∧ (start ∉ food)
     ∧ is_path dangers w h start path
     ∧ path_end start path ∈ food
     ∧ ∀ f n, f ∈ food → walk dangers w h start f n →
         (length path ≤ n)%nat).


(** Invariant of the while loop of bfs_distance on any board.  [P] is the
    set of cells already popped, the queue is [q1 ++ q2] where [q1] holds
    cells whose shortest walk from [start] has [L] steps and [q2] cells
    whose shortest walk has [L + 1] steps. *)
Record bfs_opt (blocked : gset Coord) (w h : Z) (start target : Coord)
    (L : nat) (P seen : gset Coord) (q1 q2 : list (Coord * Z)) : Prop := {
  bo_nodup : NoDup ((q1 ++ q2).*1);
  bo_seen : ∀ c, c ∈ seen ↔ c ∈ P ∨ c ∈ (q1 ++ q2).*1;
  bo_disj : ∀ c, c ∈ P → c ∉ (q1 ++ q2).*1;
  bo_q1 : ∀ c d, (c, d) ∈ q1 →
      d = Z.of_nat L ∧ walk blocked w h start c L
      ∧ ∀ m, walk blocked w h start c m → (L ≤ m)%nat;
  bo_q2 : ∀ c d, (c, d) ∈ q2 →
      d = Z.of_nat (S L) ∧ walk blocked w h start c (S L)
      ∧ ∀ m, walk blocked w h start c m → (S L ≤ m)%nat;
  bo_ok : ∀ c, c ∈ seen →
      c ≠ target ∧ (c = start ∨ free_cell blocked w h c);
  bo_closed : ∀ c d, c ∈ P → d ∈ deltas →
      free_cell blocked w h (add c d) → add c d ∈ seen;
  bo_below : ∀ c m, walk blocked w h start c m → (m ≤ L)%nat → c ∈ seen
}.

(** The cells bfs_distance can ever pop: the start and the in-bounds cells
    that are not blocked. *)
Definition bfs_cells (blocked : gset Coord) (w h : Z) (start : Coord)
    : gset Coord :=
  {[start]} ∪ (Main.board_cells w h ∖ blocked).

(** ** Tactics *)

(** A closed rational that is a multiple of 1/40. *)
Ltac grid_const :=
  match goal with
  | |- on_grid ?q =>
      let z := eval vm_compute in (Qnum q * 40 / Z.pos (Qden q)) in
      exists z; vm_compute; reflexivity
  end.

(** ** Flood fill *)

Lemma in_bounds_spec (c : Coord) (w h : Z) :
  in_bounds c w h = true ↔ 0 ≤ c.1 < w ∧ 0 ≤ c.2 < h.
Proof. unfold in_bounds. rewrite !andb_true_iff. lia. Qed.

Lemma in_bounds_board_cells (c : Coord) (w h : Z) :
  in_bounds c w h = true ↔ c ∈ Main.board_cells w h.
Proof.
  rewrite in_bounds_spec. unfold Main.board_cells.
  rewrite elem_of_list_to_set, list_elem_of_bind.
  destruct c as [cx cy]; simpl. split.
  - intros [Hx Hy]. exists cx. split.
    + apply list_elem_of_bind. exists cy. split; [set_solver|].
      apply elem_of_seqZ. lia.
    + apply elem_of_seqZ. lia.
  - intros (x0 & Hin & Hx). apply list_elem_of_bind in Hin as (y0 & Hin & Hy).
    apply elem_of_seqZ in Hx, Hy. apply list_elem_of_singleton in Hin.
    inversion Hin; subst. lia.
Qed.

Lemma free_cell_dec (blocked : gset Coord) (w h : Z) (c : Coord) :
  in_bounds c w h && negb (bool_decide (c ∈ blocked)) = true
  ↔ free_cell blocked w h c.
Proof.
  unfold free_cell. rewrite andb_true_iff, negb_true_iff, bool_decide_eq_false.
  done.
Qed.

Lemma ff_visit_fold (blocked : gset Coord) (w h : Z) (cur : Coord)
    (ds : list (Z * Z)) :
  ∀ (seen : gset Coord) (q : list Coord),
    let st := fold_left (ff_visit blocked w h cur) ds (seen, q) in
    (∀ c, c ∈ st.1 ↔
          c ∈ seen ∨ ∃ d, d ∈ ds ∧ c = add cur d ∧ free_cell blocked w h c)
    ∧ ∃ new, st.2 = q ++ new ∧ NoDup new
             ∧ ∀ c, c ∈ new ↔ c ∈ st.1 ∧ c ∉ seen.
Proof.
  induction ds as [|d ds IH]; intros seen q; simpl.
  - split; [set_solver|]. exists []. rewrite app_nil_r.
    split; [done|]. split; [constructor|set_solver].
  - unfold ff_visit at 2 4 6; simpl.
    destruct (in_bounds (add cur d) w h
              && negb (bool_decide (add cur d ∈ blocked))) eqn:Hfree; simpl.
    + apply free_cell_dec in Hfree.
      destruct (bool_decide (add cur d ∈ seen)) eqn:Hseen; simpl.
      * apply bool_decide_eq_true in Hseen.
        destruct (IH seen q) as [H1 H2]. split; [|done].
        intros c. rewrite H1. set_solver.
      * apply bool_decide_eq_false in Hseen.
        destruct (IH (seen ∪ {[add cur d]}) (q ++ [add cur d]))
          as [H1 (new & Hq & Hnd & Hnew)].
        split.
        -- intros c. rewrite H1. set_solver.
        -- exists (add cur d :: new). rewrite Hq, <- app_assoc. simpl.
           split; [done|]. split.
           ++ constructor; [|done]. rewrite Hnew. set_solver.
           ++ intros c. rewrite elem_of_cons, Hnew, !H1.
              destruct (decide (c = add cur d)); set_solver.
    + destruct (IH seen q) as [H1 H2]. split; [|done].
      intros c. rewrite H1. split; [set_solver|].
      intros [?|(d' & Hd' & -> & Hf)]; [by left|].
      apply elem_of_cons in Hd' as [->|?]; [|set_solver].
      apply free_cell_dec in Hf. congruence.
Qed.

Lemma ff_inv_init (blocked : gset Coord) (w h : Z) (start : Coord) :
  free_cell blocked w h start →
  ff_inv blocked w h start ∅ {[start]} [start].
Proof.
  intros Hfree. split.
  - apply NoDup_singleton.
  - set_solver.
  - set_solver.
  - intros c Hc. apply elem_of_singleton in Hc as ->. by constructor.
  - set_solver.
  - set_solver.
Qed.

Lemma ff_inv_step (blocked : gset Coord) (w h : Z) (start cur : Coord)
    (popped seen : gset Coord) (q : list Coord) :
  ff_inv blocked w h start popped seen (cur :: q) →
  let st := fold_left (ff_visit blocked w h cur) deltas (seen, q) in
  ff_inv blocked w h start (popped ∪ {[cur]}) st.1 st.2 ∧ cur ∉ popped.
Proof.
  intros [Hnd Hseen Hdisj Hreach Hclosed Hstart] st.
  destruct (ff_visit_fold blocked w h cur deltas seen q)
    as [H1 (new & Hq & Hndn & Hnew)].
  fold st in H1, Hq, Hnew.
  apply NoDup_cons in Hnd as [Hcur Hndq].
  assert (Hcs : cur ∈ seen) by (apply Hseen; set_solver).
  split; [split|].
  - rewrite Hq. apply NoDup_app. split; [done|]. split; [|done].
    intros c Hc Hc'. apply Hnew in Hc' as [_ Hc']. apply Hc', Hseen.
    set_solver.
  - intros c. rewrite Hq, elem_of_app, Hnew, H1, elem_of_union, Hseen.
    rewrite elem_of_singleton, elem_of_cons.
    destruct (decide (c ∈ popped)); [tauto|].
    destruct (decide (c = cur)); [tauto|].
    destruct (decide (c ∈ q)); [tauto|].
    tauto.
  - intros c Hc. rewrite Hq, elem_of_app, Hnew, Hseen.
    apply elem_of_union in Hc as [Hc| ->%elem_of_singleton].
    + specialize (Hdisj c Hc). set_solver.
    + set_solver.
  - intros c Hc. apply H1 in Hc as [Hc|(d & Hd & -> & Hf)]; [by apply Hreach|].
    apply reach_step; [|done..]. by apply Hreach.
  - intros c d Hc Hd Hf. apply H1.
    apply elem_of_union in Hc as [Hc| ->%elem_of_singleton].
    + left. by apply (Hclosed c d).
    + right. by exists d.
  - apply H1. by left.
  - intros Hp. apply (Hdisj cur Hp). set_solver.
Qed.

Lemma ff_loop_inv (blocked : gset Coord) (w h : Z) (start : Coord)
    (budget : nat) :
  ∀ (popped seen : gset Coord) (q : list Coord) (count : Z),
    ff_inv blocked w h start popped seen q →
    count = Z.of_nat (size popped) →
    ∃ popped' seen' q',
      ff_inv blocked w h start popped' seen' q'
      ∧ ff_loop budget blocked w h seen q count = Z.of_nat (size popped')
      ∧ (size popped' ≤ size popped + budget)%nat
      ∧ (q' = [] ∨ size popped' = (size popped + budget)%nat).
Proof.
  induction budget as [|b IH]; intros popped seen q count Hinv Hcount.
  - exists popped, seen, q. simpl. split; [done|]. split; [done|].
    split; [lia|right; lia].
  - destruct q as [|cur q].
    + exists popped, seen, []. simpl. split; [done|]. split; [done|].
      split; [lia|by left].
    + cbn [ff_loop]. destruct (ff_inv_step _ _ _ _ _ _ _ _ Hinv) as [Hinv' Hcur].
      assert (Hsz : size (popped ∪ {[cur]}) = S (size popped)).
      { rewrite size_union by set_solver. rewrite size_singleton. lia. }
      destruct (IH _ _ _ (count + 1) Hinv') as (p' & s' & q' & Hi & Hr & Hle & Hd).
      { rewrite Hsz. lia. }
      exists p', s', q'. rewrite Hr. split; [done|]. split; [done|].
      split; [lia|]. destruct Hd as [?|Hd]; [by left|right; lia].
Qed.

Lemma reachable_free (blocked : gset Coord) (w h : Z) (start c : Coord) :
  reachable blocked w h start c →
  free_cell blocked w h start ∧ free_cell blocked w h c.
Proof. induction 1; naive_solver. Qed.

(** When the queue is exhausted the counted cells are exactly the reachable
    ones. *)
Lemma ff_inv_done (blocked : gset Coord) (w h : Z) (start : Coord)
    (popped seen : gset Coord) :
  ff_inv blocked w h start popped seen [] →
  ∀ c, c ∈ popped ↔ reachable blocked w h start c.
Proof.
  intros [Hnd Hseen Hdisj Hreach Hclosed Hstart] c.
  assert (Heq : ∀ c, c ∈ seen ↔ c ∈ popped) by set_solver.
  split.
  - intros Hc. apply Hreach. by apply Heq.
  - induction 1 as [|c d Hr IHr Hd Hf].
    + by apply Heq.
    + apply Heq. by apply (Hclosed c d).
Qed.

Lemma ff_inv_popped_sub (blocked : gset Coord) (w h : Z) (start : Coord)
    (popped seen : gset Coord) (q : list Coord) :
  ff_inv blocked w h start popped seen q →
  ∀ c, c ∈ popped → reachable blocked w h start c.
Proof. intros [] c Hc. apply ffi_reach0. set_solver. Qed.

(** The reachable cells form a finite set. *)
Lemma reachable_set_exists (blocked : gset Coord) (w h : Z) (start : Coord) :
  ∃ R : gset Coord, ∀ c, c ∈ R ↔ reachable blocked w h start c.
Proof.
  destruct (decide (free_cell blocked w h start)) as [Hfree|Hnfree].
  - destruct (ff_loop_inv blocked w h start (S (size (Main.board_cells w h)))
                ∅ {[start]} [start] 0 (ff_inv_init _ _ _ _ Hfree))
      as (p & s & q & Hinv & _ & _ & Hd); [by rewrite size_empty|].
    destruct Hd as [->|Hsz].
    + exists p. by apply (ff_inv_done _ _ _ _ _ _ Hinv).
    + exfalso. rewrite size_empty in Hsz.
      assert (Hsub : p ⊆ Main.board_cells w h).
      { intros c Hc. apply in_bounds_board_cells.
        apply (ff_inv_popped_sub _ _ _ _ _ _ _ Hinv), reachable_free in Hc.
        apply Hc. }
      apply subseteq_size in Hsub. lia.
  - exists ∅. intros c. split; [set_solver|].
    intros Hr. apply reachable_free in Hr. tauto.
Qed.

Lemma flood_fill_size_blocked (start : Coord) (blocked : gset Coord)
    (w h limit : Z) :
  start ∈ blocked ∨ in_bounds start w h = false →
  flood_fill_size start blocked w h limit = 0.
Proof.
  intros H. unfold flood_fill_size.
  destruct H as [H|H].
  - by rewrite (bool_decide_eq_true_2 _ H).
  - rewrite H. simpl. by rewrite orb_true_r.
Qed.

Lemma flood_fill_size_count (start : Coord) (blocked : gset Coord)
    (w h limit : Z) (R : gset Coord) :
  0 ≤ limit →
  (∀ c, c ∈ R ↔ reachable blocked w h start c) →
  flood_fill_size start blocked w h limit = Z.min limit (Z.of_nat (size R)).
Proof.
  intros Hlim HR.
  destruct (decide (free_cell blocked w h start)) as [Hfree|Hnfree].
  - unfold flood_fill_size. destruct Hfree as [Hb Hnb].
    rewrite (bool_decide_eq_false_2 _ Hnb), Hb. simpl.
    destruct (ff_loop_inv blocked w h start (Z.to_nat limit)
                ∅ {[start]} [start] 0
                (ff_inv_init _ _ _ _ (conj Hb Hnb)))
      as (p & s & q & Hinv & Hr & Hle & Hd); [by rewrite size_empty|].
    rewrite Hr. rewrite size_empty in Hle, Hd.
    assert (Hsub : p ⊆ R).
    { intros c Hc. apply HR. by apply (ff_inv_popped_sub _ _ _ _ _ _ _ Hinv). }
    pose proof (subseteq_size _ _ Hsub) as Hsz.
    destruct Hd as [->|Heq].
    + assert (p = R) as ->; [|lia].
      apply set_eq. intros c. by rewrite HR, (ff_inv_done _ _ _ _ _ _ Hinv).
    + lia.
  - assert (R = ∅) as ->.
    { apply set_eq. intros c. rewrite HR. split; [|set_solver].
      intros Hr. apply reachable_free in Hr. tauto. }
    rewrite size_empty, flood_fill_size_blocked; [lia|].
    unfold free_cell in Hnfree.
    destruct (in_bounds start w h); [left|by right].
    destruct (decide (start ∈ blocked)); [done|]. exfalso. by apply Hnfree.
Qed.

(** C5. flood_fill_size returns the minimum of the cap and the number of
    cells reachable from the start over in-bounds non-blocked cells, for
    every non-negative cap (the reachable cells being a set, the count does
    not depend on the order of the traversal); it returns 0 when the start
    cell is blocked or out of bounds; on the empty 5x5 board from the centre
    it returns 25 with the default cap of each of the three files. *)
Theorem flood_fill_size_spec (start : Coord) (blocked : gset Coord)
    (w h limit : Z) :
  0 ≤ limit →
  (∃ R : gset Coord,
      (∀ c, c ∈ R ↔ reachable blocked w h start c)
      ∧ flood_fill_size start blocked w h limit
        = Z.min limit (Z.of_nat (size R)))
  ∧ (start ∈ blocked ∨ in_bounds start w h = false →
     flood_fill_size start blocked w h limit = 0)
  ∧ flood_fill_size (2, 2) ∅ 5 5 64 = 25
  ∧ flood_fill_size (2, 2) ∅ 5 5 Greedy.SPACE_LIMIT = 25
  ∧ flood_fill_size (2, 2) ∅ 5 5 Aggressive.SPACE_LIMIT = 25.
Proof.
  intros Hlim. split; [|split; [|by vm_compute]].
  - destruct (reachable_set_exists blocked w h start) as [R HR].
    exists R. split; [done|]. by apply flood_fill_size_count.
  - apply flood_fill_size_blocked.
Qed.

Lemma flood_fill_size_spec_witness :
  (∃ R : gset Coord,
      (∀ c, c ∈ R ↔ reachable (list_to_set [(1, 2); (2, 1)]) 5 5 (2, 2) c)
      ∧ flood_fill_size (2, 2) (list_to_set [(1, 2); (2, 1)]) 5 5 3
        = Z.min 3 (Z.of_nat (size R)))
  ∧ (((2, 2) : Coord) ∈ (list_to_set [(1, 2); (2, 1)] : gset Coord)
     ∨ in_bounds (2, 2) 5 5 = false →
     flood_fill_size (2, 2) (list_to_set [(1, 2); (2, 1)]) 5 5 3 = 0)
  ∧ flood_fill_size (2, 2) ∅ 5 5 64 = 25
  ∧ flood_fill_size (2, 2) ∅ 5 5 Greedy.SPACE_LIMIT = 25
  ∧ flood_fill_size (2, 2) ∅ 5 5 Aggressive.SPACE_LIMIT = 25.
Proof.
  apply (flood_fill_size_spec (2, 2) (list_to_set [(1, 2); (2, 1)]) 5 5 3).
  lia.
Defined.

(** ** The safety filter *)

Lemma candidate_list_elem (w h : Z) (my_head : Coord) (safe : string → bool)
    (blocked avoid : gset Coord) (mv : string) (nxt : Coord) :
  (mv, nxt) ∈ candidate_list w h my_head safe blocked avoid ↔
  ∃ d, (mv, d) ∈ DIRECTIONS ∧ nxt = add my_head d ∧ safe mv = true
       ∧ in_bounds nxt w h = true ∧ (nxt ∉ blocked) ∧ (nxt ∉ avoid).
Proof.
  unfold candidate_list. rewrite list_elem_of_omap. split.
  - intros ([mv' d] & Hin & Hsome). simpl in Hsome.
    destruct (_ && _) eqn:Hc in Hsome; [|done].
    inversion Hsome; subst.
    rewrite !andb_true_iff, !negb_true_iff, !bool_decide_eq_false in Hc.
    exists d. naive_solver.
  - intros (d & Hin & -> & Hs & Hb & Hnb & Hna).
    exists (mv, d). split; [done|]. simpl.
    rewrite Hs, Hb, (bool_decide_eq_false_2 _ Hnb),
      (bool_decide_eq_false_2 _ Hna). done.
Qed.


Lemma DIRECTIONS_cases (mv : string) (d : Z * Z) :
  (mv, d) ∈ DIRECTIONS ↔
  (mv = "up" ∧ d = (0, 1)) ∨ (mv = "down" ∧ d = (0, -1))
  ∨ (mv = "left" ∧ d = (-1, 0)) ∨ (mv = "right" ∧ d = (1, 0)).
Proof.
  unfold DIRECTIONS. rewrite !elem_of_cons, elem_of_nil. naive_solver.
Qed.

Lemma deltas_cases (d : Z * Z) :
  d ∈ deltas ↔ d = (0, 1) ∨ d = (0, -1) ∨ d = (-1, 0) ∨ d = (1, 0).
Proof.
  unfold deltas, DIRECTIONS. simpl. rewrite !elem_of_cons, elem_of_nil.
  naive_solver.
Qed.

(** The neck check clears the entry of the direction that leads onto the
    neck. *)
Lemma is_move_safe_neck (my_head neck : Coord) (my_body : list Coord)
    (mv : string) (d : Z * Z) :
  my_body !! 1%nat = Some neck → (mv, d) ∈ DIRECTIONS →
  add my_head d = neck →
  is_move_safe my_head my_body mv = false.
Proof.
  intros Hneck Hd Hadd. unfold is_move_safe. rewrite Hneck.
  destruct my_head as [hx hy]. subst neck.
  apply DIRECTIONS_cases in Hd as [[-> ->]|[[-> ->]|[[-> ->]|[-> ->]]]];
    unfold add; simpl;
    repeat match goal with
           | |- context [?a <? ?b] =>
               destruct (Z.ltb_spec a b); try lia
           end; reflexivity.
Qed.

Lemma sort_desc_elem (l : list (Q * string)) (e : Q * string) :
  e ∈ sort_desc l ↔ e ∈ l.
Proof.
  assert (Hins : ∀ x l', e ∈ insert_desc x l' ↔ e = x ∨ e ∈ l').
  { intros x l'. induction l' as [|y l' IH]; simpl; [set_solver|].
    destruct (tuple_lt x y); rewrite !elem_of_cons; [rewrite IH|]; tauto. }
  induction l as [|x l IH]; simpl; [done|].
  rewrite Hins, IH, elem_of_cons. done.
Qed.

Lemma tuple_lt_score (a b : Q * string) :
  tuple_lt a b = false → (b.1 <= a.1)%Q.
Proof.
  unfold tuple_lt. destruct (Qcompare_spec a.1 b.1) as [Heq|Hlt|Hgt].
  - intros _. rewrite Heq. apply Qle_refl.
  - done.
  - intros _. by apply Qlt_le_weak.
Qed.

Lemma tuple_lt_score_true (a b : Q * string) :
  tuple_lt a b = true → (a.1 <= b.1)%Q.
Proof.
  unfold tuple_lt. destruct (Qcompare_spec a.1 b.1) as [Heq|Hlt|Hgt].
  - intros _. rewrite Heq. apply Qle_refl.
  - intros _. by apply Qlt_le_weak.
  - done.
Qed.

(** The first tuple of the sorted list carries a greatest score. *)
Lemma sort_desc_head (l : list (Q * string)) :
  match sort_desc l with
  | [] => l = []
  | e :: _ => ∀ e', e' ∈ l → (e'.1 <= e.1)%Q
  end.
Proof.
  induction l as [|x l IH]; simpl; [done|].
  destruct (sort_desc l) as [|y s] eqn:Hs; simpl.
  - subst l. intros e' ->%list_elem_of_singleton. apply Qle_refl.
  - destruct (tuple_lt x y) eqn:Hlt; intros e' [->|He']%elem_of_cons.
    + by apply tuple_lt_score_true.
    + by apply IH.
    + apply Qle_refl.
    + apply Qle_trans with y.1; [by apply IH|by apply tuple_lt_score].
Qed.

Lemma best_move_max (l : list (Q * string)) :
  l ≠ [] →
  ∃ e, e ∈ l ∧ best_move l = Some e.2 ∧ ∀ e', e' ∈ l → (e'.1 <= e.1)%Q.
Proof.
  intros Hne. unfold best_move. pose proof (sort_desc_head l) as Hh.
  destruct (sort_desc l) as [|e s] eqn:Hs; [done|].
  exists e. split; [|done]. apply sort_desc_elem. rewrite Hs. by left.
Qed.

(** The move picked among a non-empty list of candidates is the name of one
    of them. *)
Lemma best_move_candidate (sc : nat → string * Coord → Q)
    (cs : list (string * Coord)) :
  cs ≠ [] →
  ∃ c, c ∈ cs ∧ best_move (imap (λ i c, (sc i c, c.1)) cs) = Some c.1.
Proof.
  intros Hne.
  destruct (best_move_max (imap (λ i c, (sc i c, c.1)) cs))
    as (e & He & Hb & _).
  { destruct cs; [done|]. done. }
  apply list_elem_of_lookup in He as [i He].
  rewrite list_lookup_imap in He.
  destruct (cs !! i) as [c|] eqn:Hc; [|done]. simpl in He.
  inversion He; subst. exists c. split; [|done].
  by apply list_elem_of_lookup_2 in Hc.
Qed.

(** Every in-bounds cell next to the head of any listed snake is in the
    danger set, the planner's own snake included. *)
Lemma next_heads_set_elem (gs : GameState) (k : Coord) :
  k ∈ next_heads_set gs ↔
  in_bounds k (width (board gs)) (height (board gs)) = true
  ∧ ∃ s d, s ∈ snakes (board gs) ∧ d ∈ deltas ∧ k = add (snake_head s) d.
Proof.
  unfold next_heads_set.
  rewrite elem_of_list_to_set, list_elem_of_filter, list_elem_of_bind.
  split.
  - intros [Hb (s & Hk & Hs)]. split; [done|].
    apply list_elem_of_bind in Hk as (d & Hk & Hd).
    apply list_elem_of_singleton in Hk. by exists s, d.
  - intros [Hb (s & d & Hs & Hd & ->)]. split; [done|].
    exists s. split; [|done]. apply list_elem_of_bind. exists d.
    split; [by apply list_elem_of_singleton|done].
Qed.

Lemma DIRECTIONS_deltas (mv : string) (d : Z * Z) :
  (mv, d) ∈ DIRECTIONS → d ∈ deltas.
Proof.
  intros H. unfold deltas. apply list_elem_of_fmap. by exists (mv, d).
Qed.

Lemma candidate_list_own_head (gs : GameState) (safe : string → bool)
    (blocked : gset Coord) :
  you gs ∈ snakes (board gs) →
  candidate_list (width (board gs)) (height (board gs))
    (snake_head (you gs)) safe blocked (next_heads_set gs) = [].
Proof.
  intros Hyou.
  destruct (candidate_list _ _ _ _ _ _) as [|[mv nxt] cs] eqn:Hc; [done|].
  assert (Hin : (mv, nxt) ∈ candidate_list (width (board gs))
            (height (board gs)) (snake_head (you gs)) safe blocked
            (next_heads_set gs)) by (rewrite Hc; by left).
  apply candidate_list_elem in Hin as (d & Hd & -> & _ & Hb & _ & Hna).
  exfalso. apply Hna, next_heads_set_elem. split; [done|].
  exists (you gs), d. split; [done|]. split; [|done].
  by apply (DIRECTIONS_deltas mv).
Qed.

Lemma fold_max_le (l : list Z) (a : Z) : a ≤ fold_left Z.max l a.
Proof.
  revert a. induction l as [|z l IH]; intros a; simpl; [lia|].
  specialize (IH (Z.max a z)). lia.
Qed.

Lemma fold_max_elem (l : list Z) (a z : Z) :
  z ∈ l → z ≤ fold_left Z.max l a.
Proof.
  revert a. induction l as [|y l IH]; intros a Hz; simpl.
  - by apply elem_of_nil in Hz.
  - apply elem_of_cons in Hz as [->|Hz]; [|by apply IH].
    pose proof (fold_max_le l (Z.max a y)). lia.
Qed.

Lemma max_default_elem (l : list Z) (d z : Z) :
  z ∈ l → z ≤ max_default l d.
Proof.
  destruct l as [|y l]; simpl; intros Hz.
  - by apply elem_of_nil in Hz.
  - apply elem_of_cons in Hz as [->|Hz]; [apply fold_max_le|].
    by apply fold_max_elem.
Qed.

Lemma opponents_elem (gs : GameState) (s : Snake) :
  s ∈ opponents gs ↔
  s ∈ snakes (board gs) ∧ snake_id s ≠ snake_id (you gs).
Proof. unfold opponents. rewrite list_elem_of_filter. tauto. Qed.

Lemma opponents_largest (gs : GameState) (s : Snake) :
  s ∈ snakes (board gs) → snake_id s ≠ snake_id (you gs) →
  snake_length s ≤ max_default (snake_length <$> opponents gs) 0.
Proof.
  intros Hs Hid. apply max_default_elem, list_elem_of_fmap.
  exists s. split; [done|]. by apply opponents_elem.
Qed.

Lemma safe_largest_opp_elem (gs : GameState) (s : Snake) :
  s ∈ snakes (board gs) → snake_id s ≠ snake_id (you gs) →
  snake_length s ≤ Safe.largest_opp gs.
Proof.
  unfold Safe.largest_opp. generalize 0.
  induction (snakes (board gs)) as [|y l IH]; intros a Hs Hid; simpl.
  - by apply elem_of_nil in Hs.
  - assert (Hmono : ∀ l' b,
        b ≤ fold_left (λ acc s0,
               if bool_decide (snake_id s0 ≠ snake_id (you gs))
               then Z.max acc (snake_length s0) else acc) l' b).
    { induction l' as [|y' l' IH']; intros b; simpl; [lia|].
      destruct (bool_decide _); [|apply IH'].
      specialize (IH' (Z.max b (snake_length y'))). lia. }
    apply elem_of_cons in Hs as [->|Hs]; [|by apply IH].
    rewrite (bool_decide_eq_true_2 _ Hid).
    specialize (Hmono l (Z.max a (snake_length y))). lia.
Qed.

(** C2. Whenever some opposing snake is at least as long as the planner,
    safe.py, greedy.py and aggressive.py return "down" whatever the board
    looks like: the avoidance set holds the in-bounds neighbours of every
    listed head, the planner's own included, so the candidate list is empty
    and the panic fallback fires.  The snapshot lists the planner's snake
    among the snakes and its body is not empty. *)
Theorem move_panics_unless_longest (gs : GameState) (s : Snake)
    (rnd : nat → Q) (tail : Coord) :
  last (snake_body (you gs)) = Some tail →
  you gs ∈ snakes (board gs) →
  s ∈ snakes (board gs) → snake_id s ≠ snake_id (you gs) →
  snake_length (you gs) ≤ snake_length s →
  (∀ mv d, (mv, d) ∈ DIRECTIONS →
     in_bounds (add (snake_head (you gs)) d)
               (width (board gs)) (height (board gs)) = true →
     add (snake_head (you gs)) d ∈ Safe.avoid_head_cells gs
     ∧ add (snake_head (you gs)) d ∈ Greedy.avoid_head gs
     ∧ add (snake_head (you gs)) d ∈ Aggressive.avoid_head_cells gs)
  ∧ Safe.candidates gs tail = []
  ∧ Greedy.candidates gs tail = []
  ∧ Aggressive.candidates gs tail = []
  ∧ Safe.move gs rnd = Some "down"
  ∧ Greedy.move gs rnd = Some "down"
  ∧ Aggressive.move gs rnd = Some "down".
Proof.
  intros Htail Hyou Hs Hid Hlen.
  assert (Ha1 : Safe.avoid_head_cells gs = next_heads_set gs).
  { unfold Safe.avoid_head_cells.
    pose proof (safe_largest_opp_elem gs s Hs Hid).
    destruct (Z.leb_spec (snake_length (you gs)) (Safe.largest_opp gs));
      [done|lia]. }
  assert (Ha2 : Greedy.avoid_head gs = next_heads_set gs).
  { unfold Greedy.avoid_head, Greedy.largest_opp.
    pose proof (opponents_largest gs s Hs Hid). simpl.
    destruct (Z.leb_spec (snake_length (you gs))
                (max_default (snake_length <$> opponents gs) 0));
      [done|lia]. }
  assert (Ha3 : Aggressive.avoid_head_cells gs = next_heads_set gs).
  { unfold Aggressive.avoid_head_cells, Aggressive.largest_opp.
    pose proof (opponents_largest gs s Hs Hid). simpl.
    destruct (Z.leb_spec (snake_length (you gs))
                (max_default (snake_length <$> opponents gs) 0));
      [done|lia]. }
  assert (Hc1 : Safe.candidates gs tail = []).
  { unfold Safe.candidates. rewrite Ha1. by apply candidate_list_own_head. }
  assert (Hc2 : Greedy.candidates gs tail = []).
  { unfold Greedy.candidates. rewrite Ha2. by apply candidate_list_own_head. }
  assert (Hc3 : Aggressive.candidates gs tail = []).
  { unfold Aggressive.candidates. rewrite Ha3.
    by apply candidate_list_own_head. }
  split.
  { intros mv d Hd Hb. rewrite Ha1, Ha2, Ha3.
    assert (add (snake_head (you gs)) d ∈ next_heads_set gs); [|done].
    apply next_heads_set_elem. split; [done|].
    exists (you gs), d. split; [done|]. split; [|done].
    by apply (DIRECTIONS_deltas mv). }
  unfold Safe.move, Greedy.move, Aggressive.move.
  rewrite Htail, Hc1, Hc2, Hc3. done.
Qed.

Lemma move_panics_unless_longest_witness :
  Safe.move gs_free_board no_jitter = Some "down"
  ∧ Greedy.move gs_free_board no_jitter = Some "down"
  ∧ Aggressive.move gs_free_board no_jitter = Some "down".
Proof.
  pose proof (move_panics_unless_longest gs_free_board
                (mkSnake "opp" (0, 0) [(0, 0); (0, 1); (0, 2)] 3 100)
                no_jitter (5, 3)) as H.
  apply H.
  - reflexivity.
  - vm_compute. left.
  - vm_compute. right. left.
  - vm_compute. discriminate.
  - vm_compute. discriminate.
Defined.

(** ** The path finder of main.py *)

Lemma heap_min_spec (l : list (Z * Coord)) :
  ∀ e, let m := fold_left (λ m x, if Main.entry_lt x m then x else m) l e in
       m ∈ e :: l ∧ ∀ x, x ∈ e :: l → m.1 ≤ x.1.
Proof.
  induction l as [|y l IH]; intros e; simpl.
  - split; [by left|]. intros x ->%list_elem_of_singleton. lia.
  - destruct (IH (if Main.entry_lt y e then y else e)) as [Hin Hmin].
    split.
    + apply elem_of_cons in Hin as [Hin|Hin]; [|set_solver].
      rewrite Hin. destruct (Main.entry_lt y e); set_solver.
    + intros x Hx.
      assert (Hye : (if Main.entry_lt y e then y else e).1 ≤ e.1
                    ∧ (if Main.entry_lt y e then y else e).1 ≤ y.1).
      { unfold Main.entry_lt.
        destruct (Z.ltb_spec y.1 e.1); simpl; [lia|].
        destruct (Z.eqb_spec y.1 e.1); simpl; [|lia].
        destruct (_ || _); lia. }
      pose proof (Hmin _ (list_elem_of_here _ _)) as Hm.
      apply elem_of_cons in Hx as [->|[->|Hx]%elem_of_cons]; [lia|lia|].
      apply Hmin. by right.
Qed.

Lemma remove_first_spec (m : Z * Coord) (q : list (Z * Coord)) :
  m ∈ q →
  length q = S (length (Main.remove_first m q))
  ∧ ∀ e, e ∈ Main.remove_first m q → e ∈ q.
Proof.
  induction q as [|x q IH]; intros Hm; [by apply elem_of_nil in Hm|].
  simpl. destruct (bool_decide (x = m)) eqn:Hx.
  - split; [done|]. intros e He. by right.
  - apply bool_decide_eq_false in Hx.
    apply elem_of_cons in Hm as [->|Hm]; [done|].
    destruct (IH Hm) as [Hlen Hsub]. simpl. split; [lia|].
    intros e [->|He]%elem_of_cons; [by left|right; by apply Hsub].
Qed.

Lemma heappop_spec (q : list (Z * Coord)) :
  match Main.heappop q with
  | None => q = []
  | Some (m, q') =>
      m ∈ q ∧ (∀ x, x ∈ q → m.1 ≤ x.1)
      ∧ length q = S (length q') ∧ ∀ e, e ∈ q' → e ∈ q
  end.
Proof.
  destruct q as [|e l]; [done|]. unfold Main.heappop.
  destruct (heap_min_spec l e) as [Hin Hmin].
  destruct (remove_first_spec _ _ Hin) as [Hlen Hsub]. done.
Qed.

Lemma STEPS_cases (e : string * (Z * Z)) :
  e ∈ Main.STEPS ↔
  e = ("up", (0, 1)) ∨ e = ("down", (0, -1))
  ∨ e = ("left", (-1, 0)) ∨ e = ("right", (1, 0)).
Proof.
  unfold Main.STEPS. rewrite !elem_of_cons, elem_of_nil. naive_solver.
Qed.

(** One relaxation keeps the invariant of the current iteration and does
    not increase the measure. *)
Lemma relax_inv (w h : Z) (start : Coord) (dangers : gset Coord)
    (cd hi : Z) (current : Coord) (e : string * (Z * Z))
    (D : gmap Coord Z) (Qu : list (Z * Coord)) (CF : gmap Coord Coord) :
  e ∈ Main.STEPS → D !! current = Some cd → cd + 1 ≤ hi →
  dj_inv w h start dangers cd hi D Qu CF →
  let st := Main.relax w h dangers cd current (D, Qu, CF) e in
  dj_inv w h start dangers cd hi st.1.1 st.1.2 st.2
  ∧ st.1.1 !! current = Some cd
  ∧ (dj_measure w h st.1.1 st.1.2 ≤ dj_measure w h D Qu)%nat.
Proof.
  intros He Hcur Hhi Hinv. pose proof Hinv as [Hs Hq Hr Hp].
  unfold Main.relax. simpl.
  destruct (in_bounds (add current e.2) w h
            && negb (bool_decide (add current e.2 ∈ dangers))) eqn:Hfree;
    [|split; [done|split; [done|simpl; lia]]].
  apply free_cell_dec in Hfree as [Hb Hnd].
  destruct (D !! add current e.2) as [dn|] eqn:Hn.
  { destruct (Z.ltb_spec (cd + 1) dn); [|split; [done|split; [done|simpl; lia]]].
    apply Hr in Hn. lia. }
  simpl.
  assert (Hne : add current e.2 ≠ current) by congruence.
  assert (Hnes : add current e.2 ≠ start) by congruence.
  split; [split|split]; simpl.
  - by rewrite lookup_insert_ne.
  - intros d c [Heq|Hin]%elem_of_cons.
    + inversion Heq; subst. rewrite lookup_insert_eq. split; [lia|done].
    + destruct (Hq d c Hin) as [Hlo Hd]. split; [done|].
      rewrite lookup_insert_ne; [done|congruence].
  - intros c d. rewrite lookup_insert. case_decide as Hc.
    + intros [= <-]. apply Hr in Hcur. lia.
    + apply Hr.
  - intros c d. rewrite lookup_insert. case_decide as Hc.
    + intros [= <-]. right. exists current, e. subst c.
      rewrite lookup_insert_eq, lookup_insert_ne by done.
      replace (cd + 1 - 1) with cd by lia. done.
    + intros Hd. destruct (Hp c d Hd) as [?|(p & e' & H1 & H2 & H3 & H4 & H5)];
        [by left|right].
      exists p, e'. rewrite lookup_insert_ne by done.
      split; [done|]. split; [done|]. split; [done|]. split; [|done].
      rewrite lookup_insert_ne; [done|]. congruence.
  - by rewrite lookup_insert_ne.
  - unfold dj_measure, Main.heappush. rewrite dom_insert_L.
    assert (Hin : add current e.2 ∈ Main.board_cells w h ∖ dom D).
    { apply elem_of_difference. split; [by apply in_bounds_board_cells|].
      by apply not_elem_of_dom. }
    assert (Hsz : size (Main.board_cells w h ∖ dom D)
                  = S (size (Main.board_cells w h
                             ∖ ({[add current e.2]} ∪ dom D)))).
    { assert (Heq : Main.board_cells w h ∖ dom D
                    = {[add current e.2]}
                      ∪ Main.board_cells w h
                        ∖ ({[add current e.2]} ∪ dom D)).
      { apply set_eq. intros c.
        destruct (decide (c = add current e.2)); set_solver. }
      rewrite Heq at 1.
      rewrite (size_union (C := gset (Z * Z))) by set_solver.
      by rewrite size_singleton. }
    rewrite Hsz. cbn [length]. lia.
Qed.

Lemma relax_fold_inv (w h : Z) (start : Coord) (dangers : gset Coord)
    (cd hi : Z) (current : Coord) (es : list (string * (Z * Z))) :
  (∀ e, e ∈ es → e ∈ Main.STEPS) → cd + 1 ≤ hi →
  ∀ (D : gmap Coord Z) (Qu : list (Z * Coord)) (CF : gmap Coord Coord),
    D !! current = Some cd →
    dj_inv w h start dangers cd hi D Qu CF →
    let st := fold_left (Main.relax w h dangers cd current) es (D, Qu, CF) in
    dj_inv w h start dangers cd hi st.1.1 st.1.2 st.2
    ∧ (dj_measure w h st.1.1 st.1.2 ≤ dj_measure w h D Qu)%nat.
Proof.
  intros Hes Hhi. induction es as [|e es IH]; intros D Qu CF Hcur Hinv.
  - simpl. split; [done|lia].
  - cbn [fold_left].
    destruct (relax_inv w h start dangers cd hi current e D Qu CF)
      as (Hinv' & Hcur' & Hm); [set_solver|done..|].
    destruct (Main.relax w h dangers cd current (D, Qu, CF) e)
      as [[D' Qu'] CF'] eqn:Hst.
    cbn [fst snd] in Hinv', Hcur', Hm.
    destruct (IH (λ e' He', Hes e' (list_elem_of_further _ _ _ He'))
                D' Qu' CF' Hcur' Hinv') as [Hi Hm'].
    split; [done|lia].
Qed.

(** Following came_from from a cell with a recorded distance reaches
    [start] within that many steps, and the last cell collected is one step
    away from [start]. *)
Lemma build_path_spec (w h : Z) (start : Coord) (dangers : gset Coord)
    (lo hi : Z) (D : gmap Coord Z) (Qu : list (Z * Coord))
    (CF : gmap Coord Coord) :
  dj_inv w h start dangers lo hi D Qu CF →
  ∀ (n : nat) (current : Coord) (d : Z) (path : list Coord),
    D !! current = Some d → d ≤ Z.of_nat n →
    ∃ chain,
      Main.build_path n CF start current path = Some (path ++ chain)
      ∧ (chain = [] → current = start)
      ∧ first_step_ok w h start dangers (reverse chain).
Proof.
  intros [Hs Hq Hr Hp]. induction n as [|n IH]; intros current d path Hd Hn.
  - simpl. case_bool_decide as Hc.
    + exists []. by rewrite app_nil_r.
    + exfalso. destruct (Hp _ _ Hd) as [[? _]|(p & e & _ & _ & _ & Hdp & _)];
        [done|]. apply Hr in Hdp. lia.
  - simpl. case_bool_decide as Hc.
    + exists []. by rewrite app_nil_r.
    + destruct (Hp _ _ Hd) as [[? _]|(p & e & Hcf & He & Hadd & Hdp & Hb & Hnd)];
        [done|].
      rewrite Hcf.
      destruct (IH p (d - 1) (path ++ [current]) Hdp) as (chain & Hbp & Hnil & Hok);
        [lia|].
      exists (current :: chain). rewrite Hbp, <- app_assoc. simpl.
      split; [done|]. split; [done|].
      rewrite reverse_cons. destruct (reverse chain) as [|p0 r] eqn:Hrev.
      * simpl. exists e. assert (chain = []) as Hch.
        { apply (f_equal reverse) in Hrev. by rewrite reverse_involutive in Hrev. }
        rewrite <- (Hnil Hch). done.
      * done.
Qed.

Lemma dijkstra_loop_spec (w h : Z) (start : Coord) (dangers : gset Coord)
    (food : list Coord) (pfuel : nat) :
  ∀ (f k : nat) (lo : Z) (D : gmap Coord Z) (Qu : list (Z * Coord))
    (CF : gmap Coord Coord),
    dj_inv w h start dangers lo (Z.of_nat k) D Qu CF →
    (dj_measure w h D Qu < f)%nat → (k + f ≤ pfuel)%nat →
    ∃ path,
      Main.dijkstra_loop f pfuel w h start dangers food (D, Qu, CF)
      = Some path
      ∧ first_step_ok w h start dangers path.
Proof.
  induction f as [|f IH]; intros k lo D Qu CF Hinv Hm Hk; [lia|].
  cbn [Main.dijkstra_loop fst snd].
  pose proof (heappop_spec Qu) as Hpop.
  destruct (Main.heappop Qu) as [[[cd current] Qu']|]; [|by exists []].
  destruct Hpop as (Hin & Hmin & Hlen & Hsub).
  pose proof Hinv as [Hs Hq Hr Hp].
  destruct (Hq _ _ Hin) as [Hlo Hcur].
  destruct (Hr _ _ Hcur) as (Hcd0 & _ & Hcdk).
  case_bool_decide as Hfood.
  - destruct (build_path_spec _ _ _ _ _ _ _ _ _ Hinv pfuel current cd [] Hcur)
      as (chain & Hbp & _ & Hok); [lia|].
    rewrite Hbp. simpl. by exists (reverse chain).
  - assert (Hinv' : dj_inv w h start dangers cd (Z.of_nat (S k)) D Qu' CF).
    { split; [done| | |done].
      - intros d c Hdc. specialize (Hmin _ (Hsub _ Hdc)). simpl in Hmin.
        split; [done|]. by apply Hq, Hsub.
      - intros c d Hd. apply Hr in Hd. lia. }
    destruct (relax_fold_inv w h start dangers cd (Z.of_nat (S k)) current
                Main.STEPS (λ e He, He) ltac:(lia) D Qu' CF Hcur Hinv')
      as [Hi Hm'].
    destruct (fold_left _ Main.STEPS (D, Qu', CF)) as [[D2 Qu2] CF2].
    cbn [fst snd] in Hi, Hm'.
    apply (IH (S k) cd); [done| |lia].
    unfold dj_measure in *. lia.
Qed.

(** dijkstra returns: the fuel of the embedding is never exhausted and no
    came_from lookup fails. *)
Lemma dijkstra_spec (w h : Z) (start : Coord) (dangers : gset Coord)
    (food : list Coord) :
  ∃ path, Main.dijkstra w h start dangers food = Some path
          ∧ first_step_ok w h start dangers path.
Proof.
  unfold Main.dijkstra.
  apply (dijkstra_loop_spec w h start dangers food _ _ 0%nat 0).
  - split.
    + by rewrite lookup_singleton_eq.
    + intros d c [= -> ->]%list_elem_of_singleton.
      by rewrite lookup_singleton_eq.
    + intros c d [-> <-]%lookup_singleton_Some. simpl. lia.
    + intros c d [-> <-]%lookup_singleton_Some. by left.
  - unfold dj_measure, Main.dijkstra_fuel. simpl.
    assert (size (Main.board_cells w h ∖ dom ({[start := 0%Z]} : gmap _ Z))
            ≤ size (Main.board_cells w h))%nat
      by (apply subseteq_size; set_solver).
    lia.
  - lia.
Qed.

Lemma safe_moves_elem (w h : Z) (head_pos : Coord) (dangers : gset Coord)
    (m : string) :
  m ∈ Main.safe_moves w h head_pos dangers ↔
  ∃ e, e ∈ Main.STEPS ∧ m = e.1 ∧ in_bounds (add head_pos e.2) w h = true
       ∧ add head_pos e.2 ∉ dangers.
Proof.
  unfold Main.safe_moves. rewrite list_elem_of_omap. split.
  - intros (e & He & Hsome). destruct (_ && _) eqn:Hc in Hsome; [|done].
    apply free_cell_dec in Hc as [Hb Hnd]. exists e. naive_solver.
  - intros (e & He & -> & Hb & Hnd). exists e. split; [done|].
    by rewrite (proj2 (free_cell_dec dangers w h _) (conj Hb Hnd)).
Qed.

Lemma move_map_step (head_pos : Coord) (e : string * (Z * Z)) :
  e ∈ Main.STEPS →
  Main.move_map !! ((add head_pos e.2).1 - head_pos.1,
                    (add head_pos e.2).2 - head_pos.2) = Some e.1.
Proof.
  intros He. unfold add. simpl.
  replace (head_pos.1 + e.2.1 - head_pos.1) with e.2.1 by lia.
  replace (head_pos.2 + e.2.2 - head_pos.2) with e.2.2 by lia.
  apply STEPS_cases in He as [-> | [-> | [-> | ->]]]; reflexivity.
Qed.


(** What main.py's move returns: a step to a free neighbour, or "up" when
    no path and no free neighbour exist. *)
Lemma main_move_cases (gs : GameState) (head_pos : Coord) :
  snake_body (you gs) !! 0%nat = Some head_pos →
  ∃ mv, Main.move gs = Some mv
    ∧ ((∃ e, e ∈ Main.STEPS ∧ mv = e.1
             ∧ in_bounds (add head_pos e.2)
                 (width (board gs)) (height (board gs)) = true
             ∧ add head_pos e.2 ∉ all_body_cells gs)
       ∨ (mv = "up"
          ∧ Main.dijkstra (width (board gs)) (height (board gs)) head_pos
              (all_body_cells gs) (food (board gs)) = Some []
          ∧ Main.safe_moves (width (board gs)) (height (board gs)) head_pos
              (all_body_cells gs) = [])).
Proof.
  intros Hhead. unfold Main.move. rewrite Hhead.
  destruct (dijkstra_spec (width (board gs)) (height (board gs)) head_pos
              (all_body_cells gs) (food (board gs))) as (path & Hd & Hok).
  rewrite Hd. destruct path as [|p path].
  - destruct (Main.safe_moves _ _ _ _) as [|m ms] eqn:Hsm.
    + exists "up". split; [done|]. by right.
    + exists m. split; [done|]. left.
      apply safe_moves_elem. rewrite Hsm. by left.
  - destruct Hok as (e & He & -> & Hb & Hnd).
    exists e.1. split; [by apply move_map_step|]. left. by exists e.
Qed.

(** The choice shared by the three example planners: "down" on an empty
    candidate list, otherwise the name of a candidate. *)
Lemma choose_cases (sc : nat → string * Coord → Q)
    (cs : list (string * Coord)) :
  let r := match cs with
           | [] => Some "down"
           | p :: l => best_move (imap (λ i c, (sc i c, c.1)) (p :: l))
           end in
  (cs = [] ∧ r = Some "down") ∨ (∃ c, c ∈ cs ∧ r = Some c.1).
Proof.
  destruct cs as [|c cs]; [by left|]. right.
  by apply best_move_candidate.
Qed.

Lemma safe_move_cases (gs : GameState) (rnd : nat → Q) (t : Coord) :
  last (snake_body (you gs)) = Some t →
  (Safe.candidates gs t = [] ∧ Safe.move gs rnd = Some "down")
  ∨ (∃ c, c ∈ Safe.candidates gs t ∧ Safe.move gs rnd = Some c.1).
Proof.
  intros Ht. unfold Safe.move. rewrite Ht.
  apply (choose_cases (λ i c, Safe.score gs t (rnd i) c)).
Qed.

Lemma greedy_move_cases (gs : GameState) (rnd : nat → Q) (t : Coord) :
  last (snake_body (you gs)) = Some t →
  (Greedy.candidates gs t = [] ∧ Greedy.move gs rnd = Some "down")
  ∨ (∃ c, c ∈ Greedy.candidates gs t ∧ Greedy.move gs rnd = Some c.1).
Proof.
  intros Ht. unfold Greedy.move. rewrite Ht.
  apply (choose_cases (λ i c, Greedy.score gs t (rnd i) c)).
Qed.

Lemma aggressive_move_cases (gs : GameState) (rnd : nat → Q) (t : Coord) :
  last (snake_body (you gs)) = Some t →
  (Aggressive.candidates gs t = [] ∧ Aggressive.move gs rnd = Some "down")
  ∨ (∃ c, c ∈ Aggressive.candidates gs t
          ∧ Aggressive.move gs rnd = Some c.1).
Proof.
  intros Ht. unfold Aggressive.move. rewrite Ht.
  apply (choose_cases (λ i c, Aggressive.score gs t (rnd i) c)).
Qed.




(** C3 (as stated, fails for main.py).  On the trapped snapshot the path
    finder returns the empty path and no neighbour of the head is free, yet
    main.py answers "up", not "down". *)
Lemma main_fallback_is_up :
  Main.dijkstra 11 11 (0, 1) (all_body_cells gs_trapped) [] = Some []
  ∧ Main.safe_moves 11 11 (0, 1) (all_body_cells gs_trapped) = []
  ∧ Main.move gs_trapped = Some "up"
  ∧ Main.move gs_trapped ≠ Some "down".
Proof. by vm_compute. Qed.

(** C3 (amended).  When no candidate survives the safety filter, safe.py,
    greedy.py and aggressive.py return the fixed fallback "down", whatever
    the random draws; main.py returns its own fixed fallback "up" when the
    path finder returns the empty path and no neighbour of the head is in
    bounds and unoccupied. *)
Theorem fallback_moves (gs : GameState) (rnd : nat → Q) (t head_pos : Coord) :
  last (snake_body (you gs)) = Some t →
  snake_body (you gs) !! 0%nat = Some head_pos →
  (Safe.candidates gs t = [] → Safe.move gs rnd = Some "down")
  ∧ (Greedy.candidates gs t = [] → Greedy.move gs rnd = Some "down")
  ∧ (Aggressive.candidates gs t = [] → Aggressive.move gs rnd = Some "down")
  ∧ (Main.dijkstra (width (board gs)) (height (board gs)) head_pos
       (all_body_cells gs) (food (board gs)) = Some [] →
     Main.safe_moves (width (board gs)) (height (board gs)) head_pos
       (all_body_cells gs) = [] →
     Main.move gs = Some "up").
Proof.
  intros Ht Hhp. unfold Safe.move, Greedy.move, Aggressive.move, Main.move.
  rewrite Ht, Hhp. repeat split.
  - by intros ->.
  - by intros ->.
  - by intros ->.
  - by intros -> ->.
Qed.

Lemma fallback_moves_witness :
  Safe.move gs_trapped no_jitter = Some "down"
  ∧ Greedy.move gs_trapped no_jitter = Some "down"
  ∧ Aggressive.move gs_trapped no_jitter = Some "down"
  ∧ Main.move gs_trapped = Some "up".
Proof.
  destruct (fallback_moves gs_trapped no_jitter (0, 3) (0, 1))
    as (H1 & H2 & H3 & H4); [reflexivity..|].
  split; [apply H1; by vm_compute|].
  split; [apply H2; by vm_compute|].
  split; [apply H3; by vm_compute|].
  apply H4; by vm_compute.
Defined.

Lemma STEPS_DIRECTIONS (mv : string) (d : Z * Z) (e : string * (Z * Z)) :
  (mv, d) ∈ DIRECTIONS → e ∈ Main.STEPS → e.1 = mv → e.2 = d.
Proof.
  intros Hd He Hn. apply DIRECTIONS_cases in Hd. apply STEPS_cases in He.
  destruct He as [-> | [-> | [-> | ->]]]; simpl in *; subst mv;
    naive_solver.
Qed.

Lemma candidate_not_neck (w h : Z) (my_head neck : Coord)
    (my_body : list Coord) (blocked avoid : gset Coord)
    (mv : string) (d : Z * Z) (c : string * Coord) :
  my_body !! 1%nat = Some neck → (mv, d) ∈ DIRECTIONS →
  add my_head d = neck →
  c ∈ candidate_list w h my_head (is_move_safe my_head my_body) blocked avoid →
  c.1 ≠ mv.
Proof.
  intros Hneck Hd Hadd Hc Hmv. destruct c as [mv' nxt]. simpl in Hmv.
  subst mv'.
  apply candidate_list_elem in Hc as (d' & _ & _ & Hs & _).
  by rewrite (is_move_safe_neck _ _ _ _ _ Hneck Hd Hadd) in Hs.
Qed.

(** C6 (as stated, fails).  The trapped snake has no candidate left, so
    safe.py falls back to "down", which is the step from the head (0,1) onto
    the neck (0,0). *)
Lemma fallback_steps_onto_neck :
  snake_body (you gs_trapped) !! 1%nat = Some (0, 0)
  ∧ ("down", (0, -1)) ∈ DIRECTIONS
  ∧ add (snake_head (you gs_trapped)) (0, -1) = (0, 0)
  ∧ ∀ rnd, Safe.move gs_trapped rnd = Some "down".
Proof.
  split; [reflexivity|]. split; [set_solver|]. split; [reflexivity|].
  intros rnd.
  destruct (safe_move_cases gs_trapped rnd (0, 3) eq_refl)
    as [[_ H]|(c & Hc & _)]; [exact H|].
  exfalso. revert Hc. vm_compute. by intros ?%elem_of_nil.
Qed.

(** C6 (amended).  With a body of length at least 2, the direction that
    steps from the head onto the neck is never among the candidates of the
    safety filter.  safe.py, greedy.py and aggressive.py return it only as
    the fallback "down" taken when no candidate is left, and main.py (on a
    snapshot that lists the planner's snake, with its head first in the
    body) only as its fallback "up" taken when no neighbour is free. *)
Theorem neck_only_by_fallback (gs : GameState) (rnd : nat → Q)
    (t neck : Coord) (mv : string) (d : Z * Z) :
  last (snake_body (you gs)) = Some t →
  snake_body (you gs) !! 1%nat = Some neck →
  (mv, d) ∈ DIRECTIONS →
  add (snake_head (you gs)) d = neck →
  (∀ c, c ∈ Safe.candidates gs t ∨ c ∈ Greedy.candidates gs t
        ∨ c ∈ Aggressive.candidates gs t → c.1 ≠ mv)
  ∧ (Safe.move gs rnd = Some mv →
     mv = "down" ∧ Safe.candidates gs t = [])
  ∧ (Greedy.move gs rnd = Some mv →
     mv = "down" ∧ Greedy.candidates gs t = [])
  ∧ (Aggressive.move gs rnd = Some mv →
     mv = "down" ∧ Aggressive.candidates gs t = [])
  ∧ (you gs ∈ snakes (board gs) →
     snake_body (you gs) !! 0%nat = Some (snake_head (you gs)) →
     Main.move gs = Some mv →
     mv = "up"
     ∧ Main.safe_moves (width (board gs)) (height (board gs))
         (snake_head (you gs)) (all_body_cells gs) = []).
Proof.
  intros Ht Hneck Hd Hadd.
  assert (Hcand : ∀ c, c ∈ Safe.candidates gs t ∨ c ∈ Greedy.candidates gs t
        ∨ c ∈ Aggressive.candidates gs t → c.1 ≠ mv).
  { intros c [Hc|[Hc|Hc]]; by eapply candidate_not_neck. }
  split; [done|]. split; [|split; [|split]].
  - intros Hm.
    destruct (safe_move_cases gs rnd t Ht) as [[Hn H]|(c & Hc & H)];
      rewrite H in Hm; inversion Hm; subst; [done|].
    exfalso. by apply (Hcand c); [left|].
  - intros Hm.
    destruct (greedy_move_cases gs rnd t Ht) as [[Hn H]|(c & Hc & H)];
      rewrite H in Hm; inversion Hm; subst; [done|].
    exfalso. by apply (Hcand c); [right; left|].
  - intros Hm.
    destruct (aggressive_move_cases gs rnd t Ht) as [[Hn H]|(c & Hc & H)];
      rewrite H in Hm; inversion Hm; subst; [done|].
    exfalso. by apply (Hcand c); [right; right|].
  - intros Hyou Hhp Hm.
    destruct (main_move_cases gs _ Hhp) as (m & H & Hcase).
    rewrite H in Hm. inversion Hm; subst m.
    destruct Hcase as [(e & He & Hn & _ & Hnd)|(-> & _ & Hsm)]; [|done].
    exfalso. apply Hnd.
    rewrite (STEPS_DIRECTIONS mv d e Hd He (eq_sym Hn)), Hadd.
    unfold all_body_cells. apply elem_of_list_to_set, list_elem_of_bind.
    exists (you gs). split; [|done].
    by apply list_elem_of_lookup_2 in Hneck.
Qed.

Lemma neck_only_by_fallback_witness :
  Safe.move gs_trapped no_jitter = Some "down"
  ∧ "down" = "down" ∧ Safe.candidates gs_trapped (0, 3) = [].
Proof.
  split; [by vm_compute|].
  apply (neck_only_by_fallback gs_trapped no_jitter (0, 3) (0, 0) "down"
           (0, -1)).
  - reflexivity.
  - reflexivity.
  - vm_compute. right. left.
  - reflexivity.
  - by vm_compute.
Defined.

(** C7 (as stated, fails).  With the head at (0,0) and the neck at (1,0) the
    neck check leaves the entry of "left" at True. *)
Lemma neck_check_keeps_left :
  is_move_safe (0, 0) [(0, 0); (1, 0)] "left" ≠ false.
Proof. by vm_compute. Qed.

(** C7 (amended).  With the head at (0,0) and the neck at (1,0) the neck
    lies to the right of the head: the neck check sets the entry of "right"
    to False and leaves "left", "up" and "down" at True.  On the 11x11 board
    "left" is then dropped by the bounds rule, so that only "up" is a
    candidate when nothing else is on the board. *)
Theorem neck_check_blocks_right (rest : list Coord) :
  is_move_safe (0, 0) ((0, 0) :: (1, 0) :: rest) "right" = false
  ∧ is_move_safe (0, 0) ((0, 0) :: (1, 0) :: rest) "left" = true
  ∧ is_move_safe (0, 0) ((0, 0) :: (1, 0) :: rest) "up" = true
  ∧ is_move_safe (0, 0) ((0, 0) :: (1, 0) :: rest) "down" = true
  ∧ in_bounds (add (0, 0) (-1, 0)) 11 11 = false
  ∧ Safe.candidates (lone 11 11 [(0, 0); (1, 0); (2, 0)] 100 []) (2, 0)
    = [("up", (0, 1))]
  ∧ Greedy.candidates (lone 11 11 [(0, 0); (1, 0); (2, 0)] 100 []) (2, 0)
    = [("up", (0, 1))]
  ∧ Aggressive.candidates (lone 11 11 [(0, 0); (1, 0); (2, 0)] 100 []) (2, 0)
    = [("up", (0, 1))].
Proof. by vm_compute. Qed.

(** ** Target selection of greedy.py *)

Lemma fold_min_lt (l : list Z) (a x : Z) :
  x < fold_left Z.min l a ↔ x < a ∧ ∀ y, y ∈ l → x < y.
Proof.
  revert a. induction l as [|z l IH]; intros a; simpl.
  - split; [|tauto]. intros H. split; [done|]. by intros y ?%elem_of_nil.
  - rewrite IH. split.
    + intros [H1 H2]. split; [lia|].
      intros y [->|Hy]%elem_of_cons; [lia|by apply H2].
    + intros [H1 H2]. split.
      * specialize (H2 z (list_elem_of_here _ _)). lia.
      * intros y Hy. apply H2. by right.
Qed.

Lemma d_opp_min_winnable (head : Coord) (heads : list Coord) (f : Coord) :
  heads ≠ [] →
  manhattan head f < Greedy.d_opp_min heads f ↔ winnable head heads f.
Proof.
  intros Hne. unfold Greedy.d_opp_min, winnable.
  destruct heads as [|oh0 heads]; [done|]. simpl. rewrite fold_min_lt.
  split.
  - intros [H1 H2] oh [->|Hoh]%elem_of_cons; [done|].
    apply H2, list_elem_of_fmap. by exists oh.
  - intros H. split; [apply H; by left|].
    intros y (oh & -> & Hoh)%list_elem_of_fmap. apply H. by right.
Qed.

Lemma min_by_spec {A} (key : A → Z) (l : list A) :
  l ≠ [] →
  ∃ t, min_by key l = Some t ∧ t ∈ l ∧ ∀ x, x ∈ l → key t ≤ key x.
Proof.
  destruct l as [|a l]; [done|]. intros _. simpl.
  exists (fold_left (λ best c, if key c <? key best then c else best) l a).
  split; [done|]. revert a. induction l as [|b l IH]; intros a; simpl.
  - split; [by left|]. intros x ->%list_elem_of_singleton. lia.
  - destruct (IH (if key b <? key a then b else a)) as [Hin Hmin].
    assert (Hk : key (if key b <? key a then b else a) ≤ key a
                 ∧ key (if key b <? key a then b else a) ≤ key b).
    { destruct (Z.ltb_spec (key b) (key a)); lia. }
    split.
    + apply elem_of_cons in Hin as [->|Hin]; [|set_solver].
      destruct (key b <? key a); set_solver.
    + intros x Hx. pose proof (Hmin _ (list_elem_of_here _ _)).
      apply elem_of_cons in Hx as [->|[->|Hx]%elem_of_cons]; [lia|lia|].
      apply Hmin. by right.
Qed.

(** The loop over the foods keeps the first winnable food (in the sense of
    the code's comparison) of least distance. *)
Lemma best_winnable_fold (head : Coord) (heads foods : list Coord) :
  ∀ acc : option (Coord * Z),
    (∀ f d, acc = Some (f, d) →
            d = manhattan head f
            ∧ manhattan head f < Greedy.d_opp_min heads f) →
    match fold_left
            (λ best f,
               let d_me := manhattan head f in
               if d_me <? Greedy.d_opp_min heads f then
                 match best with
                 | None => Some (f, d_me)
                 | Some (_, bd) => if d_me <? bd then Some (f, d_me) else best
                 end
               else best)
            foods acc with
    | None =>
        acc = None
        ∧ ∀ f, f ∈ foods → ¬ manhattan head f < Greedy.d_opp_min heads f
    | Some (t, d) =>
        d = manhattan head t
        ∧ manhattan head t < Greedy.d_opp_min heads t
        ∧ (t ∈ foods ∨ acc = Some (t, d))
        ∧ (∀ f, f ∈ foods → manhattan head f < Greedy.d_opp_min heads f →
                d ≤ manhattan head f)
        ∧ ∀ fa da, acc = Some (fa, da) → d ≤ da
    end.
Proof.
  induction foods as [|f foods IH]; intros acc Hacc.
  - simpl. destruct acc as [[t d]|].
    + destruct (Hacc t d eq_refl) as [-> Hw].
      split; [done|]. split; [done|]. split; [by right|].
      split; [by intros f ?%elem_of_nil|]. intros fa da [= <- <-]. lia.
    + split; [done|]. by intros f ?%elem_of_nil.
  - cbn [fold_left].
    set (acc' := if manhattan head f <? Greedy.d_opp_min heads f
                 then match acc with
                      | None => Some (f, manhattan head f)
                      | Some (_, bd) =>
                          if manhattan head f <? bd
                          then Some (f, manhattan head f) else acc
                      end
                 else acc).
    assert (Hacc' : ∀ f0 d, acc' = Some (f0, d) →
              d = manhattan head f0
              ∧ manhattan head f0 < Greedy.d_opp_min heads f0).
    { intros f0 d. unfold acc'.
      destruct (Z.ltb_spec (manhattan head f) (Greedy.d_opp_min heads f));
        [|apply Hacc].
      destruct acc as [[fa da]|]; [|by intros [= <- <-]].
      destruct (Z.ltb_spec (manhattan head f) da);
        [by intros [= <- <-]|apply Hacc]. }
    specialize (IH acc' Hacc').
    destruct (fold_left _ foods acc') as [[t d]|].
    + destruct IH as (Hd & Hw & Hin & Hmin & Hle).
      split; [done|]. split; [done|].
      assert (Hstep : (t = f ∨ acc = Some (t, d))
                      ∨ acc' ≠ Some (t, d)).
      { unfold acc'.
        destruct (manhattan head f <? Greedy.d_opp_min heads f);
          [|destruct (decide (acc = Some (t, d))); tauto].
        destruct acc as [[fa da]|].
        - destruct (manhattan head f <? da).
          + destruct (decide (t = f)); [tauto|right; congruence].
          + destruct (decide (Some (fa, da) = Some (t, d))); tauto.
        - destruct (decide (t = f)); [tauto|right; congruence]. }
      split.
      { destruct Hin as [Hin|Hin]; [left; by right|].
        destruct Hstep as [[->|?]|?]; [left; by left|by right|done]. }
      split.
      * intros f0 [->|Hf0]%elem_of_cons Hw0; [|by apply Hmin].
        unfold acc' in Hle.
        destruct (Z.ltb_spec (manhattan head f) (Greedy.d_opp_min heads f));
          [|lia].
        destruct acc as [[fa da]|]; [|by apply (Hle f)].
        destruct (Z.ltb_spec (manhattan head f) da);
          [by apply (Hle f)|].
        specialize (Hle fa da eq_refl). lia.
      * intros fa da ->. unfold acc' in Hle.
        destruct (manhattan head f <? Greedy.d_opp_min heads f);
          [|by apply (Hle fa)].
        destruct (Z.ltb_spec (manhattan head f) da);
          [|by apply (Hle fa)].
        specialize (Hle f _ eq_refl). lia.
    + destruct IH as [Hnone Hno]. unfold acc' in Hnone.
      destruct (Z.ltb_spec (manhattan head f) (Greedy.d_opp_min heads f)).
      * destruct acc as [[fa da]|]; [|done].
        by destruct (manhattan head f <? da).
      * split; [done|].
        intros f0 [->|Hf0]%elem_of_cons; [lia|by apply Hno].
Qed.

Lemma d_opp_min_nil (f : Coord) : Greedy.d_opp_min [] f = 1000000.
Proof. done. Qed.

(** C9. Target selection of greedy.py: when some food is winnable the
    target is a winnable food of least planner distance; otherwise it is a
    food nearest by Manhattan distance.  With the head at (0,0), one
    opposing head at (5,5) and food at (1,0), the target is (1,0). *)
Theorem select_target_spec (head : Coord) (heads foods : list Coord) :
  foods ≠ [] →
  (∃ t, Greedy.select_target head heads foods = Some t ∧ t ∈ foods
        ∧ ((∃ f, f ∈ foods ∧ winnable head heads f) →
           winnable head heads t
           ∧ ∀ f, f ∈ foods → winnable head heads f →
                  manhattan head t ≤ manhattan head f)
        ∧ ((¬ ∃ f, f ∈ foods ∧ winnable head heads f) →
           ∀ f, f ∈ foods → manhattan head t ≤ manhattan head f))
  ∧ Greedy.select_target (0, 0) [(5, 5)] [(1, 0)] = Some (1, 0)
  ∧ manhattan (0, 0) (1, 0) = 1 ∧ manhattan (5, 5) (1, 0) = 9.
Proof.
  intros Hne. split; [|done].
  assert (Hsel : Greedy.select_target head heads foods
                 = match Greedy.best_winnable head heads foods with
                   | Some (f, _) => Some f
                   | None => Greedy.nearest_food head foods
                   end) by (by destruct foods).
  rewrite Hsel. clear Hsel.
  assert (Hbw := best_winnable_fold head heads foods None ltac:(done)).
  unfold Greedy.best_winnable.
  destruct (fold_left _ foods None) as [[t d]|].
  - destruct Hbw as (Hd & Hw & [Hin|?] & Hmin & _); [|done].
    exists t. split; [done|]. split; [done|].
    destruct heads as [|oh heads].
    + assert (Hall : ∀ f, f ∈ foods → manhattan head t ≤ manhattan head f).
      { intros f Hf. rewrite d_opp_min_nil in Hw.
        destruct (Z.lt_ge_cases (manhattan head f) 1000000) as [Hlt|Hge];
          [|lia].
        rewrite <- Hd. apply Hmin; [done|]. by rewrite d_opp_min_nil. }
      split; [|done]. intros _. split; [|by intros f Hf _; apply Hall].
      by intros oh ?%elem_of_nil.
    + split.
      * intros _. split; [by apply d_opp_min_winnable|].
        intros f Hf Hwf. rewrite <- Hd. apply Hmin; [done|].
        by apply d_opp_min_winnable.
      * intros Hno. exfalso. apply Hno. exists t. split; [done|].
        by apply d_opp_min_winnable.
  - destruct Hbw as [_ Hno].
    destruct (min_by_spec (manhattan head) foods Hne) as (t & Ht & Hin & Hmin).
    exists t. unfold Greedy.nearest_food, nearest. split; [done|].
    split; [done|]. split; [|done].
    intros (f & Hf & Hwf). split; [|by intros f' Hf' _; apply Hmin].
    destruct heads as [|oh heads]; [by intros oh ?%elem_of_nil|].
    exfalso. apply (Hno f Hf). by apply d_opp_min_winnable.
Qed.

Lemma select_target_spec_witness :
  ∃ t, Greedy.select_target (0, 0) [(5, 5)] [(9, 9); (1, 0); (0, 2)] = Some t
       ∧ t ∈ [(9, 9); (1, 0); (0, 2)]
       ∧ ((∃ f, f ∈ [(9, 9); (1, 0); (0, 2)] ∧ winnable (0, 0) [(5, 5)] f) →
          winnable (0, 0) [(5, 5)] t
          ∧ ∀ f, f ∈ [(9, 9); (1, 0); (0, 2)] → winnable (0, 0) [(5, 5)] f →
                 manhattan (0, 0) t ≤ manhattan (0, 0) f)
       ∧ ((¬ ∃ f, f ∈ [(9, 9); (1, 0); (0, 2)]
                  ∧ winnable (0, 0) [(5, 5)] f) →
          ∀ f, f ∈ [(9, 9); (1, 0); (0, 2)] →
               manhattan (0, 0) t ≤ manhattan (0, 0) f).
Proof.
  apply (select_target_spec (0, 0) [(5, 5)] [(9, 9); (1, 0); (0, 2)]).
  discriminate.
Defined.

(** ** Scores and jitter *)

Lemma on_grid_proper (q q' : Q) : (q == q')%Q → on_grid q → on_grid q'.
Proof. intros Heq [z Hz]. exists z. by rewrite <- Heq. Qed.

Lemma on_grid_inject (z : Z) : on_grid (inject_Z z).
Proof. exists (z * 40). unfold Qeq, inject_Z. simpl. lia. Qed.

Lemma on_grid_plus (a b : Q) : on_grid a → on_grid b → on_grid (a + b).
Proof.
  intros [za Ha] [zb Hb]. exists (za + zb). rewrite Ha, Hb.
  unfold Qeq, Qplus. simpl. lia.
Qed.

Lemma on_grid_minus (a b : Q) : on_grid a → on_grid b → on_grid (a - b).
Proof.
  intros [za Ha] [zb Hb]. exists (za - zb). rewrite Ha, Hb.
  unfold Qeq, Qminus, Qplus, Qopp. simpl. lia.
Qed.

Lemma on_grid_scale (z : Z) (a : Q) : on_grid a → on_grid (inject_Z z * a).
Proof.
  intros [za Ha]. exists (z * za). rewrite Ha.
  unfold Qeq, Qmult, inject_Z. simpl. lia.
Qed.

Lemma on_grid_scale_r (z : Z) (a : Q) : on_grid a → on_grid (a * inject_Z z).
Proof.
  intros Ha. apply (on_grid_proper (inject_Z z * a)); [ring|].
  by apply on_grid_scale.
Qed.

Lemma on_grid_const (n : Z) (d : positive) :
  (Z.pos d | 40) → on_grid (n # d).
Proof.
  intros [k Hk]. exists (n * k). unfold Qeq. simpl.
  change (Z.pos 40) with 40. rewrite Hk. ring.
Qed.


(** A strict gap between two jitter-free scores cannot be closed by the
    jitter. *)
Lemma jitter_gap (a b r1 r2 : Q) :
  on_grid a → on_grid b → (a < b)%Q →
  (0 <= r1)%Q ∧ (r1 < 1)%Q → (0 <= r2)%Q ∧ (r2 < 1)%Q →
  (a + r1 * (1 # 100) < b + r2 * (1 # 100))%Q.
Proof.
  intros [za Ha] [zb Hb] Hlt [H1 H1'] [H2 H2'].
  rewrite Ha, Hb in *.
  assert (Hz : za + 1 ≤ zb).
  { unfold Qlt in Hlt. simpl in Hlt. lia. }
  assert (Hstep : ((za # 40) + (1 # 40) <= zb # 40)%Q).
  { unfold Qle, Qplus. simpl. lia. }
  lra.
Qed.

Section Pick.

Variable cs : list (string * Coord).
Variable score : Q → string * Coord → Q.

Hypothesis score_split :
  ∀ r c, (score r c == score 0 c + r * (1 # 100))%Q.
Hypothesis base_grid : ∀ c, c ∈ cs → on_grid (score 0 c).

(** The candidate picked by the sort has a greatest jitter-free score. *)
Lemma pick_max (rnd : nat → Q) :
  valid_draws rnd → cs ≠ [] →
  ∃ c, c ∈ cs
       ∧ best_move (imap (λ i c, (score (rnd i) c, c.1)) cs) = Some c.1
       ∧ ∀ c', c' ∈ cs → (score 0 c' <= score 0 c)%Q.
Proof.
  intros Hrnd Hne.
  destruct (best_move_max (imap (λ i c, (score (rnd i) c, c.1)) cs))
    as (e & He & Hb & Hmax); [by destruct cs|].
  apply list_elem_of_lookup in He as [i He].
  rewrite list_lookup_imap in He.
  destruct (cs !! i) as [c|] eqn:Hc; [|done]. simpl in He.
  inversion He; subst e. clear He. simpl in *.
  exists c. split; [by apply list_elem_of_lookup_2 in Hc|]. split; [done|].
  intros c' [j Hj]%list_elem_of_lookup.
  destruct (Qlt_le_dec (score 0 c) (score 0 c')) as [Hlt|Hle]; [|done].
  exfalso.
  assert (Hin : (score (rnd j) c', c'.1)
                ∈ imap (λ i c, (score (rnd i) c, c.1)) cs).
  { apply list_elem_of_lookup. exists j.
    by rewrite list_lookup_imap, Hj. }
  specialize (Hmax _ Hin). simpl in Hmax.
  pose proof (jitter_gap _ _ (rnd i) (rnd j)
                (base_grid c (list_elem_of_lookup_2 _ _ _ Hc))
                (base_grid c' (list_elem_of_lookup_2 _ _ _ Hj))
                Hlt (Hrnd i) (Hrnd j)) as Hgap.
  rewrite <- !score_split in Hgap.
  apply (Qlt_irrefl (score (rnd i) c)).
  by apply Qlt_le_trans with (score (rnd j) c').
Qed.


End Pick.

Lemma safe_score_split (gs : GameState) (t : Coord) (r : Q)
    (c : string * Coord) :
  (Safe.score gs t r c == Safe.score gs t 0 c + r * (1 # 100))%Q.
Proof. unfold Safe.score. ring. Qed.

Lemma safe_score_grid (gs : GameState) (t : Coord) (c : string * Coord) :
  on_grid (Safe.score gs t 0 c).
Proof.
  unfold Safe.score. repeat apply on_grid_plus.
  - apply on_grid_scale. grid_const.
  - apply on_grid_scale. grid_const.
  - grid_const.
Qed.

Lemma greedy_score_split (gs : GameState) (t : Coord) (r : Q)
    (c : string * Coord) :
  (Greedy.score gs t r c == Greedy.score gs t 0 c + r * (1 # 100))%Q.
Proof.
  unfold Greedy.score.
  destruct (Greedy.select_target _ _ _) as [target|]; [|ring].
  destruct (Greedy.bfs_distance (snake_head (you gs)) _ _ _ _ _),
    (Greedy.bfs_distance c.2 _ _ _ _ _); ring.
Qed.

Lemma greedy_score_grid (gs : GameState) (t : Coord) (c : string * Coord) :
  on_grid (Greedy.score gs t 0 c).
Proof.
  unfold Greedy.score.
  assert (Hpen : on_grid
            (if flood_fill_size c.2 (blocked_cells gs t) (width (board gs))
                  (height (board gs)) Greedy.SPACE_LIMIT <? 10
             then inject_Z (10 - flood_fill_size c.2 (blocked_cells gs t)
                                   (width (board gs)) (height (board gs))
                                   Greedy.SPACE_LIMIT) * Greedy.SPACE_WEIGHT
             else 0)%Q).
  { destruct (_ <? 10); [apply on_grid_scale|]; grid_const. }
  destruct (Greedy.select_target _ _ _) as [target|].
  - assert (Hbonus : on_grid
              (if manhattan c.2 target
                  <? Greedy.d_opp_min (Greedy.opp_heads gs) target
               then 0 + Greedy.WINNABLE_FOOD_BONUS else 0)%Q).
    { destruct (manhattan _ _ <? _); grid_const. }
    destruct (Greedy.bfs_distance (snake_head (you gs)) _ _ _ _ _),
      (Greedy.bfs_distance c.2 _ _ _ _ _);
      (apply on_grid_plus; [apply on_grid_minus; [apply on_grid_plus|]|]);
      try done; try grid_const.
    apply on_grid_scale. grid_const.
  - apply on_grid_plus; [apply on_grid_minus; [apply on_grid_plus|]|];
      try done; grid_const.
Qed.















(** ** What a returned move leads to *)






Lemma candidate_cell (gs : GameState) (t : Coord) (safe : string → bool)
    (avoid : gset Coord) (c : string * Coord) :
  c ∈ candidate_list (width (board gs)) (height (board gs))
        (snake_head (you gs)) safe (blocked_cells gs t) avoid →
  (∃ d, (c.1, d) ∈ DIRECTIONS ∧ c.2 = add (snake_head (you gs)) d)
  ∧ in_bounds c.2 (width (board gs)) (height (board gs)) = true
  ∧ (c.2 ∉ all_body_cells gs ∨ c.2 = t)
  ∧ c.2 ∉ avoid.
Proof.
  destruct c as [mv nxt].
  intros (d & Hd & -> & _ & Hb & Hnb & Hna)%candidate_list_elem. simpl.
  split; [by exists d|]. split; [done|]. split; [|done].
  unfold blocked_cells in Hnb.
  destruct (decide (add (snake_head (you gs)) d = t)); [by right|left].
  set_solver.
Qed.





(** ** Bounded BFS distance of greedy.py on a board without obstacles *)

Lemma manhattan_step (s c : Coord) (d : Z * Z) :
  d ∈ deltas →
  manhattan s (add c d) = manhattan s c + 1
  ∨ manhattan s (add c d) = manhattan s c - 1.
Proof.
  intros Hd. apply deltas_cases in Hd.
  unfold manhattan, add. destruct Hd as [-> | [-> | [-> | ->]]]; simpl; lia.
Qed.

(** A cell other than [s] has a neighbour that is one step closer to [s],
    in bounds when both are. *)
Lemma manhattan_pred (w h : Z) (s c : Coord) :
  in_bounds s w h = true → in_bounds c w h = true → 0 < manhattan s c →
  ∃ p d, d ∈ deltas ∧ c = add p d ∧ in_bounds p w h = true
         ∧ manhattan s p = manhattan s c - 1.
Proof.
  rewrite !in_bounds_spec. destruct s as [sx sy], c as [cx cy].
  unfold manhattan, add. simpl. intros Hs Hc Hm.
  destruct (Z.lt_trichotomy cx sx) as [Hx|[Hx|Hx]].
  - exists (cx + 1, cy), (-1, 0). rewrite deltas_cases, in_bounds_spec.
    simpl. split; [tauto|]. split; [f_equal; lia|]. lia.
  - destruct (Z.lt_trichotomy cy sy) as [Hy|[Hy|Hy]].
    + exists (cx, cy + 1), (0, -1). rewrite deltas_cases, in_bounds_spec.
      simpl. split; [tauto|]. split; [f_equal; lia|]. lia.
    + lia.
    + exists (cx, cy - 1), (0, 1). rewrite deltas_cases, in_bounds_spec.
      simpl. split; [tauto|]. split; [f_equal; lia|]. lia.
  - exists (cx - 1, cy), (1, 0). rewrite deltas_cases, in_bounds_spec.
    simpl. split; [tauto|]. split; [f_equal; lia|]. lia.
Qed.

Lemma bfs_visit_inl (target : Coord) (w h : Z) (cur : Coord) (dist x : Z)
    (ds : list (Z * Z)) :
  fold_left (Greedy.bfs_visit target ∅ w h cur dist) ds (inl x) = inl x.
Proof. induction ds as [|d ds IH]; simpl; [done|apply IH]. Qed.

(** The three outcomes of one pass of the inner loop on a board without
    blocked cells. *)
Lemma bfs_visit_cases (target : Coord) (w h : Z) (cur : Coord) (dist : Z)
    (seen : gset Coord) (q : list (Coord * Z)) (d : Z * Z) :
  (Greedy.bfs_visit target ∅ w h cur dist (inr (seen, q)) d = inr (seen, q)
   ∧ (in_bounds (add cur d) w h = false ∨ add cur d ∈ seen))
  ∨ (Greedy.bfs_visit target ∅ w h cur dist (inr (seen, q)) d
     = inl (dist + 1)
     ∧ in_bounds (add cur d) w h = true ∧ (add cur d ∉ seen)
     ∧ add cur d = target)
  ∨ (Greedy.bfs_visit target ∅ w h cur dist (inr (seen, q)) d
     = inr (seen ∪ {[add cur d]}, q ++ [(add cur d, dist + 1)])
     ∧ in_bounds (add cur d) w h = true ∧ (add cur d ∉ seen)
     ∧ add cur d ≠ target).
Proof.
  unfold Greedy.bfs_visit. cbv zeta.
  generalize (add cur d). intros k.
  destruct (in_bounds k w h) eqn:Hb; cbn [negb];
    [|left; split; [done|by left]].
  rewrite (bool_decide_eq_false_2 (k ∈ (∅ : gset Coord)))
    by apply not_elem_of_empty.
  cbn [orb]. case_bool_decide as Hs; [left; split; [done|by right]|].
  right.
  destruct (Z.eqb_spec k.1 target.1) as [Hx|Hx]; cbn [andb].
  - destruct (Z.eqb_spec k.2 target.2) as [Hy|Hy].
    + left. split; [done|]. split; [done|]. split; [done|].
      destruct k, target. simpl in *. by subst.
    + right. split; [done|]. split; [done|]. split; [done|].
      intros Heq. apply Hy. by rewrite Heq.
  - right. split; [done|]. split; [done|]. split; [done|].
    intros Heq. apply Hx. by rewrite Heq.
Qed.

(** The inner loop on [cur]: either the target is a fresh in-bounds
    neighbour and [dist + 1] is returned, or every fresh in-bounds neighbour
    joins the seen set and the queue. *)
Lemma bfs_visit_fold (target : Coord) (w h : Z) (cur : Coord) (dist : Z)
    (ds : list (Z * Z)) :
  ∀ (seen : gset Coord) (q : list (Coord * Z)),
    match fold_left (Greedy.bfs_visit target ∅ w h cur dist) ds
                    (inr (seen, q)) with
    | inl x =>
        x = dist + 1
        ∧ ∃ d, d ∈ ds ∧ add cur d = target
               ∧ in_bounds target w h = true
    | inr (seen', q') =>
        (∀ c, c ∈ seen' ↔
              c ∈ seen ∨ ∃ d, d ∈ ds ∧ c = add cur d
                              ∧ in_bounds c w h = true)
        ∧ (target ∉ seen → target ∉ seen')
        ∧ ∃ new, q' = q ++ ((λ c, (c, dist + 1)) <$> new) ∧ NoDup new
                 ∧ ∀ c, c ∈ new ↔ c ∈ seen' ∧ c ∉ seen
    end.
Proof.
  induction ds as [|d ds IH]; intros seen q.
  - simpl. split; [set_solver|]. split; [done|]. exists [].
    simpl. rewrite app_nil_r. split; [done|]. split; [constructor|set_solver].
  - cbn [fold_left].
    destruct (bfs_visit_cases target w h cur dist seen q d)
      as [[-> Hskip]|[(-> & Hb & Hs & Heq)|(-> & Hb & Hs & Hne)]].
    + specialize (IH seen q).
      destruct (fold_left _ ds (inr (seen, q))) as [x|[seen' q']].
      * destruct IH as [-> (d' & Hd' & Ht & Hbt)]. split; [done|].
        exists d'. split; [by right|done].
      * destruct IH as (H1 & H2 & H3). split; [|done].
        intros c. rewrite H1. split.
        -- intros [?|(d' & Hd' & -> & Hbc)]; [by left|].
           right. exists d'. split; [by right|done].
        -- intros [?|(d' & Hd' & -> & Hbc)]; [by left|].
           apply elem_of_cons in Hd' as [->|Hd'].
           ++ left. destruct Hskip as [Hf|?]; [congruence|done].
           ++ right. by exists d'.
    + rewrite bfs_visit_inl. split; [done|]. exists d.
      split; [by left|]. split; [done|]. by rewrite <- Heq.
    + specialize (IH (seen ∪ {[add cur d]}) (q ++ [(add cur d, dist + 1)])).
      destruct (fold_left _ ds (inr (seen ∪ {[add cur d]}, _)))
        as [x|[seen' q']].
      * destruct IH as [-> (d' & Hd' & Ht & Hbt)]. split; [done|].
        exists d'. split; [by right|done].
      * destruct IH as (H1 & H2 & (new & Hq & Hnd & Hnew)).
        assert (Hk : add cur d ∈ seen') by (apply H1; left; set_solver).
        split; [|split].
        -- intros c. rewrite H1, elem_of_union, elem_of_singleton. split.
           ++ intros [[?| ->]|(d' & Hd' & -> & Hbc)].
              ** by left.
              ** right. exists d. split; [by left|done].
              ** right. exists d'. split; [by right|done].
           ++ intros [?|(d' & Hd' & -> & Hbc)]; [by left; left|].
              apply elem_of_cons in Hd' as [->|Hd']; [by left; right|].
              right. by exists d'.
        -- intros Hts. apply H2. rewrite elem_of_union, elem_of_singleton.
           intros [?|Ht]; [done|]. by apply Hne.
        -- exists (add cur d :: new). rewrite Hq, <- app_assoc. simpl.
           split; [done|]. split.
           ++ constructor; [|done]. rewrite Hnew.
              intros [_ Hn]. apply Hn. set_solver.
           ++ intros c. rewrite elem_of_cons, Hnew, elem_of_union,
                elem_of_singleton.
              destruct (decide (c = add cur d)) as [->|Hc]; [tauto|].
              split; [|tauto]. intros [?|[? ?]]; [done|].
              split; [done|]. tauto.
Qed.

(** Once the cells at distance [L] are all popped, the queue holds the
    whole layer [L + 1]. *)
Lemma bfs_inv_shift (w h : Z) (start target : Coord) (L : Z)
    (P seen : gset Coord) (q2 : list (Coord * Z)) :
  in_bounds start w h = true →
  bfs_inv w h start target L P seen [] q2 →
  bfs_inv w h start target (L + 1) P seen q2 [].
Proof.
  intros Hs [Hnd Hseen Hdisj Hq1 Hq2 Hok Hpop Hcl Hbel HL].
  simpl in Hnd, Hseen, Hdisj.
  split; rewrite ?app_nil_r; try done.
  - by intros c d ?%elem_of_nil.
  - intros c Hc. specialize (Hpop c Hc). lia.
  - intros c Hb Hm.
    destruct (decide (manhattan start c ≤ L)) as [Hle|Hgt]; [by apply Hbel|].
    destruct (manhattan_pred w h start c Hs Hb) as (p & d & Hd & -> & Hbp & Hmp);
      [lia|].
    apply Hcl; [|done..].
    assert (Hps : p ∈ seen) by (apply Hbel; [done|lia]).
    apply Hseen in Hps as [?|Hpq]; [done|].
    apply list_elem_of_fmap in Hpq as ([p' dp] & -> & Hin).
    apply Hq2 in Hin as [_ Hin]. simpl in *. lia.
  - lia.
Qed.

(** One iteration of the while loop on the first queued cell. *)
Lemma bfs_step (w h : Z) (start target cur : Coord) (L dist : Z)
    (P seen : gset Coord) (q1 q2 : list (Coord * Z)) :
  in_bounds target w h = true →
  bfs_inv w h start target L P seen ((cur, dist) :: q1) q2 →
  (cur ∉ P) ∧ in_bounds cur w h = true ∧ manhattan start cur = L
  ∧ L < manhattan start target
  ∧ match fold_left (Greedy.bfs_visit target ∅ w h cur dist) deltas
                    (inr (seen, q1 ++ q2)) with
    | inl x => x = manhattan start target
    | inr (seen', q') =>
        ∃ q2', q' = q1 ++ q2'
               ∧ bfs_inv w h start target L (P ∪ {[cur]}) seen' q1 q2'
    end.
Proof.
  intros Ht [Hnd Hseen Hdisj Hq1 Hq2 Hok Hpop Hcl Hbel HL].
  destruct (Hq1 cur dist (list_elem_of_here _ _)) as [-> Hmcur].
  assert (Hcs : cur ∈ seen) by (apply Hseen; right; simpl; by left).
  assert (HcP : cur ∉ P).
  { intros Hp. apply (Hdisj _ Hp). simpl. by left. }
  assert (Hts : target ∉ seen) by (intros Hin; by apply Hok in Hin as [_ ?]).
  assert (HLt : L < manhattan start target).
  { destruct (decide (L < manhattan start target)); [done|].
    exfalso. apply Hts, Hbel; [done|lia]. }
  split; [done|]. split; [by apply Hok|]. split; [done|]. split; [done|].
  pose proof (bfs_visit_fold target w h cur (manhattan start cur) deltas seen
                (q1 ++ q2)) as Hfold.
  rewrite Hmcur in Hfold.
  destruct (fold_left _ deltas (inr (seen, q1 ++ q2))) as [x|[seen' q']].
  - destruct Hfold as [-> (d & Hd & Hadd & _)].
    destruct (manhattan_step start cur d Hd) as [Hm|Hm];
      rewrite Hadd in Hm; lia.
  - destruct Hfold as (H1 & H2 & (new & Hq & Hndn & Hnew)).
    exists (q2 ++ ((λ c, (c, L + 1)) <$> new)).
    split; [by rewrite Hq, app_assoc|].
    simpl in Hnd, Hseen, Hdisj. apply NoDup_cons in Hnd as [Hcq Hnd].
    assert (Hfst : (q1 ++ q2 ++ ((λ c, (c, L + 1)) <$> new)).*1
                   = (q1 ++ q2).*1 ++ new).
    { rewrite app_assoc, (fmap_app _ (q1 ++ q2)). f_equal.
      rewrite <- list_fmap_compose. apply list_fmap_id. }
    assert (Hsub : ∀ c, c ∈ seen → c ∈ seen') by (intros c ?; apply H1; by left).
    assert (Hnewb : ∀ c, c ∈ new →
              in_bounds c w h = true ∧ manhattan start c = L + 1).
    { intros c [Hc' Hc]%Hnew.
      apply H1 in Hc' as [?|(d & Hd & -> & Hb)]; [done|]. split; [done|].
      destruct (manhattan_step start cur d Hd) as [Hm|Hm]; [lia|].
      exfalso. apply Hc, Hbel; [done|lia]. }
    split.
    + rewrite Hfst. apply NoDup_app. split; [done|]. split; [|done].
      intros c Hc [_ Hc']%Hnew. apply Hc', Hseen. right. by right.
    + intros c. rewrite Hfst, elem_of_app, Hnew, elem_of_union,
        elem_of_singleton.
      specialize (Hseen c). specialize (Hsub c). rewrite elem_of_cons in Hseen.
      destruct (decide (c ∈ seen)); tauto.
    + intros c Hc. rewrite Hfst, elem_of_app, Hnew.
      apply elem_of_union in Hc as [Hc| ->%elem_of_singleton].
      * specialize (Hdisj c Hc). rewrite not_elem_of_cons in Hdisj.
        assert (c ∈ seen) by (apply Hseen; by left). tauto.
      * tauto.
    + intros c d Hin. apply Hq1. by right.
    + intros c d [Hin|Hin]%elem_of_app; [by apply Hq2|].
      apply list_elem_of_fmap in Hin as (c' & [= -> ->] & Hc').
      split; [done|]. by apply Hnewb.
    + intros c Hc. split.
      * apply H1 in Hc as [Hc|(d & _ & -> & Hb)]; [by apply Hok|done].
      * intros ->. by apply H2.
    + intros c [Hc| ->%elem_of_singleton]%elem_of_union; [by apply Hpop|lia].
    + intros c d [Hc| ->%elem_of_singleton]%elem_of_union Hd Hb.
      * by apply Hsub, Hcl.
      * apply H1. right. by exists d.
    + intros c Hb Hm. by apply Hsub, Hbel.
    + done.
Qed.

(** With an empty queue every cell of the board has been seen. *)
Lemma bfs_inv_exhausted (w h : Z) (start target : Coord) (L : Z)
    (P seen : gset Coord) :
  in_bounds start w h = true →
  bfs_inv w h start target L P seen [] [] →
  ∀ c, in_bounds c w h = true → c ∈ seen.
Proof.
  intros Hs [Hnd Hseen Hdisj Hq1 Hq2 Hok Hpop Hcl Hbel HL].
  assert (Hall : ∀ (n : nat) c, in_bounds c w h = true →
            manhattan start c ≤ Z.of_nat n → c ∈ seen).
  { induction n as [|n IH]; intros c Hb Hm; [apply Hbel; [done|lia]|].
    destruct (decide (manhattan start c ≤ Z.of_nat n)) as [?|Hgt];
      [by apply IH|].
    destruct (manhattan_pred w h start c Hs Hb) as (p & d & Hd & -> & Hbp & Hmp);
      [lia|].
    apply Hcl; [|done..].
    assert (Hps : p ∈ seen) by (apply IH; [done|lia]).
    apply Hseen in Hps as [?|Hpq]; [done|]. by apply elem_of_nil in Hpq. }
  intros c Hb. apply (Hall (Z.to_nat (manhattan start c))); [done|].
  unfold manhattan. lia.
Qed.

Lemma bfs_loop_inv (w h : Z) (start target : Coord) :
  in_bounds start w h = true → in_bounds target w h = true →
  ∀ (budget : nat) (L : Z) (P seen : gset Coord) (q1 q2 : list (Coord * Z)),
    bfs_inv w h start target L P seen q1 q2 →
    match Greedy.bfs_loop budget target ∅ w h seen (q1 ++ q2) with
    | Some x => x = manhattan start target
    | None => (budget < size (closer_cells w h start target ∖ P))%nat
    end.
Proof.
  intros Hs Ht.
  assert (Hnorm : ∀ L P seen q1 q2,
            bfs_inv w h start target L P seen q1 q2 →
            ∃ L' cur dist q1' q2',
              q1 ++ q2 = (cur, dist) :: q1' ++ q2'
              ∧ bfs_inv w h start target L' P seen ((cur, dist) :: q1') q2').
  { intros L P seen q1 q2 Hinv. destruct q1 as [|[cur dist] q1].
    - destruct q2 as [|[cur dist] q2].
      + exfalso. pose proof (bfs_inv_exhausted _ _ _ _ _ _ _ Hs Hinv _ Ht) as Hin.
        by apply (bi_ok _ _ _ _ _ _ _ _ _ Hinv) in Hin as [_ ?].
      + exists (L + 1), cur, dist, q2, []. rewrite app_nil_r.
        split; [done|]. by apply bfs_inv_shift.
    - by exists L, cur, dist, q1, q2. }
  assert (Hsize : ∀ L P seen cur dist q1 q2,
            bfs_inv w h start target L P seen ((cur, dist) :: q1) q2 →
            size (closer_cells w h start target ∖ P)
            = S (size (closer_cells w h start target ∖ (P ∪ {[cur]})))).
  { intros L P seen cur dist q1 q2 Hinv.
    destruct (bfs_step w h start target cur L dist P seen q1 q2 Ht Hinv)
      as (HcP & Hb & Hm & HLt & _).
    assert (Hin : cur ∈ closer_cells w h start target).
    { apply elem_of_filter. split; [lia|]. by apply in_bounds_board_cells. }
    assert (Heq : closer_cells w h start target ∖ P
                  = {[cur]} ∪ closer_cells w h start target ∖ (P ∪ {[cur]})).
    { apply set_eq. intros c. destruct (decide (c = cur)); set_solver. }
    rewrite Heq at 1.
    rewrite (size_union (C := gset (Z * Z))) by set_solver.
    by rewrite size_singleton. }
  induction budget as [|b IH]; intros L P seen q1 q2 Hinv;
    destruct (Hnorm _ _ _ _ _ Hinv) as (L' & cur & dist & q1' & q2' & Hq & Hinv');
    rewrite Hq.
  - simpl. rewrite (Hsize _ _ _ _ _ _ _ Hinv'). lia.
  - cbn [Greedy.bfs_loop].
    destruct (bfs_step w h start target cur L' dist P seen q1' q2' Ht Hinv')
      as (_ & _ & _ & _ & Hstep).
    destruct (fold_left _ deltas (inr (seen, q1' ++ q2'))) as [x|[seen' q']];
      [done|].
    destruct Hstep as (q2'' & -> & Hinv'').
    specialize (IH _ _ _ _ _ Hinv'').
    destruct (Greedy.bfs_loop b target ∅ w h seen' (q1' ++ q2'')); [done|].
    rewrite (Hsize _ _ _ _ _ _ _ Hinv'). lia.
Qed.

Lemma size_list_to_set_le (l : list Coord) :
  (size (list_to_set l : gset Coord) ≤ length l)%nat.
Proof.
  induction l as [|x l IH].
  - rewrite list_to_set_nil, size_empty. simpl. lia.
  - rewrite list_to_set_cons, size_union_alt, size_singleton. simpl.
    assert (size (list_to_set l ∖ {[x]} : gset Coord)
            ≤ size (list_to_set l : gset Coord))%nat
      by (apply subseteq_size; set_solver).
    lia.
Qed.

Lemma size_board_cells_le (w h : Z) :
  (size (Main.board_cells w h) ≤ Z.to_nat w * Z.to_nat h)%nat.
Proof.
  unfold Main.board_cells.
  etrans; [apply size_list_to_set_le|].
  assert (Hrow : ∀ (x : Z) (l : list Z),
            length (l ≫= λ y, [(x, y)]) = length l).
  { intros x l. induction l as [|y l IH]; [done|].
    rewrite bind_cons. simpl. by rewrite IH. }
  assert (Hall : ∀ l : list Z,
            length (l ≫= λ x, seqZ 0 h ≫= λ y, [(x, y)])
            = (length l * Z.to_nat h)%nat).
  { induction l as [|x l IH]; [done|].
    rewrite bind_cons, length_app, IH, Hrow, length_seqZ. simpl. lia. }
  rewrite Hall, length_seqZ. lia.
Qed.

Lemma closer_cells_size (w h : Z) (start target : Coord) :
  in_bounds target w h = true →
  Z.of_nat (size (closer_cells w h start target)) ≤ w * h - 1.
Proof.
  intros Ht.
  assert (Hsub : closer_cells w h start target ∪ {[target]}
                 ⊆ Main.board_cells w h).
  { intros c [Hc| ->%elem_of_singleton]%elem_of_union.
    - by apply elem_of_filter in Hc as [_ ?].
    - by apply in_bounds_board_cells. }
  apply subseteq_size in Hsub.
  rewrite size_union, size_singleton in Hsub.
  2:{ intros c Hc ->%elem_of_singleton.
      apply elem_of_filter in Hc as [Hc _]. lia. }
  pose proof (size_board_cells_le w h) as Hle.
  apply in_bounds_spec in Ht. nia.
Qed.

Lemma manhattan_zero (a b : Coord) : manhattan a b ≤ 0 → a = b.
Proof.
  destruct a, b. unfold manhattan. simpl. intros H. f_equal; lia.
Qed.

Lemma bfs_inv_init (w h : Z) (start target : Coord) :
  in_bounds start w h = true → start ≠ target →
  bfs_inv w h start target 0 ∅ {[start]} [(start, 0)] [].
Proof.
  intros Hs Hne. split; simpl.
  - apply NoDup_singleton.
  - set_solver.
  - set_solver.
  - intros c d [= -> ->]%list_elem_of_singleton. split; [done|].
    unfold manhattan. lia.
  - by intros c d ?%elem_of_nil.
  - intros c ->%elem_of_singleton. done.
  - set_solver.
  - set_solver.
  - intros c _ Hm. apply elem_of_singleton. symmetry.
    by apply manhattan_zero.
  - done.
Qed.

(** C8 (as stated, fails).  On the 19x19 board without obstacles, from the
    corner (0,0) to the opposite corner (18,18), the default cap of 120
    explored cells is used up before the target is met: the result is
    None. *)
Lemma bfs_distance_cap_exhausted :
  in_bounds (0, 0) 19 19 = true ∧ in_bounds (18, 18) 19 19 = true
  ∧ Greedy.bfs_distance (0, 0) (18, 18) ∅ 19 19 Greedy.SPACE_LIMIT = None.
Proof. by vm_compute. Qed.

(** C8 (amended).  On a board without blocked cells and for two distinct
    in-bounds cells: whenever bfs_distance returns a distance, it is the
    Manhattan distance between the two cells, for every cap; it does return
    it when the cells of the board strictly closer to the start than the
    target number at most the cap, hence on every board of at most cap + 1
    cells, and with the default cap of 120 on every board of at most 121
    cells, the 11x11 board included. *)
Theorem bfs_distance_open_board (w h limit : Z) (start target : Coord) :
  in_bounds start w h = true → in_bounds target w h = true →
  start ≠ target →
  (∀ d, Greedy.bfs_distance start target ∅ w h limit = Some d →
        d = manhattan start target)
  ∧ (Z.of_nat (size (closer_cells w h start target)) ≤ limit →
     Greedy.bfs_distance start target ∅ w h limit
     = Some (manhattan start target))
  ∧ (w * h ≤ limit + 1 →
     Greedy.bfs_distance start target ∅ w h limit
     = Some (manhattan start target))
  ∧ (w * h ≤ 121 →
     Greedy.bfs_distance start target ∅ w h Greedy.SPACE_LIMIT
     = Some (manhattan start target)).
Proof.
  intros Hs Ht Hne.
  assert (Hrun : ∀ lim,
    Greedy.bfs_distance start target ∅ w h lim
    = Greedy.bfs_loop (Z.to_nat lim) target ∅ w h {[start]} [(start, 0)]).
  { intros lim. unfold Greedy.bfs_distance.
    rewrite !bool_decide_eq_false_2 by set_solver. done. }
  assert (Hloop : ∀ lim,
    match Greedy.bfs_distance start target ∅ w h lim with
    | Some x => x = manhattan start target
    | None => (Z.to_nat lim < size (closer_cells w h start target))%nat
    end).
  { intros lim. rewrite Hrun.
    pose proof (bfs_loop_inv w h start target Hs Ht (Z.to_nat lim) 0 ∅
                  {[start]} [(start, 0)] [] (bfs_inv_init w h _ _ Hs Hne))
      as Hl.
    simpl in Hl. destruct (Greedy.bfs_loop _ _ _ _ _ _ _); [done|].
    by rewrite difference_empty_L in Hl. }
  assert (Hsome : ∀ lim,
    Z.of_nat (size (closer_cells w h start target)) ≤ lim →
    Greedy.bfs_distance start target ∅ w h lim
    = Some (manhattan start target)).
  { intros lim Hle. specialize (Hloop lim).
    destruct (Greedy.bfs_distance start target ∅ w h lim); [by subst|lia]. }
  pose proof (closer_cells_size w h start target Ht) as Hsz.
  split; [|split; [|split]].
  - intros d Hd. specialize (Hloop limit). by rewrite Hd in Hloop.
  - apply Hsome.
  - intros Hwh. apply Hsome. lia.
  - intros Hwh. apply Hsome. unfold Greedy.SPACE_LIMIT. lia.
Qed.

Lemma bfs_distance_open_board_witness :
  Greedy.bfs_distance (0, 0) (10, 10) ∅ 11 11 Greedy.SPACE_LIMIT
  = Some (manhattan (0, 0) (10, 10)).
Proof.
  destruct (bfs_distance_open_board 11 11 Greedy.SPACE_LIMIT (0, 0) (10, 10))
    as (_ & _ & _ & H); [reflexivity|reflexivity|discriminate|].
  apply H. lia.
Defined.

(** ** Helpers: distance, preferences, nearest point *)

(** X1. manhattan is a metric on the cells. *)
Theorem manhattan_metric (a b c : Coord) :
  0 ≤ manhattan a b
  ∧ manhattan a b = manhattan b a
  ∧ (manhattan a b = 0 ↔ a = b)
  ∧ manhattan a c ≤ manhattan a b + manhattan b c.
Proof.
  destruct a as [ax ay], b as [bx b_y], c as [cx cy]. unfold manhattan.
  simpl. split; [lia|]. split; [lia|]. split; [|lia].
  split; [intros H; f_equal; lia|intros [= -> ->]; lia].
Qed.

Lemma move_towards_elem (src dst : Coord) (mv : string) :
  mv ∈ move_towards src (Some dst) ↔
  (mv = "right" ∧ src.1 < dst.1) ∨ (mv = "left" ∧ dst.1 < src.1)
  ∨ (mv = "up" ∧ src.2 < dst.2) ∨ (mv = "down" ∧ dst.2 < src.2).
Proof.
  unfold move_towards. cbv zeta.
  destruct (Z.abs (dst.2 - src.2) <=? Z.abs (dst.1 - src.1));
    rewrite !elem_of_app;
    destruct (Z.ltb_spec 0 (dst.1 - src.1)), (Z.ltb_spec (dst.1 - src.1) 0),
      (Z.ltb_spec 0 (dst.2 - src.2)), (Z.ltb_spec (dst.2 - src.2) 0);
    rewrite ?list_elem_of_singleton, ?elem_of_nil; try lia;
    intuition lia.
Qed.

Lemma move_towards_closer (src dst : Coord) (mv : string) :
  mv ∈ move_towards src (Some dst) →
  ∃ d, (mv, d) ∈ DIRECTIONS
       ∧ manhattan (add src d) dst = manhattan src dst - 1.
Proof.
  intros Hmv. apply move_towards_elem in Hmv.
  destruct src as [sx sy], dst as [tx ty]. simpl in Hmv.
  destruct Hmv as [[-> H]|[[-> H]|[[-> H]|[-> H]]]].
  - exists (1, 0). split; [set_solver|]. unfold manhattan, add. simpl. lia.
  - exists (-1, 0). split; [set_solver|]. unfold manhattan, add. simpl. lia.
  - exists (0, 1). split; [set_solver|]. unfold manhattan, add. simpl. lia.
  - exists (0, -1). split; [set_solver|]. unfold manhattan, add. simpl. lia.
Qed.

Lemma move_towards_nil (src dst : Coord) :
  move_towards src (Some dst) = [] ↔ src = dst.
Proof.
  split.
  - intros Hnil. destruct src as [sx sy], dst as [tx ty].
    assert (Hno : ∀ mv, ¬ mv ∈ move_towards (sx, sy) (Some (tx, ty)))
      by (intros mv; rewrite Hnil; apply not_elem_of_nil).
    pose proof (Hno "right") as H1. pose proof (Hno "left") as H2.
    pose proof (Hno "up") as H3. pose proof (Hno "down") as H4.
    rewrite move_towards_elem in H1, H2, H3, H4. simpl in H1, H2, H3, H4.
    assert (¬ sx < tx) by (intros ?; apply H1; left; by split).
    assert (¬ tx < sx) by (intros ?; apply H2; right; left; by split).
    assert (¬ sy < ty) by (intros ?; apply H3; right; right; left; by split).
    assert (¬ ty < sy) by (intros ?; apply H4; right; right; right; by split).
    f_equal; lia.
  - intros ->. destruct dst as [tx ty]. unfold move_towards. simpl.
    rewrite !Z.sub_diag. done.
Qed.

Lemma move_towards_shape (src dst : Coord) :
  NoDup (move_towards src (Some dst))
  ∧ (length (move_towards src (Some dst)) ≤ 2)%nat
  ∧ ∀ mv, head (move_towards src (Some dst)) = Some mv →
      (mv = "right" ∨ mv = "left"
       ↔ Z.abs (dst.2 - src.2) ≤ Z.abs (dst.1 - src.1)).
Proof.
  destruct src as [sx sy], dst as [tx ty]. unfold move_towards. simpl.
  destruct (Z.leb_spec (Z.abs (ty - sy)) (Z.abs (tx - sx)));
    destruct (Z.ltb_spec 0 (tx - sx)), (Z.ltb_spec (tx - sx) 0),
      (Z.ltb_spec 0 (ty - sy)), (Z.ltb_spec (ty - sy) 0);
    simpl; try lia;
    (split; [repeat (constructor; [set_solver|]); constructor|]);
    (split; [lia|]); intros mv; try discriminate; intros [= <-];
    (split; [intros Hmv|intros Hle]); try lia; try tauto;
    destruct Hmv; discriminate.
Qed.

(** X2. Every preference returned by move_towards is a direction whose step
    brings the source one closer, by Manhattan distance, to the
    destination; there is none exactly when the two cells coincide or the
    destination is None; at most two are returned, without repetition, and
    the first one is horizontal exactly when the horizontal distance is at
    least the vertical one. *)
Theorem move_towards_spec (src dst : Coord) :
  (∀ mv, mv ∈ move_towards src (Some dst) →
     ∃ d, (mv, d) ∈ DIRECTIONS
          ∧ manhattan (add src d) dst = manhattan src dst - 1)
  ∧ (move_towards src (Some dst) = [] ↔ src = dst)
  ∧ move_towards src None = []
  ∧ NoDup (move_towards src (Some dst))
  ∧ (length (move_towards src (Some dst)) ≤ 2)%nat
  ∧ ∀ mv, head (move_towards src (Some dst)) = Some mv →
      (mv = "right" ∨ mv = "left"
       ↔ Z.abs (dst.2 - src.2) ≤ Z.abs (dst.1 - src.1)).
Proof.
  split; [apply move_towards_closer|].
  split; [apply move_towards_nil|]. split; [done|].
  apply move_towards_shape.
Qed.

Lemma move_towards_spec_witness :
  ∃ d, ("left", d) ∈ DIRECTIONS
       ∧ manhattan (add (5, 5) d) (1, 7) = manhattan (5, 5) (1, 7) - 1.
Proof.
  destruct (move_towards_spec (5, 5) (1, 7)) as [H _].
  apply H. vm_compute. left.
Defined.

Lemma min_by_first {A} (key : A → Z) (l : list A) (a : A) :
  ∃ l1 l2,
    a :: l = l1 ++ fold_left
                     (λ best c, if key c <? key best then c else best) l a
                   :: l2
    ∧ (∀ x, x ∈ l1 →
         key (fold_left (λ best c, if key c <? key best then c else best)
                        l a) < key x)
    ∧ ∀ x, x ∈ l2 →
         key (fold_left (λ best c, if key c <? key best then c else best)
                        l a) ≤ key x.
Proof.
  (* generalised over the prefix already scanned *)
  assert (Hgen : ∀ l pre a post,
    (∀ x, x ∈ pre → key a < key x) → (∀ x, x ∈ post → key a ≤ key x) →
    ∃ l1 l2,
      pre ++ a :: post ++ l
      = l1 ++ fold_left (λ best c, if key c <? key best then c else best) l a
           :: l2
      ∧ (∀ x, x ∈ l1 →
           key (fold_left (λ best c, if key c <? key best then c else best)
                          l a) < key x)
      ∧ ∀ x, x ∈ l2 →
           key (fold_left (λ best c, if key c <? key best then c else best)
                          l a) ≤ key x).
  { clear l a. induction l as [|b l IH]; intros pre a post Hpre Hpost.
    - exists pre, post. rewrite app_nil_r. done.
    - cbn [fold_left]. destruct (Z.ltb_spec (key b) (key a)) as [Hlt|Hge].
      + destruct (IH (pre ++ a :: post) b []) as (l1 & l2 & Heq & H1 & H2).
        * intros x [Hx|[->|Hx]%elem_of_cons]%elem_of_app.
          -- specialize (Hpre x Hx). lia.
          -- done.
          -- specialize (Hpost x Hx). lia.
        * by intros x ?%elem_of_nil.
        * exists l1, l2. split; [|done].
          rewrite <- Heq. by rewrite <- !app_assoc.
      + destruct (IH pre a (post ++ [b])) as (l1 & l2 & Heq & H1 & H2).
        * done.
        * intros x [Hx| ->%list_elem_of_singleton]%elem_of_app;
            [by apply Hpost|done].
        * exists l1, l2. split; [|done].
          rewrite <- Heq. by rewrite <- !app_assoc. }
  destruct (Hgen l [] a []) as (l1 & l2 & Heq & H1 & H2);
    [by intros x ?%elem_of_nil..|].
  by exists l1, l2.
Qed.

(** X3. nearest_food / nearest: None exactly on the empty list; otherwise the
    first point of least Manhattan distance: the points before it are
    strictly farther, the points after it at least as far. *)
Theorem nearest_spec (centre : Coord) (points : list Coord) :
  (nearest centre points = None ↔ points = [])
  ∧ ∀ t, nearest centre points = Some t →
      ∃ l1 l2, points = l1 ++ t :: l2
        ∧ (∀ x, x ∈ l1 → manhattan centre t < manhattan centre x)
        ∧ (∀ x, x ∈ l2 → manhattan centre t ≤ manhattan centre x).
Proof.
  unfold nearest, min_by. destruct points as [|a l].
  - split; [done|]. discriminate.
  - split; [split; discriminate|]. intros t [= <-].
    apply min_by_first.
Qed.

Lemma nearest_spec_witness :
  ∃ l1 l2, [(4, 4); (1, 0); (0, 1)] = l1 ++ (1, 0) :: l2
    ∧ (∀ x, x ∈ l1 → manhattan (0, 0) (1, 0) < manhattan (0, 0) x)
    ∧ (∀ x, x ∈ l2 → manhattan (0, 0) (1, 0) ≤ manhattan (0, 0) x).
Proof.
  destruct (nearest_spec (0, 0) [(4, 4); (1, 0); (0, 1)]) as [_ H].
  apply H. reflexivity.
Defined.

(** ** Flood fill: bounds and monotonicity *)

Lemma flood_fill_size_neg (start : Coord) (blocked : gset Coord)
    (w h limit : Z) :
  limit ≤ 0 → flood_fill_size start blocked w h limit = 0.
Proof.
  intros Hl. unfold flood_fill_size. destruct (_ || _); [done|].
  replace (Z.to_nat limit) with 0%nat by lia. done.
Qed.

Lemma reachable_mono (b1 b2 : gset Coord) (w h : Z) (start c : Coord) :
  b1 ⊆ b2 → reachable b2 w h start c → reachable b1 w h start c.
Proof.
  intros Hsub. induction 1 as [[Hb Hn]|c d Hr IH Hd [Hb Hn]].
  - apply reach_start. split; [done|set_solver].
  - apply reach_step; [done..|]. split; [done|set_solver].
Qed.

Lemma flood_fill_size_range (start : Coord) (blocked : gset Coord)
    (w h limit : Z) :
  0 ≤ flood_fill_size start blocked w h limit
  ∧ flood_fill_size start blocked w h limit ≤ Z.max 0 limit
  ∧ flood_fill_size start blocked w h limit
    ≤ Z.of_nat (size (Main.board_cells w h))
  ∧ (free_cell blocked w h start → 1 ≤ limit →
     1 ≤ flood_fill_size start blocked w h limit).
Proof.
  destruct (Z.le_gt_cases limit 0) as [Hneg|Hpos].
  { rewrite flood_fill_size_neg by done. lia. }
  destruct (reachable_set_exists blocked w h start) as [R HR].
  rewrite (flood_fill_size_count start blocked w h limit R) by (done || lia).
  assert (Hsub : R ⊆ Main.board_cells w h).
  { intros c Hc. apply in_bounds_board_cells.
    apply HR, reachable_free in Hc. apply Hc. }
  apply subseteq_size in Hsub.
  split; [lia|]. split; [lia|]. split; [lia|].
  intros Hfree _.
  assert (Hin : {[start]} ⊆ R).
  { intros c ->%elem_of_singleton. apply HR. by constructor. }
  apply subseteq_size in Hin. rewrite size_singleton in Hin. lia.
Qed.

(** X4. The flood-fill count lies between 0 and the cap (a cap below 0 counts
    as 0), never exceeds the number of cells of the board, and is 0 exactly
    when the start cell is blocked or out of bounds or the cap is not
    positive. *)
Theorem flood_fill_size_bounds (start : Coord) (blocked : gset Coord)
    (w h limit : Z) :
  0 ≤ flood_fill_size start blocked w h limit ≤ Z.max 0 limit
  ∧ flood_fill_size start blocked w h limit
    ≤ Z.of_nat (size (Main.board_cells w h))
  ∧ (flood_fill_size start blocked w h limit = 0 ↔
     start ∈ blocked ∨ in_bounds start w h = false ∨ limit ≤ 0).
Proof.
  destruct (flood_fill_size_range start blocked w h limit)
    as (H0 & Hmax & Hsize & Hone).
  split; [done|]. split; [done|]. split.
  - intros Hz.
    destruct (decide (start ∈ blocked)) as [?|Hnb]; [by left|].
    destruct (in_bounds start w h) eqn:Hb; [|by right; left].
    destruct (Z.le_gt_cases limit 0) as [?|Hpos]; [by right; right|].
    exfalso. assert (1 ≤ flood_fill_size start blocked w h limit); [|lia].
    apply Hone; [by split|lia].
  - intros [Hbl|[Hob|Hneg]].
    + apply flood_fill_size_blocked. by left.
    + apply flood_fill_size_blocked. by right.
    + by apply flood_fill_size_neg.
Qed.

(** X5. Raising the cap never lowers the count, and blocking more cells never
    raises it. *)
Theorem flood_fill_size_mono (start : Coord) (b1 b2 : gset Coord)
    (w h l1 l2 : Z) :
  l1 ≤ l2 → b1 ⊆ b2 →
  flood_fill_size start b2 w h l1 ≤ flood_fill_size start b1 w h l2.
Proof.
  intros Hl Hb.
  destruct (Z.le_gt_cases l1 0) as [Hneg|Hpos].
  { rewrite (flood_fill_size_neg start b2) by done.
    apply flood_fill_size_range. }
  destruct (reachable_set_exists b1 w h start) as [R1 HR1].
  destruct (reachable_set_exists b2 w h start) as [R2 HR2].
  rewrite (flood_fill_size_count start b2 w h l1 R2) by (done || lia).
  rewrite (flood_fill_size_count start b1 w h l2 R1) by (done || lia).
  assert (Hsub : R2 ⊆ R1).
  { intros c Hc. apply HR1, (reachable_mono b1 b2); [done|]. by apply HR2. }
  apply subseteq_size in Hsub. lia.
Qed.

Lemma flood_fill_size_mono_witness :
  flood_fill_size (0, 0) (list_to_set [(1, 0); (0, 1)]) 3 3 5
  ≤ flood_fill_size (0, 0) (list_to_set [(1, 0)]) 3 3 64.
Proof.
  apply flood_fill_size_mono; [lia|].
  intros c. rewrite !elem_of_list_to_set, !elem_of_cons. tauto.
Defined.

(** ** The safety filter: reversal rule and candidate list *)

(** X6. The neck check clears exactly the directions on whose side the neck
    strictly lies; with a body shorter than 2, or with the neck stacked on
    the head, every direction stays True. *)
Theorem is_move_safe_spec (my_head : Coord) (my_body : list Coord)
    (mv : string) :
  is_move_safe my_head my_body mv = false ↔
  ∃ neck, my_body !! 1%nat = Some neck
    ∧ ((mv = "left" ∧ neck.1 < my_head.1)
       ∨ (mv = "right" ∧ my_head.1 < neck.1)
       ∨ (mv = "down" ∧ neck.2 < my_head.2)
       ∨ (mv = "up" ∧ my_head.2 < neck.2)).
Proof.
  unfold is_move_safe. destruct (my_body !! 1%nat) as [neck|].
  2:{ split; [discriminate|]. by intros (neck & ? & _). }
  split.
  - intros H. exists neck. split; [done|]. revert H.
    destruct (Z.ltb_spec neck.1 my_head.1), (Z.ltb_spec my_head.1 neck.1),
      (Z.ltb_spec neck.2 my_head.2), (Z.ltb_spec my_head.2 neck.2);
      try lia; unfold insert, fn_insert;
      repeat case_decide; subst; try discriminate; intros _; tauto.
  - intros (neck' & [= <-] & Hcase).
    destruct Hcase as [[-> H]|[[-> H]|[[-> H]|[-> H]]]];
      destruct (Z.ltb_spec neck.1 my_head.1), (Z.ltb_spec my_head.1 neck.1),
        (Z.ltb_spec neck.2 my_head.2), (Z.ltb_spec my_head.2 neck.2);
      try lia; reflexivity.
Qed.

(** X7. The candidate names follow the order up, down, left, right without
    repetition (so there are at most four), and each candidate cell is the
    head moved by the delta of its name. *)
Theorem candidate_list_shape (w h : Z) (my_head : Coord)
    (safe : string → bool) (blocked avoid : gset Coord) :
  (candidate_list w h my_head safe blocked avoid).*1
    `sublist_of` ["up"; "down"; "left"; "right"]
  ∧ NoDup (candidate_list w h my_head safe blocked avoid).*1
  ∧ (length (candidate_list w h my_head safe blocked avoid) ≤ 4)%nat
  ∧ Forall (λ c, ∃ d, (c.1, d) ∈ DIRECTIONS ∧ c.2 = add my_head d
                      ∧ manhattan my_head c.2 = 1)
           (candidate_list w h my_head safe blocked avoid).
Proof.
  assert (Hsub : (candidate_list w h my_head safe blocked avoid).*1
                   `sublist_of` ["up"; "down"; "left"; "right"]).
  { unfold candidate_list, DIRECTIONS. cbn [omap list_omap fst snd].
    repeat (destruct (_ && _ && _ && _); cbn [fmap list_fmap fst];
            [apply sublist_skip|apply sublist_cons]);
      try apply sublist_nil. }
  split; [done|]. split; [|split].
  - eapply sublist_NoDup; [|exact Hsub].
    repeat (constructor; [set_solver|]). constructor.
  - apply sublist_length in Hsub. rewrite length_fmap in Hsub. simpl in Hsub.
    lia.
  - apply Forall_forall. intros [mv nxt] Hc.
    apply candidate_list_elem in Hc as (d & Hd & -> & _).
    exists d. split; [done|]. split; [done|].
    apply DIRECTIONS_cases in Hd.
    destruct my_head as [hx hy]. unfold manhattan, add.
    destruct Hd as [[_ ->]|[[_ ->]|[[_ ->]|[_ ->]]]]; simpl; lia.
Qed.

(** ** Food and hunger *)

Lemma safe_score_with_food (gs : GameState) (fd : list Coord) (t : Coord)
    (r : Q) (c : string * Coord) :
  50 < snake_health (you gs) →
  Safe.score (with_food gs fd) t r c = Safe.score gs t r c.
Proof.
  intros Hh. unfold Safe.score, Safe.food_target.
  change (snake_health (you (with_food gs fd))) with (snake_health (you gs)).
  destruct (Z.leb_spec (snake_health (you gs)) 50); [lia|]. reflexivity.
Qed.

Lemma aggressive_score_with_food (gs : GameState) (fd : list Coord)
    (t : Coord) (r : Q) (c : string * Coord) :
  Aggressive.HUNGER_THRESHOLD < snake_health (you gs) →
  Aggressive.score (with_food gs fd) t r c = Aggressive.score gs t r c.
Proof.
  intros Hh. unfold Aggressive.score, Aggressive.food_score,
    Aggressive.food_target.
  change (snake_health (you (with_food gs fd))) with (snake_health (you gs)).
  destruct (Z.leb_spec (snake_health (you gs)) Aggressive.HUNGER_THRESHOLD);
    [lia|].
  reflexivity.
Qed.

(** X8. safe.py looks at the food only when its health is at most 50 and
    aggressive.py only when its health is at most 35: above the threshold
    the move does not depend on the food list. *)
Theorem food_ignored_when_healthy (gs : GameState) (fd : list Coord)
    (rnd : nat → Q) :
  (50 < snake_health (you gs) →
   Safe.move (with_food gs fd) rnd = Safe.move gs rnd)
  ∧ (35 < snake_health (you gs) →
     Aggressive.move (with_food gs fd) rnd = Aggressive.move gs rnd).
Proof.
  split; intros Hh.
  - unfold Safe.move.
    change (snake_body (you (with_food gs fd))) with (snake_body (you gs)).
    destruct (last (snake_body (you gs))) as [t|]; [|done].
    change (Safe.candidates (with_food gs fd) t) with (Safe.candidates gs t).
    destruct (Safe.candidates gs t) as [|p l]; [done|]. f_equal.
    apply imap_ext. intros i c _. simpl.
    by rewrite safe_score_with_food.
  - unfold Aggressive.move.
    change (snake_body (you (with_food gs fd))) with (snake_body (you gs)).
    destruct (last (snake_body (you gs))) as [t|]; [|done].
    change (Aggressive.candidates (with_food gs fd) t)
      with (Aggressive.candidates gs t).
    destruct (Aggressive.candidates gs t) as [|p l]; [done|]. f_equal.
    apply imap_ext. intros i c _. simpl.
    by rewrite aggressive_score_with_food.
Qed.

Lemma food_ignored_when_healthy_witness :
  Safe.move (with_food gs_tail [(3, 1)]) no_jitter
  = Safe.move gs_tail no_jitter.
Proof.
  destruct (food_ignored_when_healthy gs_tail [(3, 1)] no_jitter) as [H _].
  apply H. by vm_compute.
Defined.

(** ** The trap estimate of aggressive.py *)

Lemma min_space_fold (sb : gset Coord) (w h : Z) (oh : Coord)
    (ds : list (Z * Z)) :
  ∀ acc : option Z,
    match fold_left
            (λ ms d,
               let cand := add oh d in
               if negb (in_bounds cand w h) then ms
               else if bool_decide (cand ∈ sb) then ms
               else
                 let ssz := flood_fill_size cand sb w h
                              Aggressive.SPACE_LIMIT in
                 match ms with
                 | None => Some ssz
                 | Some m => if ssz <? m then Some ssz else ms
                 end)
            ds acc with
    | None => acc = None ∧ ∀ d, d ∈ ds → ¬ free_cell sb w h (add oh d)
    | Some m =>
        (acc = Some m
         ∨ ∃ d, d ∈ ds ∧ free_cell sb w h (add oh d)
                ∧ m = flood_fill_size (add oh d) sb w h
                        Aggressive.SPACE_LIMIT)
        ∧ (∀ a, acc = Some a → m ≤ a)
        ∧ ∀ d, d ∈ ds → free_cell sb w h (add oh d) →
               m ≤ flood_fill_size (add oh d) sb w h Aggressive.SPACE_LIMIT
    end.
Proof.
  induction ds as [|d ds IH]; intros acc.
  - simpl. destruct acc as [m|].
    + split; [by left|]. split; [by intros a [= ->]|].
      by intros d ?%elem_of_nil.
    + split; [done|]. by intros d ?%elem_of_nil.
  - cbn [fold_left]. cbv zeta.
    assert (Hskip : ¬ free_cell sb w h (add oh d) →
      match fold_left
              (λ ms d0,
                 let cand := add oh d0 in
                 if negb (in_bounds cand w h) then ms
                 else if bool_decide (cand ∈ sb) then ms
                 else
                   let ssz := flood_fill_size cand sb w h
                                Aggressive.SPACE_LIMIT in
                   match ms with
                   | None => Some ssz
                   | Some m => if ssz <? m then Some ssz else ms
                   end)
              ds acc with
      | None => acc = None
                ∧ ∀ d0, d0 ∈ d :: ds → ¬ free_cell sb w h (add oh d0)
      | Some m =>
          (acc = Some m
           ∨ ∃ d0, d0 ∈ d :: ds ∧ free_cell sb w h (add oh d0)
                   ∧ m = flood_fill_size (add oh d0) sb w h
                           Aggressive.SPACE_LIMIT)
          ∧ (∀ a, acc = Some a → m ≤ a)
          ∧ ∀ d0, d0 ∈ d :: ds → free_cell sb w h (add oh d0) →
                  m ≤ flood_fill_size (add oh d0) sb w h
                        Aggressive.SPACE_LIMIT
      end).
    { intros Hnf. specialize (IH acc).
      destruct (fold_left _ ds acc) as [m|].
      - destruct IH as (Hfrom & Hle & Hmin). split; [|split; [done|]].
        + destruct Hfrom as [?|(d' & Hd' & Hf & Hm)]; [by left|].
          right. exists d'. split; [by right|done].
        + intros d' [->|?]%elem_of_cons Hf; [done|by apply Hmin].
      - destruct IH as [-> Hno]. split; [done|].
        intros d' [->|?]%elem_of_cons; [done|by apply Hno]. }
    destruct (in_bounds (add oh d) w h) eqn:Hb; cbn [negb];
      [|apply Hskip; intros [? _]; congruence].
    case_bool_decide as Hs; [apply Hskip; by intros [_ ?]|].
    clear Hskip.
    set (ssz := flood_fill_size (add oh d) sb w h Aggressive.SPACE_LIMIT).
    set (acc' := match acc with
                 | Some m => if ssz <? m then Some ssz else acc
                 | None => Some ssz
                 end).
    assert (Hacc' : ∃ m', acc' = Some m' ∧ m' ≤ ssz
                          ∧ (∀ a, acc = Some a → m' ≤ a)
                          ∧ (m' = ssz ∨ acc = Some m')).
    { unfold acc'. destruct acc as [a|].
      - destruct (Z.ltb_spec ssz a).
        + exists ssz. split; [done|]. split; [lia|].
          split; [intros ? [= <-]; lia|by left].
        + exists a. split; [done|]. split; [lia|].
          split; [intros ? [= <-]; lia|by right].
      - exists ssz. split; [done|]. split; [lia|]. split; [done|by left]. }
    destruct Hacc' as (m' & Hm' & Hle' & Hacc & Hsrc).
    specialize (IH acc'). destruct (fold_left _ ds acc') as [m|].
    + destruct IH as (Hfrom & Hle & Hmin).
      specialize (Hle m' Hm'). split; [|split].
      * destruct Hfrom as [Heq|(d' & Hd' & Hf & Hm)].
        -- rewrite Hm' in Heq. injection Heq as <-.
           destruct Hsrc as [->|?]; [|by left].
           right. exists d. split; [by left|]. by split.
        -- right. exists d'. split; [by right|done].
      * intros a Ha. specialize (Hacc a Ha). lia.
      * intros d' [->|?]%elem_of_cons Hf; [fold ssz; lia|by apply Hmin].
    + destruct IH as [Hnone _]. congruence.
Qed.

(** X9. min_space is None exactly when no neighbour of the opposing head is in
    bounds and unblocked; otherwise it is the least flood-fill count over
    those neighbours, a number between 1 and SPACE_LIMIT. *)
Theorem min_space_spec (sb : gset Coord) (w h : Z) (oh : Coord) :
  (Aggressive.min_space sb w h oh = None ↔
   ∀ d, d ∈ deltas → ¬ free_cell sb w h (add oh d))
  ∧ ∀ m, Aggressive.min_space sb w h oh = Some m →
      (∃ d, d ∈ deltas ∧ free_cell sb w h (add oh d)
            ∧ m = flood_fill_size (add oh d) sb w h Aggressive.SPACE_LIMIT)
      ∧ (∀ d, d ∈ deltas → free_cell sb w h (add oh d) →
           m ≤ flood_fill_size (add oh d) sb w h Aggressive.SPACE_LIMIT)
      ∧ 1 ≤ m ≤ Aggressive.SPACE_LIMIT.
Proof.
  unfold Aggressive.min_space.
  pose proof (min_space_fold sb w h oh deltas None) as H.
  destruct (fold_left _ deltas None) as [m|].
  - destruct H as ([?|(d & Hd & Hf & Hm)] & _ & Hmin); [done|].
    split.
    + split; [done|]. intros Hno. by destruct (Hno d Hd).
    + intros ? [= <-]. split; [by exists d|]. split; [done|].
      rewrite Hm.
      pose proof (flood_fill_size_range (add oh d) sb w h
                    Aggressive.SPACE_LIMIT) as (_ & Hmax & _ & Hmin1).
      unfold Aggressive.SPACE_LIMIT in *. split; [by apply Hmin1|lia].
  - destruct H as [_ Hno]. split; [done|]. discriminate.
Qed.

Lemma min_space_spec_witness :
  ∃ d, d ∈ deltas ∧ free_cell (list_to_set [(1, 0)]) 3 3 (add (0, 0) d)
       ∧ 8 = flood_fill_size (add (0, 0) d) (list_to_set [(1, 0)]) 3 3
               Aggressive.SPACE_LIMIT.
Proof.
  destruct (min_space_spec (list_to_set [(1, 0)]) 3 3 (0, 0)) as [_ H].
  apply H. by vm_compute.
Defined.

(** ** Walks and paths *)

Lemma STEPS_deltas (d : Z * Z) :
  d ∈ deltas ↔ ∃ e, e ∈ Main.STEPS ∧ e.2 = d.
Proof.
  rewrite deltas_cases. split.
  - intros [-> | [-> | [-> | ->]]];
      [exists ("up", (0, 1))|exists ("down", (0, -1))
      |exists ("left", (-1, 0))|exists ("right", (1, 0))];
      (split; [apply STEPS_cases; tauto|done]).
  - intros (e & He & <-). apply STEPS_cases in He.
    destruct He as [-> | [-> | [-> | ->]]]; simpl; tauto.
Qed.

Lemma walk_zero (dangers : gset Coord) (w h : Z) (start c : Coord) :
  walk dangers w h start c 0 → c = start.
Proof. by inversion 1. Qed.

Lemma walk_succ (dangers : gset Coord) (w h : Z) (start c : Coord)
    (n : nat) :
  walk dangers w h start c (S n) →
  ∃ p d, c = add p d ∧ d ∈ deltas ∧ free_cell dangers w h c
         ∧ walk dangers w h start p n.
Proof. inversion 1; subst. by eexists _, _. Qed.

Lemma path_end_snoc (start c : Coord) (l : list Coord) :
  path_end start (l ++ [c]) = c.
Proof. unfold path_end. by rewrite last_snoc. Qed.

Lemma path_end_cons (start p : Coord) (l : list Coord) :
  path_end start (p :: l) = path_end p l.
Proof.
  unfold path_end. destruct l as [|p' l]; [done|].
  rewrite last_cons_cons. destruct (last (p' :: l)) eqn:E; [done|].
  by apply last_None in E.
Qed.

Lemma is_path_snoc (dangers : gset Coord) (w h : Z) (c : Coord)
    (l : list Coord) :
  ∀ start,
    is_path dangers w h start l →
    (∃ d, d ∈ deltas ∧ c = add (path_end start l) d) →
    free_cell dangers w h c →
    is_path dangers w h start (l ++ [c]).
Proof.
  induction l as [|p l IH]; intros start Hp Hstep Hf; simpl.
  - done.
  - destruct Hp as (H1 & H2 & H3). split; [done|]. split; [done|].
    apply IH; [done| |done].
    destruct Hstep as (d & Hd & ->). exists d. split; [done|].
    by rewrite path_end_cons.
Qed.

Lemma is_path_walk (dangers : gset Coord) (w h : Z) (l : list Coord) :
  ∀ start, is_path dangers w h start l →
           walk dangers w h start (path_end start l) (length l).
Proof.
  induction l as [|c l IH] using rev_ind; intros start Hp.
  - constructor.
  - rewrite path_end_snoc, length_app. simpl.
    replace (length l + 1)%nat with (S (length l)) by lia.
    assert (Hl : is_path dangers w h start l
                 ∧ (∃ d, d ∈ deltas ∧ c = add (path_end start l) d)
                 ∧ free_cell dangers w h c).
    { clear IH. revert start Hp. induction l as [|p l IHl]; intros start Hp.
      - simpl in *. tauto.
      - simpl in Hp. destruct Hp as (H1 & H2 & H3).
        destruct (IHl p H3) as (Ha & Hb & Hc). split; [by simpl|].
        split; [|done]. destruct Hb as (d & Hd & ->). exists d.
        split; [done|]. by rewrite path_end_cons. }
    destruct Hl as (Hl & (d & Hd & ->) & Hf).
    apply walk_step; [by apply IH|done..].
Qed.

(** A walk can be continued by a walk. *)
Lemma walk_app (dangers : gset Coord) (w h : Z) (a b c : Coord)
    (n m : nat) :
  walk dangers w h a b n → walk dangers w h b c m →
  walk dangers w h a c (n + m).
Proof.
  intros Hab. induction 1 as [|c d m Hw IH Hd Hf].
  - by rewrite Nat.add_0_r.
  - rewrite Nat.add_succ_r. by apply walk_step.
Qed.

(** ** Bounded BFS distance with obstacles *)

Lemma walk_manhattan (blocked : gset Coord) (w h : Z) (start c : Coord)
    (n : nat) :
  walk blocked w h start c n → manhattan start c ≤ Z.of_nat n.
Proof.
  induction 1 as [|c d n Hw IH Hd Hf].
  - unfold manhattan. lia.
  - destruct (manhattan_step start c d Hd); lia.
Qed.

Lemma bfs_visit_inl_any (target : Coord) (blocked : gset Coord) (w h : Z)
    (cur : Coord) (dist x : Z) (ds : list (Z * Z)) :
  fold_left (Greedy.bfs_visit target blocked w h cur dist) ds (inl x) = inl x.
Proof. induction ds as [|d ds IH]; simpl; [done|apply IH]. Qed.

(** The three outcomes of one pass of the inner loop of bfs_distance. *)
Lemma bfs_visit_cases_any (target : Coord) (blocked : gset Coord) (w h : Z)
    (cur : Coord) (dist : Z) (seen : gset Coord) (q : list (Coord * Z))
    (d : Z * Z) :
  Greedy.bfs_visit target blocked w h cur dist (inr (seen, q)) d
  = inr (seen, q)
  ∨ (Greedy.bfs_visit target blocked w h cur dist (inr (seen, q)) d
     = inl (dist + 1)
     ∧ free_cell blocked w h (add cur d) ∧ add cur d = target)
  ∨ (Greedy.bfs_visit target blocked w h cur dist (inr (seen, q)) d
     = inr (seen ∪ {[add cur d]}, q ++ [(add cur d, dist + 1)])
     ∧ free_cell blocked w h (add cur d)).
Proof.
  unfold Greedy.bfs_visit. cbv zeta.
  generalize (add cur d). intros k.
  destruct (in_bounds k w h) eqn:Hb; cbn [negb]; [|by left].
  case_bool_decide as Hbl; cbn [orb]; [by left|].
  case_bool_decide as Hs; [by left|]. right.
  destruct (Z.eqb_spec k.1 target.1) as [Hx|Hx]; cbn [andb].
  - destruct (Z.eqb_spec k.2 target.2) as [Hy|Hy].
    + left. split; [done|]. split; [by split|].
      destruct k, target. simpl in *. by subst.
    + right. by split.
  - right. by split.
Qed.

(** The inner loop of bfs_distance: a returned value is [dist + 1] and the
    target is then a free neighbour of [cur]; otherwise the queue grows by
    free neighbours of [cur], tagged [dist + 1]. *)
Lemma bfs_visit_fold_any (target : Coord) (blocked : gset Coord) (w h : Z)
    (cur : Coord) (dist : Z) (ds : list (Z * Z)) :
  ∀ (seen : gset Coord) (q : list (Coord * Z)),
    match fold_left (Greedy.bfs_visit target blocked w h cur dist) ds
                    (inr (seen, q)) with
    | inl x =>
        x = dist + 1
        ∧ ∃ d, d ∈ ds ∧ add cur d = target ∧ free_cell blocked w h target
    | inr (seen', q') =>
        ∃ news, q' = q ++ news
          ∧ ∀ c d', (c, d') ∈ news →
              d' = dist + 1
              ∧ ∃ d, d ∈ ds ∧ c = add cur d ∧ free_cell blocked w h c
    end.
Proof.
  induction ds as [|d ds IH]; intros seen q.
  - simpl. exists []. rewrite app_nil_r. split; [done|].
    by intros c d' ?%elem_of_nil.
  - cbn [fold_left].
    destruct (bfs_visit_cases_any target blocked w h cur dist seen q d)
      as [->|[(-> & Hf & Heq)|(-> & Hf)]].
    + specialize (IH seen q).
      destruct (fold_left _ ds (inr (seen, q))) as [x|[seen' q']].
      * destruct IH as [-> (d' & Hd' & Ht & Hft)]. split; [done|].
        exists d'. split; [by right|done].
      * destruct IH as (news & -> & Hnews). exists news. split; [done|].
        intros c d' Hin. destruct (Hnews c d' Hin) as [-> (d0 & ? & ? & ?)].
        split; [done|]. exists d0. split; [by right|done].
    + rewrite bfs_visit_inl_any. split; [done|]. exists d.
      split; [by left|]. split; [done|]. by rewrite <- Heq.
    + specialize (IH (seen ∪ {[add cur d]}) (q ++ [(add cur d, dist + 1)])).
      destruct (fold_left _ ds (inr (seen ∪ {[add cur d]}, _)))
        as [x|[seen' q']].
      * destruct IH as [-> (d' & Hd' & Ht & Hft)]. split; [done|].
        exists d'. split; [by right|done].
      * destruct IH as (news & -> & Hnews).
        exists ((add cur d, dist + 1) :: news).
        split; [by rewrite <- app_assoc|].
        intros c d' [[= -> ->]|Hin]%elem_of_cons.
        -- split; [done|]. exists d. split; [by left|done].
        -- destruct (Hnews c d' Hin) as [-> (d0 & ? & ? & ?)].
           split; [done|]. exists d0. split; [by right|done].
Qed.

Lemma bfs_loop_sound (target : Coord) (blocked : gset Coord) (w h : Z)
    (start : Coord) (budget : nat) :
  ∀ (k : Z) (seen : gset Coord) (q : list (Coord * Z)),
    0 ≤ k →
    (∀ i c d, q !! i = Some (c, d) →
       d ≤ k + Z.of_nat i
       ∧ ∃ n, d = Z.of_nat n ∧ walk blocked w h start c n) →
    ∀ x, Greedy.bfs_loop budget target blocked w h seen q = Some x →
      1 ≤ x ∧ x ≤ k + Z.of_nat budget
      ∧ ∃ n, x = Z.of_nat n ∧ walk blocked w h start target n.
Proof.
  induction budget as [|b IH]; intros k seen q Hk Hq x; [by destruct q|].
  destruct q as [|[cur dist] q]; [done|]. cbn [Greedy.bfs_loop].
  destruct (Hq 0%nat cur dist eq_refl) as (Hd0 & n0 & -> & Hw0).
  pose proof (bfs_visit_fold_any target blocked w h cur (Z.of_nat n0) deltas
                seen q) as Hfold.
  destruct (fold_left _ deltas (inr (seen, q))) as [r|[seen' q']].
  - destruct Hfold as [-> (d & Hd & <- & Hf)]. intros [= <-].
    split; [lia|]. split; [lia|]. exists (S n0). split; [lia|].
    by apply walk_step.
  - destruct Hfold as (news & -> & Hnews). intros Hx.
    destruct (IH (k + 1) seen' (q ++ news) ltac:(lia)) with (x := x)
      as (H1 & H2 & H3); [|done|].
    + intros i c d Hi. apply lookup_app_Some in Hi as [Hi|[Hlen Hi]].
      * destruct (Hq (S i) c d Hi) as [Hle Hw]. split; [lia|done].
      * apply list_elem_of_lookup_2 in Hi.
        destruct (Hnews c d Hi) as [-> (d0 & Hd0' & -> & Hf)].
        split; [lia|]. exists (S n0). split; [lia|]. by apply walk_step.
    + split; [done|]. split; [lia|done].
Qed.

(** X10. bfs_distance never under-estimates: a returned distance is the length
    of a walk from the start to the target over in-bounds unblocked cells,
    hence at least their Manhattan distance; it is 0 only when the two cells
    coincide and never exceeds the cap.  A blocked start or target gives
    None, and so does a cap of 0 or less for two distinct cells. *)
Theorem bfs_distance_sound (start target : Coord) (blocked : gset Coord)
    (w h limit : Z) :
  (∀ d, Greedy.bfs_distance start target blocked w h limit = Some d →
     (∃ n, d = Z.of_nat n ∧ walk blocked w h start target n)
     ∧ manhattan start target ≤ d
     ∧ d ≤ Z.max 0 limit
     ∧ (d = 0 ↔ start = target))
  ∧ (start ∈ blocked ∨ target ∈ blocked →
     Greedy.bfs_distance start target blocked w h limit = None)
  ∧ (start ≠ target → limit ≤ 0 →
     Greedy.bfs_distance start target blocked w h limit = None).
Proof.
  unfold Greedy.bfs_distance. split; [|split].
  - intros d. destruct (_ || _); [done|].
    case_bool_decide as Heq.
    + intros [= <-]. subst target. split; [exists 0%nat; split; [done|]|].
      * constructor.
      * unfold manhattan. split; [lia|]. split; [lia|done].
    + intros Hd.
      destruct (bfs_loop_sound target blocked w h start (Z.to_nat limit) 0
                  {[start]} [(start, 0)]) with (x := d)
        as (H1 & H2 & n & -> & Hw); [done| |done|].
      * intros [|i] c d'; [|done]. intros [= <- <-]. split; [done|].
        exists 0%nat. split; [done|constructor].
      * split; [by exists n|]. split; [by eapply walk_manhattan|].
        split; [lia|]. split; [lia|]. intros ->. done.
  - intros [H|H].
    + by rewrite (bool_decide_eq_true_2 _ H).
    + rewrite (bool_decide_eq_true_2 (target ∈ blocked)) by done.
      by rewrite orb_true_r.
  - intros Hne Hl. destruct (_ || _); [done|].
    rewrite bool_decide_eq_false_2 by done.
    replace (Z.to_nat limit) with 0%nat by lia. done.
Qed.

Lemma bfs_distance_sound_witness :
  (∃ n, 6 = Z.of_nat n
        ∧ walk (list_to_set [(1, 0); (1, 1)]) 3 3 (0, 0) (2, 0) n)
  ∧ manhattan (0, 0) (2, 0) ≤ 6
  ∧ 6 ≤ Z.max 0 Greedy.SPACE_LIMIT
  ∧ (6 = 0 ↔ ((0, 0) : Coord) = (2, 0)).
Proof.
  destruct (bfs_distance_sound (0, 0) (2, 0) (list_to_set [(1, 0); (1, 1)])
              3 3 Greedy.SPACE_LIMIT) as [H _].
  apply H. by vm_compute.
Defined.

(** ** bfs_distance returns shortest distances *)

Lemma bfs_visit_cases_full (target : Coord) (blocked : gset Coord) (w h : Z)
    (cur : Coord) (dist : Z) (seen : gset Coord) (q : list (Coord * Z))
    (d : Z * Z) :
  (Greedy.bfs_visit target blocked w h cur dist (inr (seen, q)) d
   = inr (seen, q)
   ∧ (¬ free_cell blocked w h (add cur d) ∨ add cur d ∈ seen))
  ∨ (Greedy.bfs_visit target blocked w h cur dist (inr (seen, q)) d
     = inl (dist + 1)
     ∧ free_cell blocked w h (add cur d) ∧ (add cur d ∉ seen)
     ∧ add cur d = target)
  ∨ (Greedy.bfs_visit target blocked w h cur dist (inr (seen, q)) d
     = inr (seen ∪ {[add cur d]}, q ++ [(add cur d, dist + 1)])
     ∧ free_cell blocked w h (add cur d) ∧ (add cur d ∉ seen)
     ∧ add cur d ≠ target).
Proof.
  unfold Greedy.bfs_visit, free_cell. cbv zeta.
  generalize (add cur d). intros k.
  destruct (in_bounds k w h) eqn:Hb; cbn [negb];
    [|left; split; [done|left; by intros [? _]]].
  case_bool_decide as Hbl; cbn [orb];
    [left; split; [done|left; by intros [_ ?]]|].
  case_bool_decide as Hs; [left; split; [done|by right]|].
  right.
  destruct (Z.eqb_spec k.1 target.1) as [Hx|Hx]; cbn [andb].
  - destruct (Z.eqb_spec k.2 target.2) as [Hy|Hy].
    + left. split; [done|]. split; [done|]. split; [done|].
      destruct k, target. simpl in *. by subst.
    + right. split; [done|]. split; [done|]. split; [done|].
      intros Heq. apply Hy. by rewrite Heq.
  - right. split; [done|]. split; [done|]. split; [done|].
    intros Heq. apply Hx. by rewrite Heq.
Qed.

(** The inner loop on [cur]: either the target is a fresh free neighbour
    and [dist + 1] is returned, or every fresh free neighbour joins the
    seen set and the queue. *)
Lemma bfs_visit_fold_full (target : Coord) (blocked : gset Coord) (w h : Z)
    (cur : Coord) (dist : Z) (ds : list (Z * Z)) :
  ∀ (seen : gset Coord) (q : list (Coord * Z)),
    match fold_left (Greedy.bfs_visit target blocked w h cur dist) ds
                    (inr (seen, q)) with
    | inl x =>
        x = dist + 1
        ∧ ∃ d, d ∈ ds ∧ add cur d = target ∧ free_cell blocked w h target
    | inr (seen', q') =>
        (∀ c, c ∈ seen' ↔
              c ∈ seen ∨ ∃ d, d ∈ ds ∧ c = add cur d
                              ∧ free_cell blocked w h c)
        ∧ (target ∉ seen → target ∉ seen')
        ∧ ∃ new, q' = q ++ ((λ c, (c, dist + 1)) <$> new) ∧ NoDup new
                 ∧ ∀ c, c ∈ new ↔ c ∈ seen' ∧ c ∉ seen
    end.
Proof.
  induction ds as [|d ds IH]; intros seen q.
  - simpl. split; [set_solver|]. split; [done|]. exists [].
    simpl. rewrite app_nil_r. split; [done|]. split; [constructor|set_solver].
  - cbn [fold_left].
    destruct (bfs_visit_cases_full target blocked w h cur dist seen q d)
      as [[-> Hskip]|[(-> & Hb & Hs & Heq)|(-> & Hb & Hs & Hne)]].
    + specialize (IH seen q).
      destruct (fold_left _ ds (inr (seen, q))) as [x|[seen' q']].
      * destruct IH as [-> (d' & Hd' & Ht & Hbt)]. split; [done|].
        exists d'. split; [by right|done].
      * destruct IH as (H1 & H2 & H3). split; [|done].
        intros c. rewrite H1. split.
        -- intros [?|(d' & Hd' & -> & Hbc)]; [by left|].
           right. exists d'. split; [by right|done].
        -- intros [?|(d' & Hd' & -> & Hbc)]; [by left|].
           apply elem_of_cons in Hd' as [->|Hd'].
           ++ left. destruct Hskip as [Hf|?]; [done|done].
           ++ right. by exists d'.
    + rewrite bfs_visit_inl_any. split; [done|]. exists d.
      split; [by left|]. split; [done|]. by rewrite <- Heq.
    + specialize (IH (seen ∪ {[add cur d]}) (q ++ [(add cur d, dist + 1)])).
      destruct (fold_left _ ds (inr (seen ∪ {[add cur d]}, _)))
        as [x|[seen' q']].
      * destruct IH as [-> (d' & Hd' & Ht & Hbt)]. split; [done|].
        exists d'. split; [by right|done].
      * destruct IH as (H1 & H2 & (new & Hq & Hnd & Hnew)).
        assert (Hk : add cur d ∈ seen') by (apply H1; left; set_solver).
        split; [|split].
        -- intros c. rewrite H1, elem_of_union, elem_of_singleton. split.
           ++ intros [[?| ->]|(d' & Hd' & -> & Hbc)].
              ** by left.
              ** right. exists d. split; [by left|done].
              ** right. exists d'. split; [by right|done].
           ++ intros [?|(d' & Hd' & -> & Hbc)]; [by left; left|].
              apply elem_of_cons in Hd' as [->|Hd']; [by left; right|].
              right. by exists d'.
        -- intros Hts. apply H2. rewrite elem_of_union, elem_of_singleton.
           intros [?|Ht]; [done|]. by apply Hne.
        -- exists (add cur d :: new). rewrite Hq, <- app_assoc. simpl.
           split; [done|]. split.
           ++ constructor; [|done]. rewrite Hnew.
              intros [_ Hn]. apply Hn. set_solver.
           ++ intros c. rewrite elem_of_cons, Hnew, elem_of_union,
                elem_of_singleton.
              destruct (decide (c = add cur d)) as [->|Hc]; [tauto|].
              split; [|tauto]. intros [?|[? ?]]; [done|].
              split; [done|]. tauto.
Qed.

(** Once the cells at distance [L] are all popped, the queue holds the
    whole layer [L + 1]. *)
Lemma bfs_opt_shift (blocked : gset Coord) (w h : Z) (start target : Coord)
    (L : nat) (P seen : gset Coord) (q2 : list (Coord * Z)) :
  bfs_opt blocked w h start target L P seen [] q2 →
  bfs_opt blocked w h start target (S L) P seen q2 [].
Proof.
  intros [Hnd Hseen Hdisj Hq1 Hq2 Hok Hcl Hbel].
  simpl in Hnd, Hseen, Hdisj.
  split; rewrite ?app_nil_r; try done.
  - by intros c d ?%elem_of_nil.
  - intros c m Hw Hm.
    destruct (decide (m ≤ L)%nat) as [Hle|Hgt]; [by apply (Hbel c m)|].
    assert (m = S L) as -> by lia.
    apply walk_succ in Hw as (p & d & -> & Hd & Hf & Hw).
    apply Hcl; [|done..].
    assert (Hps : p ∈ seen) by (by apply (Hbel p L)).
    apply Hseen in Hps as [?|Hpq]; [done|].
    apply list_elem_of_fmap in Hpq as ([p' dp] & -> & Hin).
    apply Hq2 in Hin as (_ & _ & Hlow). specialize (Hlow _ Hw). lia.
Qed.

(** One iteration of the while loop on the first queued cell. *)
Lemma bfs_opt_step (blocked : gset Coord) (w h : Z)
    (start target cur : Coord) (L : nat) (dist : Z)
    (P seen : gset Coord) (q1 q2 : list (Coord * Z)) :
  bfs_opt blocked w h start target L P seen ((cur, dist) :: q1) q2 →
  (cur ∉ P) ∧ cur ∈ bfs_cells blocked w h start
  ∧ match fold_left (Greedy.bfs_visit target blocked w h cur dist) deltas
                    (inr (seen, q1 ++ q2)) with
    | inl x =>
        x = Z.of_nat (S L) ∧ walk blocked w h start target (S L)
        ∧ ∀ m, walk blocked w h start target m → (S L ≤ m)%nat
    | inr (seen', q') =>
        ∃ q2', q' = q1 ++ q2'
               ∧ bfs_opt blocked w h start target L (P ∪ {[cur]}) seen' q1 q2'
    end.
Proof.
  intros [Hnd Hseen Hdisj Hq1 Hq2 Hok Hcl Hbel].
  destruct (Hq1 cur dist (list_elem_of_here _ _)) as (-> & Hwcur & Hlcur).
  assert (Hcs : cur ∈ seen) by (apply Hseen; right; simpl; by left).
  assert (HcP : cur ∉ P).
  { intros Hp. apply (Hdisj _ Hp). simpl. by left. }
  assert (Hts : target ∉ seen) by (intros Hin; by apply Hok in Hin as [? _]).
  assert (Hfar : ∀ c m, c ∉ seen → walk blocked w h start c m → (S L ≤ m)%nat).
  { intros c m Hc Hw. destruct (decide (S L ≤ m)%nat); [done|].
    exfalso. apply Hc, (Hbel c m); [done|lia]. }
  split; [done|]. split.
  { unfold bfs_cells. destruct (Hok _ Hcs) as [_ [->|[Hb Hnb]]].
    - apply elem_of_union_l. by apply elem_of_singleton.
    - apply elem_of_union_r, elem_of_difference. split; [|done].
      by apply in_bounds_board_cells. }
  pose proof (bfs_visit_fold_full target blocked w h cur (Z.of_nat L) deltas
                seen (q1 ++ q2)) as Hfold.
  destruct (fold_left _ deltas (inr (seen, q1 ++ q2))) as [x|[seen' q']].
  - destruct Hfold as [-> (d & Hd & Hadd & Hft)].
    split; [lia|]. split.
    + rewrite <- Hadd. apply walk_step; [done..|]. by rewrite Hadd.
    + intros m Hw. by apply (Hfar target).
  - destruct Hfold as (H1 & H2 & (new & Hq & Hndn & Hnew)).
    exists (q2 ++ ((λ c, (c, Z.of_nat L + 1)) <$> new)).
    split; [by rewrite Hq, app_assoc|].
    simpl in Hnd, Hseen, Hdisj. apply NoDup_cons in Hnd as [Hcq Hnd].
    assert (Hfst : (q1 ++ q2 ++ ((λ c, (c, Z.of_nat L + 1)) <$> new)).*1
                   = (q1 ++ q2).*1 ++ new).
    { rewrite app_assoc, (fmap_app _ (q1 ++ q2)). f_equal.
      rewrite <- list_fmap_compose. apply list_fmap_id. }
    assert (Hsub : ∀ c, c ∈ seen → c ∈ seen')
      by (intros c ?; apply H1; by left).
    assert (Hnewb : ∀ c, c ∈ new →
              free_cell blocked w h c ∧ walk blocked w h start c (S L)
              ∧ ∀ m, walk blocked w h start c m → (S L ≤ m)%nat).
    { intros c [Hc' Hc]%Hnew.
      apply H1 in Hc' as [?|(d & Hd & -> & Hb)]; [done|]. split; [done|].
      split; [by apply walk_step|]. intros m Hw. by apply (Hfar (add cur d)). }
    split.
    + rewrite Hfst. apply NoDup_app. split; [done|]. split; [|done].
      intros c Hc [_ Hc']%Hnew. apply Hc', Hseen. right. by right.
    + intros c. rewrite Hfst, elem_of_app, Hnew, elem_of_union,
        elem_of_singleton.
      specialize (Hseen c). specialize (Hsub c). rewrite elem_of_cons in Hseen.
      destruct (decide (c ∈ seen)); tauto.
    + intros c Hc. rewrite Hfst, elem_of_app, Hnew.
      apply elem_of_union in Hc as [Hc| ->%elem_of_singleton].
      * specialize (Hdisj c Hc). rewrite not_elem_of_cons in Hdisj.
        assert (c ∈ seen) by (apply Hseen; by left). tauto.
      * tauto.
    + intros c d Hin. apply Hq1. by right.
    + intros c d [Hin|Hin]%elem_of_app; [by apply Hq2|].
      apply list_elem_of_fmap in Hin as (c' & [= -> ->] & Hc').
      split; [lia|]. by apply Hnewb.
    + intros c Hc. split.
      * intros ->. by apply H2.
      * apply H1 in Hc as [Hc|(d & _ & -> & Hb)]; [by apply Hok|by right].
    + intros c d [Hc| ->%elem_of_singleton]%elem_of_union Hd Hb.
      * by apply Hsub, Hcl.
      * apply H1. right. by exists d.
    + intros c m Hw Hm. by apply Hsub, (Hbel c m).
Qed.

(** With an empty queue every cell a walk leads to has been seen. *)
Lemma bfs_opt_exhausted (blocked : gset Coord) (w h : Z)
    (start target : Coord) (L : nat) (P seen : gset Coord) :
  bfs_opt blocked w h start target L P seen [] [] →
  ∀ m, ¬ walk blocked w h start target m.
Proof.
  intros [Hnd Hseen Hdisj Hq1 Hq2 Hok Hcl Hbel] m Hw.
  assert (Hall : ∀ c n, walk blocked w h start c n → c ∈ P).
  { intros c n. induction 1 as [|c d n Hw' IHw Hd Hf].
    - assert (Hs : start ∈ seen)
        by (apply (Hbel start 0%nat); [constructor|lia]).
      apply Hseen in Hs as [?|Hs]; [done|]. by apply elem_of_nil in Hs.
    - pose proof (Hcl _ _ IHw Hd Hf) as Hs.
      apply Hseen in Hs as [?|Hs]; [done|]. by apply elem_of_nil in Hs. }
  assert (Ht : target ∈ seen) by (apply Hseen; left; by apply (Hall _ m)).
  by apply Hok in Ht as [? _].
Qed.

Lemma bfs_loop_nil (budget : nat) (target : Coord) (blocked : gset Coord)
    (w h : Z) (seen : gset Coord) :
  Greedy.bfs_loop budget target blocked w h seen [] = None.
Proof. by destruct budget. Qed.

(** The while loop of bfs_distance returns the length of a shortest walk to
    the target; it gives up only when no walk exists or the budget is
    smaller than the number of cells left to pop. *)
Lemma bfs_loop_opt (blocked : gset Coord) (w h : Z) (start target : Coord) :
  ∀ (budget L : nat) (P seen : gset Coord) (q1 q2 : list (Coord * Z)),
    bfs_opt blocked w h start target L P seen q1 q2 →
    match Greedy.bfs_loop budget target blocked w h seen (q1 ++ q2) with
    | Some x =>
        ∃ n, x = Z.of_nat n ∧ walk blocked w h start target n
             ∧ ∀ m, walk blocked w h start target m → (n ≤ m)%nat
    | None =>
        (∀ m, ¬ walk blocked w h start target m)
        ∨ (budget < size (bfs_cells blocked w h start ∖ P))%nat
    end.
Proof.
  assert (Hnorm : ∀ L P seen q1 q2,
            bfs_opt blocked w h start target L P seen q1 q2 →
            (q1 ++ q2 = [] ∧ ∀ m, ¬ walk blocked w h start target m)
            ∨ ∃ L' cur dist q1' q2',
              q1 ++ q2 = (cur, dist) :: q1' ++ q2'
              ∧ bfs_opt blocked w h start target L' P seen
                  ((cur, dist) :: q1') q2').
  { intros L P seen q1 q2 Hinv. destruct q1 as [|[cur dist] q1].
    - destruct q2 as [|[cur dist] q2].
      + left. split; [done|]. by eapply bfs_opt_exhausted.
      + right. exists (S L), cur, dist, q2, []. rewrite app_nil_r.
        split; [done|]. by apply bfs_opt_shift.
    - right. by exists L, cur, dist, q1, q2. }
  assert (Hsize : ∀ L P seen cur dist q1 q2,
            bfs_opt blocked w h start target L P seen ((cur, dist) :: q1) q2 →
            size (bfs_cells blocked w h start ∖ P)
            = S (size (bfs_cells blocked w h start ∖ (P ∪ {[cur]})))).
  { intros L P seen cur dist q1 q2 Hinv.
    destruct (bfs_opt_step blocked w h start target cur L dist P seen q1 q2
                Hinv) as (HcP & Hin & _).
    assert (Heq : bfs_cells blocked w h start ∖ P
                  = {[cur]} ∪ bfs_cells blocked w h start ∖ (P ∪ {[cur]})).
    { apply set_eq. intros c. destruct (decide (c = cur)); set_solver. }
    rewrite Heq at 1.
    rewrite (size_union (C := gset (Z * Z))) by set_solver.
    by rewrite size_singleton. }
  induction budget as [|b IH]; intros L P seen q1 q2 Hinv;
    (destruct (Hnorm _ _ _ _ _ Hinv)
      as [[-> Hno]|(L' & cur & dist & q1' & q2' & Hq & Hinv')];
     [rewrite bfs_loop_nil; by left|rewrite Hq]).
  - simpl. right. rewrite (Hsize _ _ _ _ _ _ _ Hinv'). lia.
  - cbn [Greedy.bfs_loop].
    destruct (bfs_opt_step blocked w h start target cur L' dist P seen q1' q2'
                Hinv') as (_ & _ & Hstep).
    destruct (fold_left _ deltas (inr (seen, q1' ++ q2'))) as [x|[seen' q']].
    { destruct Hstep as (-> & Hw & Hmin). by exists (S L'). }
    destruct Hstep as (q2'' & -> & Hinv'').
    specialize (IH _ _ _ _ _ Hinv'').
    destruct (Greedy.bfs_loop b target blocked w h seen' (q1' ++ q2''));
      [done|].
    destruct IH as [?|Hlt]; [by left|right].
    rewrite (Hsize _ _ _ _ _ _ _ Hinv'). lia.
Qed.

Lemma bfs_opt_init (blocked : gset Coord) (w h : Z) (start target : Coord) :
  start ≠ target →
  bfs_opt blocked w h start target 0 ∅ {[start]} [(start, 0)] [].
Proof.
  intros Hne. split; simpl.
  - apply NoDup_singleton.
  - intros c. rewrite elem_of_singleton, list_elem_of_singleton. set_solver.
  - by intros c ?%elem_of_empty.
  - intros c d [= -> ->]%list_elem_of_singleton. split; [done|].
    split; [constructor|lia].
  - by intros c d ?%elem_of_nil.
  - intros c ->%elem_of_singleton. split; [done|by left].
  - by intros c d ?%elem_of_empty.
  - intros c m Hw Hm. assert (m = 0%nat) as -> by lia.
    apply walk_zero in Hw as ->. by apply elem_of_singleton.
Qed.

(** X11. bfs_distance of greedy.py is exact: a returned distance is the length
    of a shortest walk over in-bounds unblocked cells, and when the start
    is not blocked, the target can be reached and the cap is at least the
    number of cells that can be popped, a distance is returned. *)
Theorem bfs_distance_shortest (start target : Coord) (blocked : gset Coord)
    (w h limit : Z) :
  (∀ d, Greedy.bfs_distance start target blocked w h limit = Some d →
     ∃ n, d = Z.of_nat n ∧ walk blocked w h start target n
          ∧ ∀ m, walk blocked w h start target m → (n ≤ m)%nat)
  ∧ (∀ m, start ∉ blocked → walk blocked w h start target m →
       Z.of_nat (size (bfs_cells blocked w h start)) ≤ limit →
       ∃ d, Greedy.bfs_distance start target blocked w h limit = Some d
            ∧ 0 ≤ d ≤ Z.of_nat m).
Proof.
  assert (Hloop : start ≠ target →
    match Greedy.bfs_loop (Z.to_nat limit) target blocked w h {[start]}
            [(start, 0)] with
    | Some x =>
        ∃ n, x = Z.of_nat n ∧ walk blocked w h start target n
             ∧ ∀ m, walk blocked w h start target m → (n ≤ m)%nat
    | None =>
        (∀ m, ¬ walk blocked w h start target m)
        ∨ (Z.to_nat limit < size (bfs_cells blocked w h start))%nat
    end).
  { intros Hne.
    pose proof (bfs_loop_opt blocked w h start target (Z.to_nat limit) 0 ∅
                  {[start]} [(start, 0)] []
                  (bfs_opt_init blocked w h start target Hne)) as Hl.
    simpl in Hl.
    destruct (Greedy.bfs_loop _ _ _ _ _ _ _); [done|].
    destruct Hl as [?|Hlt]; [by left|right].
    by rewrite difference_empty_L in Hlt. }
  unfold Greedy.bfs_distance. split.
  - intros d. destruct (_ || _); [done|].
    case_bool_decide as Heq.
    + intros [= <-]. subst target. exists 0%nat. split; [done|].
      split; [constructor|lia].
    + specialize (Hloop Heq). intros Hd. by rewrite Hd in Hloop.
  - intros m Hsb Hw Hcap.
    rewrite (bool_decide_eq_false_2 (start ∈ blocked)) by done.
    case_bool_decide as Htb; cbn [orb].
    { exfalso. destruct m as [|m].
      - apply walk_zero in Hw. by subst.
      - apply walk_succ in Hw as (p & d & -> & _ & [_ Hf] & _). done. }
    case_bool_decide as Heq; [exists 0; split; [done|lia]|].
    specialize (Hloop Heq).
    destruct (Greedy.bfs_loop _ _ _ _ _ _ _) as [x|].
    + destruct Hloop as (n & -> & _ & Hmin). exists (Z.of_nat n).
      split; [done|]. specialize (Hmin _ Hw). lia.
    + destruct Hloop as [Hno|Hlt]; [by destruct (Hno m)|lia].
Qed.

Lemma bfs_distance_shortest_witness :
  ∃ d, Greedy.bfs_distance (0, 0) (2, 0) (list_to_set [(1, 0); (1, 1)])
         3 3 Greedy.SPACE_LIMIT = Some d
       ∧ 0 ≤ d ≤ Z.of_nat 6.
Proof.
  destruct (bfs_distance_shortest (0, 0) (2, 0)
              (list_to_set [(1, 0); (1, 1)]) 3 3 Greedy.SPACE_LIMIT)
    as [_ H].
  apply H.
  - by vm_compute.
  - refine (walk_step _ 3 3 (0, 0) (2, 1) (0, -1) 5 _ _ _).
    + refine (walk_step _ 3 3 (0, 0) (2, 2) (0, -1) 4 _ _ _).
      * refine (walk_step _ 3 3 (0, 0) (1, 2) (1, 0) 3 _ _ _).
        -- refine (walk_step _ 3 3 (0, 0) (0, 2) (1, 0) 2 _ _ _).
           ++ refine (walk_step _ 3 3 (0, 0) (0, 1) (0, 1) 1 _ _ _).
              ** refine (walk_step _ 3 3 (0, 0) (0, 0) (0, 1) 0 _ _ _).
                 --- constructor.
                 --- apply deltas_cases. tauto.
                 --- split; [reflexivity|]. by vm_compute.
              ** apply deltas_cases. tauto.
              ** split; [reflexivity|]. by vm_compute.
           ++ apply deltas_cases. tauto.
           ++ split; [reflexivity|]. by vm_compute.
        -- apply deltas_cases. tauto.
        -- split; [reflexivity|]. by vm_compute.
      * apply deltas_cases. tauto.
      * split; [reflexivity|]. by vm_compute.
    + apply deltas_cases. tauto.
    + split; [reflexivity|]. by vm_compute.
  - by vm_compute.
Defined.

(** ** dijkstra returns shortest paths *)

Lemma remove_first_sub (m e : Z * Coord) (q : list (Z * Coord)) :
  e ∈ Main.remove_first m q → e ∈ q.
Proof.
  induction q as [|x q IH]; simpl; [done|].
  case_bool_decide; [by right|].
  intros [->|He]%elem_of_cons; [by left|right; by apply IH].
Qed.

Lemma remove_first_other (m e : Z * Coord) (q : list (Z * Coord)) :
  e ∈ q → e ≠ m → e ∈ Main.remove_first m q.
Proof.
  induction q as [|x q IH]; intros He Hne; [done|]. simpl.
  case_bool_decide as Hx.
  - apply elem_of_cons in He as [->|He]; [congruence|done].
  - apply elem_of_cons in He as [->|He]; [by left|right; by apply IH].
Qed.

Lemma remove_first_nodup (m : Z * Coord) (q : list (Z * Coord)) :
  NoDup q → NoDup (Main.remove_first m q) ∧ m ∉ Main.remove_first m q.
Proof.
  induction q as [|x q IH]; intros Hnd; simpl.
  - split; [constructor|apply not_elem_of_nil].
  - apply NoDup_cons in Hnd as [Hx Hnd]. case_bool_decide as Hxm.
    + subst x. by split.
    + destruct (IH Hnd) as [H1 H2]. split.
      * constructor; [|done]. intros Hin. by apply Hx, (remove_first_sub m).
      * intros [->|Hin]%elem_of_cons; [done|by apply H2].
Qed.

Lemma heappop_remove (q q' : list (Z * Coord)) (m : Z * Coord) :
  Main.heappop q = Some (m, q') → q' = Main.remove_first m q.
Proof.
  destruct q as [|e l]; [done|]. unfold Main.heappop. by intros [= <- <-].
Qed.

(** Following came_from yields the cells of a step-connected path whose
    length is the recorded distance. *)
Lemma build_path_full (w h : Z) (start : Coord) (dangers : gset Coord)
    (lo hi : Z) (D : gmap Coord Z) (Qu : list (Z * Coord))
    (CF : gmap Coord Coord) :
  dj_inv w h start dangers lo hi D Qu CF →
  ∀ (n : nat) (current : Coord) (d : Z) (path0 res : list Coord),
    D !! current = Some d →
    Main.build_path n CF start current path0 = Some res →
    ∃ chain, res = path0 ++ chain ∧ Z.of_nat (length chain) = d
      ∧ is_path dangers w h start (reverse chain)
      ∧ path_end start (reverse chain) = current.
Proof.
  intros [Hs Hq Hr Hp].
  assert (Hbase : ∀ current d path0,
            D !! current = Some d → current = start →
            ∃ chain, path0 = path0 ++ chain ∧ Z.of_nat (length chain) = d
              ∧ is_path dangers w h start (reverse chain)
              ∧ path_end start (reverse chain) = current).
  { intros current d path0 Hd ->. exists []. rewrite app_nil_r.
    rewrite Hs in Hd. injection Hd as <-. done. }
  induction n as [|n IH]; intros current d path0 res Hd; simpl.
  - case_bool_decide as Hc; [|done]. intros [= <-]. by apply Hbase.
  - case_bool_decide as Hc; [intros [= <-]; by apply Hbase|].
    destruct (CF !! current) as [p|] eqn:Hcf; [|done]. intros Hres.
    destruct (Hp _ _ Hd)
      as [[? _]|(p' & e & Hcf' & He & Hadd & Hdp & Hb & Hnd)];
      [done|].
    rewrite Hcf in Hcf'. injection Hcf' as <-.
    destruct (IH p (d - 1) (path0 ++ [current]) res Hdp Hres)
      as (chain & -> & Hlen & Hpath & Hend).
    exists (current :: chain). rewrite <- app_assoc. split; [done|].
    simpl. split; [lia|]. rewrite reverse_cons, path_end_snoc.
    split; [|done]. apply is_path_snoc; [done| |by split].
    exists e.2. rewrite Hend. split; [|done]. apply STEPS_deltas. by exists e.
Qed.

(** One relaxation keeps the second invariant; it never changes a recorded
    distance and records the neighbour when it is free. *)
Lemma relax_opt (w h : Z) (start : Coord) (dangers : gset Coord)
    (food : list Coord) (cd hi : Z) (current : Coord) (e : string * (Z * Z))
    (P C : gset Coord) (D : gmap Coord Z) (Qu : list (Z * Coord))
    (CF : gmap Coord Coord) :
  e ∈ Main.STEPS → D !! current = Some cd →
  dj_inv w h start dangers cd hi D Qu CF →
  dj_opt w h start dangers food cd P C D Qu →
  let st := Main.relax w h dangers cd current (D, Qu, CF) e in
  dj_opt w h start dangers food cd P C st.1.1 st.1.2
  ∧ (∀ c d, D !! c = Some d → st.1.1 !! c = Some d)
  ∧ (free_cell dangers w h (add current e.2) →
     is_Some (st.1.1 !! add current e.2)).
Proof.
  intros He Hcur [Hs Hq Hr Hp] Hopt. pose proof Hopt as [].
  unfold Main.relax. simpl.
  destruct (in_bounds (add current e.2) w h
            && negb (bool_decide (add current e.2 ∈ dangers))) eqn:Hfree.
  2:{ split; [done|]. split; [done|]. intros Hf%free_cell_dec. congruence. }
  apply free_cell_dec in Hfree.
  destruct (D !! add current e.2) as [dn|] eqn:Hn.
  { destruct (Z.ltb_spec (cd + 1) dn) as [Hlt|Hge].
    - apply Hr in Hn. lia.
    - simpl. split; [done|]. split; [done|]. intros _. by rewrite Hn. }
  simpl.
  assert (Hed : e.2 ∈ deltas) by (apply STEPS_deltas; by exists e).
  assert (HnP : add current e.2 ∉ P).
  { intros HP. assert (is_Some (D !! add current e.2)) as [? ?]
      by (apply o_dom0; by left). congruence. }
  assert (HnQ : ∀ d, (d, add current e.2) ∉ Qu).
  { intros d Hin. apply Hq in Hin as [_ ?]. congruence. }
  split; [split|split].
  - unfold Main.heappush. constructor; [apply HnQ|done].
  - intros c. rewrite lookup_insert. case_decide as Hc.
    + subst c. split; [intros _|by eexists].
      right. exists (cd + 1). by left.
    + rewrite o_dom0. unfold Main.heappush. split.
      * intros [?|(d & Hin)]; [by left|right; exists d; by right].
      * intros [?|(d & [[= _ ?]|Hin]%elem_of_cons)];
          [by left|done|right; by exists d].
  - intros c d HcP. unfold Main.heappush.
    intros [[= _ ->]|Hin]%elem_of_cons; [done|]. by apply (o_disj0 c d).
  - intros c d. rewrite lookup_insert. case_decide as Hc; [|apply o_walk0].
    intros [= <-]. subst c. destruct (o_walk0 _ _ Hcur) as (n & -> & Hw).
    exists (S n). split; [lia|]. by apply walk_step.
  - intros c d n. rewrite lookup_insert. case_decide as Hc; [|apply o_lower0].
    intros [= <-] Hw. subst c.
    destruct (Z.le_gt_cases (cd + 1) (Z.of_nat n)) as [?|Hgt]; [done|].
    exfalso. destruct (o_below0 _ _ Hw) as [? ?]; [lia|congruence].
  - intros c n Hw Hn'. rewrite lookup_insert. case_decide; [by eexists|].
    by apply (o_below0 c n).
  - intros p d HpC Hd Hf. rewrite lookup_insert. case_decide; [by eexists|].
    by apply o_closed0.
  - done.
  - intros c d HcP. rewrite lookup_insert_ne by (intros <-; done).
    by apply o_Plo0.
  - intros c d Hd. rewrite lookup_insert_ne; [done|]. congruence.
  - intros _. rewrite lookup_insert_eq. by eexists.
Qed.

Lemma relax_fold_opt (w h : Z) (start : Coord) (dangers : gset Coord)
    (food : list Coord) (cd hi : Z) (current : Coord) (P C : gset Coord)
    (es : list (string * (Z * Z))) :
  (∀ e, e ∈ es → e ∈ Main.STEPS) → cd + 1 ≤ hi →
  ∀ (D : gmap Coord Z) (Qu : list (Z * Coord)) (CF : gmap Coord Coord),
    D !! current = Some cd →
    dj_inv w h start dangers cd hi D Qu CF →
    dj_opt w h start dangers food cd P C D Qu →
    let st := fold_left (Main.relax w h dangers cd current) es (D, Qu, CF) in
    dj_inv w h start dangers cd hi st.1.1 st.1.2 st.2
    ∧ dj_opt w h start dangers food cd P C st.1.1 st.1.2
    ∧ (∀ c d, D !! c = Some d → st.1.1 !! c = Some d)
    ∧ ∀ e, e ∈ es → free_cell dangers w h (add current e.2) →
           is_Some (st.1.1 !! add current e.2).
Proof.
  intros Hes Hhi. induction es as [|e es IH]; intros D Qu CF Hcur Hinv Hopt.
  - simpl. split; [done|]. split; [done|]. split; [done|].
    by intros e ?%elem_of_nil.
  - cbn [fold_left].
    assert (He : e ∈ Main.STEPS) by (apply Hes; by left).
    destruct (relax_inv w h start dangers cd hi current e D Qu CF He Hcur Hhi
                Hinv) as (Hinv' & Hcur' & _).
    destruct (relax_opt w h start dangers food cd hi current e P C D Qu CF
                He Hcur Hinv Hopt) as (Hopt' & Hkeep & Hrec).
    destruct (Main.relax w h dangers cd current (D, Qu, CF) e)
      as [[D' Qu'] CF'] eqn:Hst.
    cbn [fst snd] in Hinv', Hcur', Hopt', Hkeep, Hrec.
    destruct (IH (λ e' He', Hes e' (list_elem_of_further _ _ _ He'))
                D' Qu' CF' Hcur' Hinv' Hopt') as (Hi & Ho & Hk & Hr).
    split; [done|]. split; [done|]. split.
    + intros c d Hd. by apply Hk, Hkeep.
    + intros e' [->|He']%elem_of_cons Hf; [|by apply Hr].
      destruct (Hrec Hf) as [d Hd]. exists d. by apply Hk.
Qed.

(** Popping the least entry moves its cell to the popped cells and keeps the
    second invariant at the popped distance. *)
Lemma pop_opt (w h : Z) (start : Coord) (dangers : gset Coord)
    (food : list Coord) (lo hi cd : Z) (current : Coord) (P : gset Coord)
    (D : gmap Coord Z) (Qu Qu' : list (Z * Coord)) (CF : gmap Coord Coord) :
  dj_inv w h start dangers lo hi D Qu CF →
  dj_opt w h start dangers food lo P P D Qu →
  Main.heappop Qu = Some ((cd, current), Qu') →
  current ∉ food →
  dj_opt w h start dangers food cd (P ∪ {[current]}) P D Qu'.
Proof.
  intros [Hs Hq Hr Hp] [] Hpop Hnf.
  pose proof (heappop_spec Qu) as Hspec. rewrite Hpop in Hspec.
  destruct Hspec as (Hin & Hmin & _ & Hsub).
  apply heappop_remove in Hpop. subst Qu'.
  destruct (remove_first_nodup (cd, current) Qu o_nodup0) as [Hnd Hnot].
  destruct (Hq _ _ Hin) as [Hlo Hcur].
  destruct (Hr _ _ Hcur) as (Hcd0 & Hcd1 & _).
  split.
  - done.
  - intros c. rewrite o_dom0, elem_of_union, elem_of_singleton. split.
    + intros [HP|(d & Hd)]; [by left; left|].
      destruct (decide ((d, c) = (cd, current))) as [[= -> ->]|Hne];
        [by left; right|].
      right. exists d. by apply remove_first_other.
    + intros [[HP| ->]|(d & Hd)]; [by left|right; by exists cd|].
      right. exists d. by apply Hsub.
  - intros c d [HP| ->%elem_of_singleton]%elem_of_union Hd.
    + by apply (o_disj0 c d), Hsub.
    + destruct (Hq _ _ (Hsub _ Hd)) as [_ Hd']. rewrite Hcur in Hd'.
      injection Hd' as <-. done.
  - done.
  - done.
  - intros c n Hw Hn. destruct n as [|m].
    + apply walk_zero in Hw as ->. by eexists.
    + apply walk_succ in Hw as (p & d & -> & Hd & Hf & Hw).
      assert (Hm : Z.of_nat m ≤ lo) by lia.
      destruct (o_below0 _ _ Hw Hm) as [dp Hdp].
      pose proof (o_lower0 _ _ _ Hdp Hw) as Hle.
      assert (HpP : p ∈ P).
      { destruct (proj1 (o_dom0 p) (mk_is_Some _ _ Hdp)) as [?|(d' & Hd')];
          [done|].
        destruct (Hq _ _ Hd') as [_ Hd'']. rewrite Hdp in Hd''.
        injection Hd'' as <-. specialize (Hmin _ Hd'). simpl in Hmin. lia. }
      by apply o_closed0.
  - done.
  - intros c [HP| ->%elem_of_singleton]%elem_of_union;
      [by apply o_nofood0|done].
  - intros c d [HP| ->%elem_of_singleton]%elem_of_union Hd.
    + specialize (o_Plo0 _ _ HP Hd). lia.
    + rewrite Hcur in Hd. injection Hd as <-. lia.
Qed.

(** Whatever the while loop of dijkstra returns is a shortest path to a
    food cell, or the empty path when no food cell can be reached. *)
Lemma dijkstra_loop_opt (w h : Z) (start : Coord) (dangers : gset Coord)
    (food : list Coord) (pfuel : nat) (path : list Coord) :
  ∀ (f k : nat) (lo : Z) (P : gset Coord) (D : gmap Coord Z)
    (Qu : list (Z * Coord)) (CF : gmap Coord Coord),
    dj_inv w h start dangers lo (Z.of_nat k) D Qu CF →
    dj_opt w h start dangers food lo P P D Qu →
    Main.dijkstra_loop f pfuel w h start dangers food (D, Qu, CF)
    = Some path →
    shortest_food_path w h start dangers food path.
Proof.
  induction f as [|f IH]; intros k lo P D Qu CF Hinv Hopt; [done|].
  cbn [Main.dijkstra_loop fst snd].
  pose proof (heappop_spec Qu) as Hspec.
  destruct (Main.heappop Qu) as [[[cd current] Qu']|] eqn:Hpop.
  2:{ intros [= <-]. subst Qu. left. split; [done|]. right.
      intros c n Hc Hw. destruct Hopt.
      assert (HP : c ∈ P); [|by apply (o_nofood0 c)].
      clear Hc. induction Hw as [|c d n Hw IHw Hd Hf].
      - destruct Hinv as [Hs _ _ _].
        destruct (proj1 (o_dom0 start) (mk_is_Some _ _ Hs))
          as [?|(d & Hd%elem_of_nil)]; done.
      - destruct (proj1 (o_dom0 (add c d)) (o_closed0 _ _ IHw Hd Hf))
          as [?|(d' & Hd'%elem_of_nil)]; done. }
  destruct Hspec as (Hin & Hmin & _ & Hsub).
  pose proof Hinv as [Hs Hq Hr Hp].
  destruct (Hq _ _ Hin) as [Hlo Hcur].
  destruct (Hr _ _ Hcur) as (Hcd0 & Hcd1 & Hcdk).
  case_bool_decide as Hfood.
  - destruct (Main.build_path pfuel CF start current []) as [res|] eqn:Hbp;
      [|done].
    simpl. intros [= <-].
    destruct (build_path_full _ _ _ _ _ _ _ _ _ Hinv _ _ _ _ _ Hcur Hbp)
      as (chain & -> & Hlen & Hpath & Hend).
    simpl. destruct Hopt.
    assert (Hbest : ∀ c n, c ∈ food → walk dangers w h start c n →
                           cd ≤ Z.of_nat n).
    { intros c n Hc Hw. destruct (Z.le_gt_cases cd (Z.of_nat n)); [done|].
      exfalso. destruct (o_below0 _ _ Hw) as [dc Hdc]; [lia|].
      pose proof (o_lower0 _ _ _ Hdc Hw) as Hle.
      destruct (proj1 (o_dom0 c) (mk_is_Some _ _ Hdc)) as [HP|(d' & Hd')].
      - by apply (o_nofood0 c).
      - destruct (Hq _ _ Hd') as [_ Hd'']. rewrite Hdc in Hd''.
        injection Hd'' as <-. specialize (Hmin _ Hd'). simpl in Hmin. lia. }
    destruct chain as [|c0 chain].
    + left. split; [done|]. left.
      assert (Hcs : current = start) by (by rewrite <- Hend).
      by rewrite <- Hcs.
    + right. split.
      { rewrite reverse_cons. intros [_ ?]%app_eq_nil. done. }
      split.
      { intros Hsf. specialize (Hbest _ 0%nat Hsf (walk_here _ _ _ _)).
        simpl in Hlen. lia. }
      split; [done|]. split; [by rewrite Hend|].
      intros c n Hc Hw. specialize (Hbest _ _ Hc Hw).
      rewrite length_reverse. lia.
  - assert (Hinv' : dj_inv w h start dangers cd (Z.of_nat (S k)) D Qu' CF).
    { split; [done| | |done].
      - intros d c Hdc. specialize (Hmin _ (Hsub _ Hdc)). simpl in Hmin.
        split; [done|]. by apply Hq, Hsub.
      - intros c d Hd. apply Hr in Hd. lia. }
    pose proof (pop_opt _ _ _ _ _ _ _ _ _ _ _ _ _ _ Hinv Hopt Hpop Hfood)
      as Hopt'.
    destruct (relax_fold_opt w h start dangers food cd (Z.of_nat (S k))
                current (P ∪ {[current]}) P Main.STEPS (λ e He, He)
                ltac:(lia) D Qu' CF Hcur Hinv' Hopt')
      as (Hi & Ho & _ & Hrec).
    destruct (fold_left _ Main.STEPS (D, Qu', CF)) as [[D2 Qu2] CF2].
    cbn [fst snd] in Hi, Ho, Hrec.
    apply (IH (S k) cd (P ∪ {[current]})); [done|].
    destruct Ho. split; try done.
    intros p d [HP| ->%elem_of_singleton]%elem_of_union Hd Hf;
      [by apply o_closed0|].
    apply STEPS_deltas in Hd as (e & He & <-). by apply Hrec.
Qed.

Lemma dijkstra_opt_init (w h : Z) (start : Coord) (dangers : gset Coord)
    (food : list Coord) :
  dj_inv w h start dangers 0 (Z.of_nat 0) {[start := 0]} [(0, start)] ∅
  ∧ dj_opt w h start dangers food 0 ∅ ∅ {[start := 0]} [(0, start)].
Proof.
  split; split.
  - by rewrite lookup_singleton_eq.
  - intros d c [= -> ->]%list_elem_of_singleton.
    by rewrite lookup_singleton_eq.
  - intros c d [-> <-]%lookup_singleton_Some. simpl. lia.
  - intros c d [-> <-]%lookup_singleton_Some. by left.
  - apply NoDup_singleton.
  - intros c. split.
    + intros [d [-> <-]%lookup_singleton_Some]. right. exists 0.
      by apply list_elem_of_singleton.
    + intros [?%elem_of_empty|(d & [= -> ->]%list_elem_of_singleton)];
        [done|]. rewrite lookup_singleton_eq. by eexists.
  - by intros c d ?%elem_of_empty.
  - intros c d [-> <-]%lookup_singleton_Some. exists 0%nat.
    split; [done|constructor].
  - intros c d n [-> <-]%lookup_singleton_Some _. lia.
  - intros c n Hw Hn. assert (n = 0%nat) as -> by lia.
    apply walk_zero in Hw as ->. rewrite lookup_singleton_eq. by eexists.
  - by intros p d ?%elem_of_empty.
  - by intros c ?%elem_of_empty.
  - by intros c d ?%elem_of_empty.
Qed.

(** dijkstra returns, and what it returns is a shortest path to a food
    cell in the sense of [shortest_food_path]. *)
Lemma dijkstra_run (w h : Z) (start : Coord) (dangers : gset Coord)
    (food : list Coord) :
  ∃ path, Main.dijkstra w h start dangers food = Some path
          ∧ shortest_food_path w h start dangers food path.
Proof.
  destruct (dijkstra_spec w h start dangers food) as (path & Hrun & _).
  exists path. split; [done|].
  destruct (dijkstra_opt_init w h start dangers food) as [Hinv Hopt].
  exact (dijkstra_loop_opt w h start dangers food _ path _ 0%nat 0 ∅ _ _ _
           Hinv Hopt Hrun).
Qed.

(** X12. dijkstra of main.py always returns.  The path is empty exactly when the
    start is a food cell or no food cell can be reached over in-bounds
    cells outside the danger set; otherwise it is a sequence of single
    steps over such cells from the start to a food cell, and no walk from
    the start to any food cell is shorter. *)
Theorem dijkstra_shortest (w h : Z) (start : Coord) (dangers : gset Coord)
    (food : list Coord) :
  ∃ path, Main.dijkstra w h start dangers food = Some path
    ∧ (path = [] ↔
       start ∈ food ∨ ∀ f n, f ∈ food → ¬ walk dangers w h start f n)
    ∧ (path ≠ [] →
       is_path dangers w h start path
       ∧ path_end start path ∈ food
       ∧ ∀ f n, f ∈ food → walk dangers w h start f n →
                (length path ≤ n)%nat).
Proof.
  destruct (dijkstra_run w h start dangers food) as (path & Hrun & Hpath).
  exists path. split; [done|].
  destruct Hpath as [[-> Hwhy]|(Hne & Hnf & Hp & Hend & Hbest)].
  - split; [done|]. by intros.
  - split; [|done]. split; [done|]. intros [?|Hno]; [done|].
    exfalso. apply (Hno _ (length path) Hend). by apply is_path_walk.
Qed.

(** The first cell of a step-connected path is one step from its origin,
    and the rest of the path is a walk from that cell. *)
Lemma is_path_first (dangers : gset Coord) (w h : Z) (start p : Coord)
    (rest : list Coord) :
  is_path dangers w h start (p :: rest) →
  (∃ e, e ∈ Main.STEPS ∧ p = add start e.2)
  ∧ free_cell dangers w h p
  ∧ walk dangers w h p (path_end start (p :: rest)) (length rest).
Proof.
  intros ((d & Hd & ->) & Hf & Hrest). split.
  - apply STEPS_deltas in Hd as (e & He & <-). by exists e.
  - split; [done|]. rewrite path_end_cons. by apply is_path_walk.
Qed.

(** X13. move of main.py, when its head is not on food and some food cell can be
    reached over free cells: the answer is the direction of a free
    neighbouring cell from which a food cell is one step nearer than any
    food cell is from the head. *)
Theorem main_move_shortest (gs : GameState) (head_pos f : Coord) (n : nat) :
  let w := width (board gs) in
  let h := height (board gs) in
  let dangers := all_body_cells gs in
  snake_body (you gs) !! 0%nat = Some head_pos →
  head_pos ∉ food (board gs) →
  f ∈ food (board gs) →
  walk dangers w h head_pos f n →
  ∃ (e : string * (Z * Z)) (g : Coord) (m : nat),
    Main.move gs = Some e.1 ∧ e ∈ Main.STEPS
    ∧ free_cell dangers w h (add head_pos e.2)
    ∧ g ∈ food (board gs)
    ∧ walk dangers w h (add head_pos e.2) g m
    ∧ ∀ f' n', f' ∈ food (board gs) → walk dangers w h head_pos f' n' →
               (S m ≤ n')%nat.
Proof.
  intros w h dangers Hhead Hnf Hf Hw. unfold Main.move. rewrite Hhead.
  fold w h dangers.
  destruct (dijkstra_run w h head_pos dangers (food (board gs)))
    as (path & -> & [[_ [?|Hno]]|(Hne & _ & Hpath & Hend & Hbest)]);
    [done|by destruct (Hno f n)|].
  destruct path as [|p rest]; [done|].
  destruct (is_path_first _ _ _ _ _ _ Hpath) as ((e & He & ->) & Hfree & Hwalk).
  exists e, (path_end head_pos (add head_pos e.2 :: rest)), (length rest).
  split; [by apply move_map_step|]. split; [done|]. split; [done|].
  split; [done|]. split; [done|]. intros f' n' Hf' Hw'.
  apply (Hbest f' n' Hf' Hw').
Qed.

Lemma main_move_shortest_witness :
  ∃ (e : string * (Z * Z)) (g : Coord) (m : nat),
    Main.move (lone 5 5 [(2, 2); (2, 1)] 100 [(2, 4)]) = Some e.1
    ∧ e ∈ Main.STEPS
    ∧ free_cell (list_to_set [(2, 2); (2, 1)]) 5 5 (add (2, 2) e.2)
    ∧ g ∈ [((2, 4) : Coord)]
    ∧ walk (list_to_set [(2, 2); (2, 1)]) 5 5 (add (2, 2) e.2) g m
    ∧ ∀ f' n', f' ∈ [((2, 4) : Coord)] →
               walk (list_to_set [(2, 2); (2, 1)]) 5 5 (2, 2) f' n' →
               (S m ≤ n')%nat.
Proof.
  apply (main_move_shortest (lone 5 5 [(2, 2); (2, 1)] 100 [(2, 4)])
           (2, 2) (2, 4) 2).
  - reflexivity.
  - by intros [= ?]%list_elem_of_singleton.
  - by apply list_elem_of_singleton.
  - refine (walk_step _ 5 5 (2, 2) (2, 3) (0, 1) 1 _ _ _).
    + refine (walk_step _ 5 5 (2, 2) (2, 2) (0, 1) 0 _ _ _).
      * constructor.
      * apply deltas_cases. tauto.
      * split; [reflexivity|]. by vm_compute.
    + apply deltas_cases. tauto.
    + split; [reflexivity|]. by vm_compute.
Defined.

(** ** The fallback of main.py *)

Lemma omap_first {A B} (f : A → option B) (l : list A) :
  match omap f l with
  | [] => ∀ e, e ∈ l → f e = None
  | m :: _ =>
      ∃ pre e post, l = pre ++ e :: post ∧ f e = Some m
                    ∧ ∀ e', e' ∈ pre → f e' = None
  end.
Proof.
  induction l as [|a l IH]; [by intros e ?%elem_of_nil|].
  change (omap f (a :: l))
    with (match f a with Some y => y :: omap f l | None => omap f l end).
  destruct (f a) as [b|] eqn:Ha.
  - exists [], a, l. split; [done|]. split; [done|].
    by intros e' ?%elem_of_nil.
  - destruct (omap f l) as [|m ms].
    + intros e [->|He]%elem_of_cons; [done|by apply IH].
    + destruct IH as (pre & e & post & -> & He & Hpre).
      exists (a :: pre), e, post. split; [done|]. split; [done|].
      intros e' [->|He']%elem_of_cons; [done|by apply Hpre].
Qed.

(** X14. move of main.py when its head is on food or no food cell can be
    reached: the answer is the first of up, down, left, right that leads to
    an in-bounds cell free of snake bodies, and "up" when there is none. *)
Theorem main_move_fallback (gs : GameState) (head_pos : Coord) :
  let w := width (board gs) in
  let h := height (board gs) in
  let dangers := all_body_cells gs in
  snake_body (you gs) !! 0%nat = Some head_pos →
  head_pos ∈ food (board gs)
  ∨ (∀ f n, f ∈ food (board gs) → ¬ walk dangers w h head_pos f n) →
  ∃ mv, Main.move gs = Some mv
    ∧ ((∃ pre e post, Main.STEPS = pre ++ e :: post ∧ mv = e.1
          ∧ free_cell dangers w h (add head_pos e.2)
          ∧ ∀ e', e' ∈ pre → ¬ free_cell dangers w h (add head_pos e'.2))
       ∨ (mv = "up"
          ∧ ∀ e, e ∈ Main.STEPS →
              ¬ free_cell dangers w h (add head_pos e.2))).
Proof.
  intros w h dangers Hhead Hno. unfold Main.move. rewrite Hhead.
  fold w h dangers.
  destruct (dijkstra_run w h head_pos dangers (food (board gs)))
    as (path & -> & Hpath).
  assert (path = []) as ->.
  { destruct Hpath as [[-> _]|(_ & Hnf & Hp & Hend & _)]; [done|].
    exfalso. destruct Hno as [?|Hno]; [done|].
    apply (Hno _ (length path) Hend). by apply is_path_walk. }
  set (f := λ e : string * (Z * Z),
         if in_bounds (add head_pos e.2) w h
            && negb (bool_decide (add head_pos e.2 ∈ dangers))
         then Some e.1 else None).
  assert (Hf : ∀ e, (f e = None ↔ ¬ free_cell dangers w h (add head_pos e.2))
                    ∧ ∀ m, f e = Some m →
                        m = e.1 ∧ free_cell dangers w h (add head_pos e.2)).
  { intros e. unfold f.
    destruct (in_bounds _ w h && negb _) eqn:Hc.
    - apply free_cell_dec in Hc. split; [split; [done|tauto]|].
      by intros m [= <-].
    - split; [|done]. split; [|done]. intros _ Hfree%free_cell_dec.
      congruence. }
  pose proof (omap_first f Main.STEPS) as Hom.
  unfold Main.safe_moves. fold f.
  destruct (omap f Main.STEPS) as [|m ms].
  - exists "up". split; [done|]. right. split; [done|].
    intros e He. by apply Hf, Hom.
  - destruct Hom as (pre & e & post & HS & He & Hpre).
    exists m. split; [done|]. left. exists pre, e, post.
    destruct (proj2 (Hf e) m He) as [-> Hfree].
    split; [done|]. split; [done|]. split; [done|].
    intros e' He'. by apply Hf, Hpre.
Qed.

Lemma main_move_fallback_witness :
  ∃ mv, Main.move gs_tail = Some mv
    ∧ ((∃ pre e post, Main.STEPS = pre ++ e :: post ∧ mv = e.1
          ∧ free_cell (all_body_cells gs_tail) 4 2 (add (1, 0) e.2)
          ∧ ∀ e', e' ∈ pre →
                  ¬ free_cell (all_body_cells gs_tail) 4 2
                      (add (1, 0) e'.2))
       ∨ (mv = "up"
          ∧ ∀ e, e ∈ Main.STEPS →
              ¬ free_cell (all_body_cells gs_tail) 4 2 (add (1, 0) e.2))).
Proof.
  apply (main_move_fallback gs_tail (1, 0)).
  - reflexivity.
  - right. by intros f n ?%elem_of_nil.
Defined.

(** ** The largest opponent *)

Lemma fold_max_filter (me : string) (l : list Snake) :
  ∀ acc,
    fold_left (λ acc s, if bool_decide (snake_id s ≠ me)
                        then Z.max acc (snake_length s) else acc) l acc
    = fold_left Z.max
        (snake_length <$> filter (λ s, snake_id s ≠ me) l) acc.
Proof.
  induction l as [|s l IH]; intros acc; [done|]. cbn [fold_left].
  rewrite filter_cons. simpl.
  case_bool_decide as Hs; destruct (decide (snake_id s ≠ me)) as [Hd|Hd];
    try done; cbn [fmap list_fmap fold_left]; apply IH.
Qed.

Lemma fold_max_spec (l : list Z) :
  ∀ acc, acc ≤ fold_left Z.max l acc
         ∧ (∀ z, z ∈ l → z ≤ fold_left Z.max l acc)
         ∧ (fold_left Z.max l acc = acc ∨ fold_left Z.max l acc ∈ l).
Proof.
  induction l as [|x l IH]; intros acc; simpl.
  - split; [lia|]. split; [by intros z ?%elem_of_nil|by left].
  - destruct (IH (Z.max acc x)) as (H1 & H2 & H3). split; [lia|]. split.
    + intros z [->|Hz]%elem_of_cons; [lia|by apply H2].
    + destruct H3 as [H3|H3]; [|right; by right].
      destruct (Z.max_spec acc x) as [[_ Hm]|[_ Hm]]; rewrite Hm in H3 |- *.
      * right. rewrite H3. by left.
      * by left.
Qed.

(** X15. The loop of safe.py and the max(..., default=0) of greedy.py and
    aggressive.py compute the same number when no opponent has a negative
    length: the greatest length among the snakes whose id differs from the
    planner's, and 0 when there is none. *)
Theorem largest_opp_agree (gs : GameState) :
  (∀ s, s ∈ opponents gs → 0 ≤ snake_length s) →
  Safe.largest_opp gs = Greedy.largest_opp gs
  ∧ Aggressive.largest_opp gs = Greedy.largest_opp gs
  ∧ (∀ s, s ∈ opponents gs → snake_length s ≤ Greedy.largest_opp gs)
  ∧ (opponents gs = [] → Greedy.largest_opp gs = 0)
  ∧ (opponents gs ≠ [] →
     ∃ s, s ∈ opponents gs ∧ snake_length s = Greedy.largest_opp gs).
Proof.
  intros Hpos. unfold Safe.largest_opp, Aggressive.largest_opp,
    Greedy.largest_opp. rewrite fold_max_filter. fold (opponents gs).
  destruct (opponents gs) as [|o os] eqn:Ho.
  { split; [done|]. split; [done|]. split; [by intros s ?%elem_of_nil|].
    split; done. }
  cbn [fmap list_fmap max_default fold_left].
  rewrite (Z.max_r 0 (snake_length o)) by (apply Hpos; by left).
  destruct (fold_max_spec (snake_length <$> os) (snake_length o))
    as (H1 & H2 & H3).
  split; [done|]. split; [done|]. split; [|split; [done|]].
  - intros s [->|Hs]%elem_of_cons; [done|]. apply H2.
    apply list_elem_of_fmap. by exists s.
  - intros _. destruct H3 as [H3|H3].
    + exists o. split; [by left|done].
    + apply list_elem_of_fmap in H3 as (s & Hs & Hin). exists s.
      split; [by right|done].
Qed.

Lemma largest_opp_agree_witness :
  Safe.largest_opp gs_free_board = Greedy.largest_opp gs_free_board
  ∧ Aggressive.largest_opp gs_free_board = Greedy.largest_opp gs_free_board
  ∧ (∀ s, s ∈ opponents gs_free_board →
       snake_length s ≤ Greedy.largest_opp gs_free_board)
  ∧ (opponents gs_free_board = [] → Greedy.largest_opp gs_free_board = 0)
  ∧ (opponents gs_free_board ≠ [] →
     ∃ s, s ∈ opponents gs_free_board
          ∧ snake_length s = Greedy.largest_opp gs_free_board).
Proof.
  apply (largest_opp_agree gs_free_board).
  intros s Hs. vm_compute in Hs.
  apply list_elem_of_singleton in Hs. subst s. vm_compute. discriminate.
Defined.

(** ** The path reward of greedy.py *)

(** X16. In greedy.py the blocked set holds the planner's own head unless the
    head is also the tail cell, so the BFS distance from the head is None
    for every target: the score never uses the difference of two
    distances, its food part is 1.5 * FOOD_WEIGHT = 12 when the target can
    be reached from the candidate cell and 0 otherwise. *)
Theorem greedy_path_reward_flat (gs : GameState) (tail : Coord) (r : Q)
    (c : string * Coord) :
  snake_head (you gs) ∈ all_body_cells gs → snake_head (you gs) ≠ tail →
  let w := width (board gs) in
  let h := height (board gs) in
  let blocked := blocked_cells gs tail in
  let space := flood_fill_size c.2 blocked w h Greedy.SPACE_LIMIT in
  (∀ target, Greedy.bfs_distance (snake_head (you gs)) target blocked w h
               Greedy.SPACE_LIMIT = None)
  ∧ (Greedy.score gs tail r c ==
     match Greedy.select_target (snake_head (you gs)) (Greedy.opp_heads gs)
             (food (board gs)) with
     | Some target =>
         match Greedy.bfs_distance c.2 target blocked w h
                 Greedy.SPACE_LIMIT with
         | Some _ => 12
         | None => 0
         end
         + (if manhattan c.2 target
               <? Greedy.d_opp_min (Greedy.opp_heads gs) target
            then 10 else 0)
     | None => 0
     end
     - (if space <? 10 then inject_Z (10 - space) * (8 # 10) else 0)
     + r * (1 # 100))%Q.
Proof.
  intros Hin Hne w h blocked space.
  assert (Hnone : ∀ target,
            Greedy.bfs_distance (snake_head (you gs)) target blocked w h
              Greedy.SPACE_LIMIT = None).
  { intros target. unfold Greedy.bfs_distance.
    rewrite (bool_decide_eq_true_2 (snake_head (you gs) ∈ blocked)); [done|].
    unfold blocked, blocked_cells. apply elem_of_difference.
    split; [done|]. by intros ?%elem_of_singleton. }
  split; [done|]. unfold Greedy.score. fold w h blocked space.
  destruct (Greedy.select_target _ _ _) as [target|].
  - rewrite Hnone.
    destruct (Greedy.bfs_distance c.2 target blocked w h Greedy.SPACE_LIMIT),
      (manhattan c.2 target <? _), (space <? 10);
      unfold Greedy.FOOD_WEIGHT, Greedy.WINNABLE_FOOD_BONUS,
        Greedy.SPACE_WEIGHT; ring.
  - destruct (space <? 10); unfold Greedy.SPACE_WEIGHT; ring.
Qed.

Lemma greedy_path_reward_flat_witness :
  Greedy.bfs_distance (2, 2) (2, 4)
    (blocked_cells (lone 5 5 [(2, 2); (2, 1)] 100 [(2, 4)]) (2, 1)) 5 5
    Greedy.SPACE_LIMIT = None.
Proof.
  destruct (greedy_path_reward_flat
              (lone 5 5 [(2, 2); (2, 1)] 100 [(2, 4)]) (2, 1) 0
              ("up", (2, 3))) as [H _].
  - by vm_compute.
  - discriminate.
  - apply (H (2, 4)).
Defined.

(** ** What the scores make the planners prefer *)

Lemma toward_step (head ft : Coord) (d : Z * Z) :
  d ∈ deltas → -1 ≤ manhattan head ft - manhattan (add head d) ft ≤ 1.
Proof.
  intros Hd%deltas_cases. unfold manhattan, add.
  destruct Hd as [-> | [-> | [-> | ->]]]; simpl; lia.
Qed.

(** X17. safe.py: the returned move leads to a candidate that maximises
    space + 3 * toward, where toward is -1, 0 or 1; when the planner is
    not hungry (health above 50) or the board holds no food, the move leads
    to a candidate of greatest flood-fill count. *)
Theorem safe_move_objective (gs : GameState) (rnd : nat → Q) (t : Coord) :
  valid_draws rnd → last (snake_body (you gs)) = Some t →
  Safe.candidates gs t ≠ [] →
  let space (c : string * Coord) :=
    flood_fill_size c.2 (blocked_cells gs t) (width (board gs))
      (height (board gs)) 96 in
  let toward (c : string * Coord) :=
    match Safe.food_target gs with
    | Some ft => manhattan (snake_head (you gs)) ft - manhattan c.2 ft
    | None => 0
    end in
  ∃ c, c ∈ Safe.candidates gs t ∧ Safe.move gs rnd = Some c.1
    ∧ (∀ c', c' ∈ Safe.candidates gs t →
         space c' + 3 * toward c' ≤ space c + 3 * toward c)
    ∧ (∀ c', c' ∈ Safe.candidates gs t → -1 ≤ toward c' ≤ 1)
    ∧ (50 < snake_health (you gs) ∨ food (board gs) = [] →
       ∀ c', c' ∈ Safe.candidates gs t → space c' ≤ space c).
Proof.
  intros Hrnd Ht Hne space toward.
  destruct (pick_max (Safe.candidates gs t) (Safe.score gs t)
              (safe_score_split gs t) (λ c _, safe_score_grid gs t c)
              rnd Hrnd Hne) as (c & Hc & Hmv & Hmax).
  assert (Hsc : ∀ c, (Safe.score gs t 0 c
                      == inject_Z (space c + 3 * toward c))%Q).
  { intros c0. unfold Safe.score. fold (space c0) (toward c0).
    rewrite inject_Z_plus, inject_Z_mult. ring. }
  exists c. split; [done|]. split.
  { unfold Safe.move. rewrite Ht.
    destruct (Safe.candidates gs t) as [|p l]; [done|exact Hmv]. }
  assert (Hbest : ∀ c', c' ∈ Safe.candidates gs t →
            space c' + 3 * toward c' ≤ space c + 3 * toward c).
  { intros c' Hc'. specialize (Hmax c' Hc'). rewrite !Hsc in Hmax.
    unfold Qle, inject_Z in Hmax. simpl in Hmax. lia. }
  split; [done|]. split.
  - intros c' Hc'. unfold toward.
    destruct (Safe.food_target gs) as [ft|]; [|lia].
    destruct (candidate_cell gs t _ _ c' Hc') as ((d & Hd & ->) & _).
    by apply toward_step, (DIRECTIONS_deltas c'.1).
  - intros Hidle c' Hc'. specialize (Hbest c' Hc').
    assert (Hnone : Safe.food_target gs = None).
    { unfold Safe.food_target. destruct Hidle as [Hh| ->].
      - by rewrite (proj2 (Z.leb_gt _ _) Hh).
      - simpl. by rewrite andb_false_r. }
    unfold toward in Hbest. rewrite Hnone in Hbest. lia.
Qed.

Lemma safe_move_objective_witness :
  ∃ c, c ∈ Safe.candidates gs_tail (2, 0)
    ∧ Safe.move gs_tail no_jitter = Some c.1
    ∧ ∀ c', c' ∈ Safe.candidates gs_tail (2, 0) →
        flood_fill_size c'.2 (blocked_cells gs_tail (2, 0)) 4 2 96
        ≤ flood_fill_size c.2 (blocked_cells gs_tail (2, 0)) 4 2 96.
Proof.
  destruct (safe_move_objective gs_tail no_jitter (2, 0))
    as (c & Hc & Hmv & _ & _ & Hsp).
  - intros i. split; by vm_compute.
  - reflexivity.
  - by vm_compute.
  - exists c. split; [done|]. split; [done|]. apply Hsp. left. by vm_compute.
Defined.

(** X18. greedy.py with no food on the board: the only term left in the score
    is the penalty for fewer than 10 reachable cells, so the move leads to
    a candidate whose flood-fill count, cut off at 10, is greatest. *)
Theorem greedy_move_objective (gs : GameState) (rnd : nat → Q) (t : Coord) :
  valid_draws rnd → last (snake_body (you gs)) = Some t →
  Greedy.candidates gs t ≠ [] → food (board gs) = [] →
  let space (c : string * Coord) :=
    flood_fill_size c.2 (blocked_cells gs t) (width (board gs))
      (height (board gs)) Greedy.SPACE_LIMIT in
  ∃ c, c ∈ Greedy.candidates gs t ∧ Greedy.move gs rnd = Some c.1
    ∧ ∀ c', c' ∈ Greedy.candidates gs t →
        Z.min (space c') 10 ≤ Z.min (space c) 10.
Proof.
  intros Hrnd Ht Hne Hfood space.
  destruct (pick_max (Greedy.candidates gs t) (Greedy.score gs t)
              (greedy_score_split gs t) (λ c _, greedy_score_grid gs t c)
              rnd Hrnd Hne) as (c & Hc & Hmv & Hmax).
  assert (Hsc : ∀ c, (Greedy.score gs t 0 c
                      == inject_Z (Z.min (space c) 10 - 10) * (8 # 10))%Q).
  { intros c0. unfold Greedy.score. rewrite Hfood. cbn [Greedy.select_target].
    fold (space c0). destruct (Z.ltb_spec (space c0) 10) as [Hlt|Hge].
    - rewrite Z.min_l by lia. unfold Greedy.SPACE_WEIGHT.
      unfold Qeq, Qminus, Qplus, Qopp, Qmult, inject_Z. simpl. lia.
    - rewrite Z.min_r by lia. unfold Qeq. simpl. lia. }
  exists c. split; [done|]. split.
  { unfold Greedy.move. rewrite Ht.
    destruct (Greedy.candidates gs t) as [|p l]; [done|exact Hmv]. }
  intros c' Hc'. specialize (Hmax c' Hc'). rewrite !Hsc in Hmax.
  unfold Qle, Qmult, inject_Z in Hmax. simpl in Hmax. lia.
Qed.

Lemma greedy_move_objective_witness :
  ∃ c, c ∈ Greedy.candidates gs_tail (2, 0)
    ∧ Greedy.move gs_tail no_jitter = Some c.1
    ∧ ∀ c', c' ∈ Greedy.candidates gs_tail (2, 0) →
        Z.min (flood_fill_size c'.2 (blocked_cells gs_tail (2, 0)) 4 2
                 Greedy.SPACE_LIMIT) 10
        ≤ Z.min (flood_fill_size c.2 (blocked_cells gs_tail (2, 0)) 4 2
                   Greedy.SPACE_LIMIT) 10.
Proof.
  apply (greedy_move_objective gs_tail no_jitter (2, 0)).
  - intros i. split; by vm_compute.
  - reflexivity.
  - by vm_compute.
  - reflexivity.
Defined.




(** ** The trap bonus of aggressive.py *)



(** ** The chase and kill terms of aggressive.py *)




